(** * sks_spider: the crawl state machine and the valid-IP selector

    A shallow embedding of [spider.go] and [http_ip_valid.go].  Go maps
    are stdpp [gmap]s, Go [int] is [Z] with the 64-bit wrap-around
    written out ([wrap]), an [error] is an optional message, and goroutine
    spawns and channel sends are recorded as a list of [Effect]s returned
    next to the new state. *)

From Stdlib Require Import ZArith QArith Lia.
From Stdlib Require PrimFloat FloatOps SpecFloat.
From stdpp Require Import gmap strings list fin_maps sorting.

Open Scope Z_scope.

(** ** Go integers and strings *)

(** Two's-complement wrap-around of a 64-bit [int]. *)
Definition wrap (z : Z) : Z := (z + 2 ^ 63) mod 2 ^ 64 - 2 ^ 63.

Definition in_int (z : Z) : Prop := - 2 ^ 63 <= z < 2 ^ 63.

(** [m[k]] on a Go map whose values are [int]: zero when the key is absent. *)
Definition getZ (m : gmap string Z) (k : string) : Z := default 0 (m !! k).

(** [m[k]] on a Go map whose values are slices: nil when the key is absent. *)
Definition getL (m : gmap string (list string)) (k : string) : list string :=
  default [] (m !! k).

(** [m[k] += d] *)
Definition bump (k : string) (d : Z) (m : gmap string Z) : gmap string Z :=
  <[k := wrap (getZ m k + d)]> m.

(** [strings.Contains(s, sub)] *)
Fixpoint strContains (s sub : string) : bool :=
  String.prefix sub s ||
  match s with
  | EmptyString => false
  | String _ s' => strContains s' sub
  end.

(** [strings.HasSuffix(s, suffix)] *)
Definition strHasSuffix (s suffix : string) : bool :=
  let n := String.length s in
  let k := String.length suffix in
  (k <=? n)%nat && String.eqb (String.substring (n - k) k s) suffix.

(** ** Data of spider.go *)

(** The fields of [SksNode] that the spider and the selector read. *)
Record SksNode := {
  Hostname : string;
  Settings : gmap string string;
  GossipPeerList : list string;
  Version : string;
  Keycount : Z;
  ServerHeader : string;
  ViaHeader : string;
  IpList : list string;
}.

Record DnsResult := {
  dns_hostname : string;
  dns_ipList : list string;
  dns_err : option string;
}.

Record HostsRequest := {
  hostnames : list string;
  distance : Z;
  origin : string;
}.

Record HostResult := {
  hr_hostname : string;
  hr_node : option SksNode;
  hr_err : option string;
}.

Record CountryResult := {
  cr_ip : string;
  cr_country : string;
  cr_err : option string;
}.

(** The maps of [Spider]; [pending] is the counter of the WaitGroup. *)
Record Spider := {
  pending : Z;
  considering : gmap string bool;
  badDNS : gmap string bool;
  knownHosts : gmap string string;
  aliasesForHost : gmap string (list string);
  knownIPs : gmap string string;
  ipsForHost : gmap string (list string);
  serverInfos : gmap string (option SksNode);
  queryErrors : gmap string string;
  pendingHosts : gmap string Z;
  pendingCountries : gmap string Z;
  distances : gmap string Z;
  countriesForIPs : gmap string string;
}.

(** What a handler starts or sends besides changing the maps. *)
Inductive Effect :=
| SpawnDns (hostname : string)
| SpawnQueryHost (hostname : string)
| SpawnCountry (ip : string)
| SendBatch (request : HostsRequest).

(** [StartSpider]: every map is made empty. *)
Definition StartSpider : Spider :=
  {| pending := 0; considering := ∅; badDNS := ∅; knownHosts := ∅;
     aliasesForHost := ∅; knownIPs := ∅; ipsForHost := ∅; serverInfos := ∅;
     queryErrors := ∅; pendingHosts := ∅; pendingCountries := ∅;
     distances := ∅; countriesForIPs := ∅ |}.

(** Field updates. *)
Definition with_pending (f : Z → Z) (s : Spider) : Spider :=
  {| pending := f (pending s); considering := considering s; badDNS := badDNS s;
     knownHosts := knownHosts s; aliasesForHost := aliasesForHost s;
     knownIPs := knownIPs s; ipsForHost := ipsForHost s;
     serverInfos := serverInfos s; queryErrors := queryErrors s;
     pendingHosts := pendingHosts s; pendingCountries := pendingCountries s;
     distances := distances s; countriesForIPs := countriesForIPs s |}.

Definition with_considering (f : gmap string bool → gmap string bool) (s : Spider) : Spider :=
  {| pending := pending s; considering := f (considering s); badDNS := badDNS s;
     knownHosts := knownHosts s; aliasesForHost := aliasesForHost s;
     knownIPs := knownIPs s; ipsForHost := ipsForHost s;
     serverInfos := serverInfos s; queryErrors := queryErrors s;
     pendingHosts := pendingHosts s; pendingCountries := pendingCountries s;
     distances := distances s; countriesForIPs := countriesForIPs s |}.

Definition with_badDNS (f : gmap string bool → gmap string bool) (s : Spider) : Spider :=
  {| pending := pending s; considering := considering s; badDNS := f (badDNS s);
     knownHosts := knownHosts s; aliasesForHost := aliasesForHost s;
     knownIPs := knownIPs s; ipsForHost := ipsForHost s;
     serverInfos := serverInfos s; queryErrors := queryErrors s;
     pendingHosts := pendingHosts s; pendingCountries := pendingCountries s;
     distances := distances s; countriesForIPs := countriesForIPs s |}.

Definition with_knownHosts (f : gmap string string → gmap string string) (s : Spider) : Spider :=
  {| pending := pending s; considering := considering s; badDNS := badDNS s;
     knownHosts := f (knownHosts s); aliasesForHost := aliasesForHost s;
     knownIPs := knownIPs s; ipsForHost := ipsForHost s;
     serverInfos := serverInfos s; queryErrors := queryErrors s;
     pendingHosts := pendingHosts s; pendingCountries := pendingCountries s;
     distances := distances s; countriesForIPs := countriesForIPs s |}.

Definition with_aliasesForHost
    (f : gmap string (list string) → gmap string (list string)) (s : Spider) : Spider :=
  {| pending := pending s; considering := considering s; badDNS := badDNS s;
     knownHosts := knownHosts s; aliasesForHost := f (aliasesForHost s);
     knownIPs := knownIPs s; ipsForHost := ipsForHost s;
     serverInfos := serverInfos s; queryErrors := queryErrors s;
     pendingHosts := pendingHosts s; pendingCountries := pendingCountries s;
     distances := distances s; countriesForIPs := countriesForIPs s |}.

Definition with_knownIPs (f : gmap string string → gmap string string) (s : Spider) : Spider :=
  {| pending := pending s; considering := considering s; badDNS := badDNS s;
     knownHosts := knownHosts s; aliasesForHost := aliasesForHost s;
     knownIPs := f (knownIPs s); ipsForHost := ipsForHost s;
     serverInfos := serverInfos s; queryErrors := queryErrors s;
     pendingHosts := pendingHosts s; pendingCountries := pendingCountries s;
     distances := distances s; countriesForIPs := countriesForIPs s |}.

Definition with_ipsForHost
    (f : gmap string (list string) → gmap string (list string)) (s : Spider) : Spider :=
  {| pending := pending s; considering := considering s; badDNS := badDNS s;
     knownHosts := knownHosts s; aliasesForHost := aliasesForHost s;
     knownIPs := knownIPs s; ipsForHost := f (ipsForHost s);
     serverInfos := serverInfos s; queryErrors := queryErrors s;
     pendingHosts := pendingHosts s; pendingCountries := pendingCountries s;
     distances := distances s; countriesForIPs := countriesForIPs s |}.

Definition with_serverInfos
    (f : gmap string (option SksNode) → gmap string (option SksNode)) (s : Spider) : Spider :=
  {| pending := pending s; considering := considering s; badDNS := badDNS s;
     knownHosts := knownHosts s; aliasesForHost := aliasesForHost s;
     knownIPs := knownIPs s; ipsForHost := ipsForHost s;
     serverInfos := f (serverInfos s); queryErrors := queryErrors s;
     pendingHosts := pendingHosts s; pendingCountries := pendingCountries s;
     distances := distances s; countriesForIPs := countriesForIPs s |}.

Definition with_queryErrors (f : gmap string string → gmap string string) (s : Spider) : Spider :=
  {| pending := pending s; considering := considering s; badDNS := badDNS s;
     knownHosts := knownHosts s; aliasesForHost := aliasesForHost s;
     knownIPs := knownIPs s; ipsForHost := ipsForHost s;
     serverInfos := serverInfos s; queryErrors := f (queryErrors s);
     pendingHosts := pendingHosts s; pendingCountries := pendingCountries s;
     distances := distances s; countriesForIPs := countriesForIPs s |}.

Definition with_pendingHosts (f : gmap string Z → gmap string Z) (s : Spider) : Spider :=
  {| pending := pending s; considering := considering s; badDNS := badDNS s;
     knownHosts := knownHosts s; aliasesForHost := aliasesForHost s;
     knownIPs := knownIPs s; ipsForHost := ipsForHost s;
     serverInfos := serverInfos s; queryErrors := queryErrors s;
     pendingHosts := f (pendingHosts s); pendingCountries := pendingCountries s;
     distances := distances s; countriesForIPs := countriesForIPs s |}.

Definition with_pendingCountries (f : gmap string Z → gmap string Z) (s : Spider) : Spider :=
  {| pending := pending s; considering := considering s; badDNS := badDNS s;
     knownHosts := knownHosts s; aliasesForHost := aliasesForHost s;
     knownIPs := knownIPs s; ipsForHost := ipsForHost s;
     serverInfos := serverInfos s; queryErrors := queryErrors s;
     pendingHosts := pendingHosts s; pendingCountries := f (pendingCountries s);
     distances := distances s; countriesForIPs := countriesForIPs s |}.

Definition with_distances (f : gmap string Z → gmap string Z) (s : Spider) : Spider :=
  {| pending := pending s; considering := considering s; badDNS := badDNS s;
     knownHosts := knownHosts s; aliasesForHost := aliasesForHost s;
     knownIPs := knownIPs s; ipsForHost := ipsForHost s;
     serverInfos := serverInfos s; queryErrors := queryErrors s;
     pendingHosts := pendingHosts s; pendingCountries := pendingCountries s;
     distances := f (distances s); countriesForIPs := countriesForIPs s |}.

Definition with_countriesForIPs (f : gmap string string → gmap string string) (s : Spider) : Spider :=
  {| pending := pending s; considering := considering s; badDNS := badDNS s;
     knownHosts := knownHosts s; aliasesForHost := aliasesForHost s;
     knownIPs := knownIPs s; ipsForHost := ipsForHost s;
     serverInfos := serverInfos s; queryErrors := queryErrors s;
     pendingHosts := pendingHosts s; pendingCountries := pendingCountries s;
     distances := distances s; countriesForIPs := f (countriesForIPs s) |}.

(** [spider.pending.Add(n)] and [spider.pending.Done()].  The panic of a
    WaitGroup whose counter would become negative is not modelled: the
    counter of the model goes below zero where [Done] panics in Go.  What
    is said of the loop running without a panic is said of runs in which
    the counter covers the messages consumed, where it stays at zero or
    above. *)
Definition pendingAdd (n : Z) : Spider → Spider := with_pending (λ c, c + n).
Definition pendingDone : Spider → Spider := with_pending (λ c, c - 1).

(** [flattenIPs]: concatenation without duplicates, first occurrences kept
    in order. *)
Definition appendNew (result : list string) (ip : string) : list string :=
  if existsb (String.eqb ip) result then result else result ++ [ip].

Definition flattenIPs (ipLists : list (list string)) : list string :=
  fold_left (λ result ipList, fold_left appendNew ipList result) ipLists [].

(** ** The handlers of spider.go *)

Section SpiderModel.

(** Declared elsewhere in the package: the two static blacklists and the
    test for disallowed addresses.  [ParseIP h] tells whether
    [net.ParseIP(h)] is not nil. *)
Variable BlacklistedHosts : gset string.
Variable blacklistedQueryHosts : list string.
Variable IPDisallowed : string → bool.
Variable ParseIP : string → bool.

(** The distance [considerHost] works out for a request: one more than
    the origin's when the origin has one, the request's own otherwise. *)
Definition requestDistance (s : Spider) (request : HostsRequest) : Z :=
  let dist :=
    if bool_decide (origin request ≠ "") then
      match distances s !! origin request with
      | Some d => wrap (d + 1)
      | None => -1
      end
    else -1 in
  if dist <? 0 then distance request else dist.

(** The [if ... else if ...] chain of [considerHost] that sets [skip]. *)
Definition skipHost (s : Spider) (hostname : string) : bool :=
  if bool_decide (is_Some (considering s !! hostname)) then true
  else if bool_decide (hostname ∈ BlacklistedHosts) then true
  else if bool_decide (is_Some (badDNS s !! hostname)) then true
  else if bool_decide (is_Some (knownHosts s !! hostname)) then true
  else if ParseIP hostname then true
  else if negb (strContains hostname ".") then true
  else if strContains hostname "pool." then true
  else if strHasSuffix hostname ".local" then true
  else existsb (λ hn, bool_decide (hn = hostname)) blacklistedQueryHosts.

(** The rejection policy in the words of the specification, to be
    compared with [skipHost]. *)
Definition policyRejects (s : Spider) (hostname : string) : Prop :=
  (is_Some (considering s !! hostname)
   ∨ is_Some (badDNS s !! hostname)
   ∨ is_Some (knownHosts s !! hostname))
  ∨ hostname ∈ BlacklistedHosts
  ∨ ParseIP hostname = true
  ∨ strContains hostname "." = false
  ∨ strContains hostname "pool." = true
  ∨ strHasSuffix hostname ".local" = true
  ∨ hostname ∈ blacklistedQueryHosts.

Definition considerHost (hostname : string) (request : HostsRequest)
    (s : Spider) : Spider * list Effect :=
  let dist := requestDistance s request in
  let s1 :=
    match distances s !! hostname with
    | Some olddistance =>
        if olddistance >? dist
        then with_distances (<[hostname := dist]>) s
        else s
    | None => s
    end in
  if skipHost s1 hostname then
    (pendingDone (with_pendingHosts (bump hostname (-1)) s1), [])
  else
    (with_distances (<[hostname := dist]>)
       (with_considering (<[hostname := true]>) s1),
     [SpawnDns hostname]).

(** The branch of [processDnsResult] taken when a returned address is
    already known under [canonical]. *)
Definition dnsAlias (hostname canonical : string) (ipList : list string)
    (s : Spider) : Spider :=
  let s1 := with_knownHosts (<[hostname := canonical]>) s in
  let s2 := with_knownIPs
              (λ m, fold_left (λ m ip2, <[ip2 := canonical]> m) ipList m) s1 in
  with_ipsForHost
    (λ m, <[canonical := flattenIPs [getL m canonical; ipList]]> m) s2.

(** The first loop of [processDnsResult] over [rest], a suffix of
    [ipList].  [Some s'] is the state at a [return] inside the loop,
    [None] says the loop ran to its end. *)
Fixpoint dnsScan (hostname : string) (ipList rest : list string)
    (s : Spider) : option Spider :=
  match rest with
  | [] => None
  | ip :: rest' =>
      if IPDisallowed ip then
        Some (with_badDNS (<[hostname := true]>) s)
      else
        match knownIPs s !! ip with
        | None => dnsScan hostname ipList rest' s
        | Some canonical => Some (dnsAlias hostname canonical ipList s)
        end
  end.

(** One round of the second loop of [processDnsResult]. *)
Definition dnsFreshIP (hostname : string) (acc : Spider * list Effect)
    (ip : string) : Spider * list Effect :=
  let s1 := with_knownIPs (<[ip := hostname]>) acc.1 in
  match countriesForIPs s1 !! ip with
  | Some _ => (s1, acc.2)
  | None =>
      (pendingAdd 1
         (with_pendingCountries (bump ip 1)
            (with_countriesForIPs (<[ip := ""]>) s1)),
       acc.2 ++ [SpawnCountry ip])
  end.

(** The part of [processDnsResult] after the first loop: a new host. *)
Definition dnsFresh (hostname : string) (ipList : list string)
    (s : Spider) : Spider * list Effect :=
  let s1 := with_knownHosts (<[hostname := hostname]>) s in
  let s2 := with_aliasesForHost (<[hostname := [hostname]]>) s1 in
  let s3 := with_ipsForHost (<[hostname := ipList]>) s2 in
  let '(s4, spawned) := fold_left (dnsFreshIP hostname) ipList (s3, []) in
  let s5 := with_serverInfos (<[hostname := None]>) s4 in
  let s6 := with_pendingHosts (bump hostname 1) (pendingAdd 1 s5) in
  (s6, spawned ++ [SpawnQueryHost hostname]).

Definition processDnsResult (dns : DnsResult) (s : Spider)
    : Spider * list Effect :=
  let hostname := dns_hostname dns in
  match dns_err dns with
  | Some _ => (with_badDNS (<[hostname := true]>) s, [])
  | None =>
      let ipList := flattenIPs [dns_ipList dns] in
      match dnsScan hostname ipList ipList s with
      | Some s' => (s', [])
      | None => dnsFresh hostname ipList s
      end
  end.

(** [BatchAddHost], as the owner calls it from [processHostResult]. *)
Definition BatchAddHost (origin : string) (hostlist : list string)
    (s : Spider) : Spider * list Effect :=
  let s1 := pendingAdd (Z.of_nat (length hostlist)) s in
  let s2 := with_pendingHosts
              (λ m, fold_left (λ m h, bump h 1 m) hostlist m) s1 in
  (s2, [SendBatch {| hostnames := hostlist; distance := 0; origin := origin |}]).

(** The block of [processHostResult] run when the node names itself
    [canonical], different from the name it was queried under. *)
Definition renameHost (hostname canonical : string) (s : Spider) : Spider :=
  let s1 := with_serverInfos (delete hostname) s in
  let s2 :=
    match knownHosts s1 !! canonical with
    | Some _ => s1
    | None => with_knownHosts (<[canonical := canonical]>) s1
    end in
  let s3 := with_knownHosts
              (λ m, fold_left (λ m alias, <[alias := canonical]> m)
                      (getL (aliasesForHost s2) hostname) m) s2 in
  let s4 := with_aliasesForHost
              (λ m, <[canonical := getL m hostname ++ [canonical]]> m) s3 in
  let s5 := with_knownIPs
              (λ m, fold_left (λ m ip, <[ip := canonical]> m)
                      (getL (ipsForHost s4) hostname) m) s4 in
  let s6 :=
    match ipsForHost s5 !! canonical with
    | None =>
        with_ipsForHost
          (λ m, delete hostname (<[canonical := getL m hostname]> m)) s5
    | Some _ =>
        with_ipsForHost
          (λ m, <[canonical := flattenIPs [getL m canonical; getL m hostname]]> m)
          s5
    end in
  let s7 := with_aliasesForHost (delete hostname) s6 in
  match distances s7 !! canonical with
  | Some old =>
      if old <? getZ (distances s7) hostname
      then with_distances (λ m, <[canonical := getZ m hostname]> m) s7
      else s7
  | None => with_distances (λ m, <[canonical := getZ m hostname]> m) s7
  end.

(** The first half of [processHostResult]: the canonical name of the
    node, and the state after the renaming block when that name is not
    the queried one. *)
Definition hostCanonical (hostname : string) (node : SksNode) (s : Spider)
    : string * Spider :=
  match Settings node !! "Hostname" with
  | Some own_hostname =>
      if bool_decide (own_hostname ≠ hostname)
      then (own_hostname, renameHost hostname own_hostname s)
      else (hostname, s)
  | None => (hostname, s)
  end.

(** The [Nodename] block of [processHostResult]; [own_hostname] is the
    empty string when the node has no ["Hostname"] setting. *)
Definition hostNodename (node : SksNode) (canonical : string) (s : Spider)
    : Spider :=
  let own_hostname := default "" (Settings node !! "Hostname") in
  match Settings node !! "Nodename" with
  | Some own_nodename =>
      if bool_decide (own_nodename ≠ canonical)
         && bool_decide (own_nodename ≠ own_hostname)
      then
        match knownHosts s !! own_nodename with
        | Some _ => s
        | None => with_knownHosts (<[own_nodename := canonical]>) s
        end
      else s
  | None => s
  end.

(** [processHostResult].  [None] is the nil dereference of a result that
    has neither an error nor a node. *)
Definition processHostResult (hr : HostResult) (s : Spider)
    : option (Spider * list Effect) :=
  let hostname := hr_hostname hr in
  match hr_err hr with
  | Some err => Some (with_queryErrors (<[hostname := err]>) s, [])
  | None =>
      match hr_node hr with
      | None => None
      | Some node =>
          let cs := hostCanonical hostname node s in
          let canonical := cs.1 in
          let s2 := hostNodename node canonical cs.2 in
          let s3 := with_serverInfos (<[canonical := Some node]>) s2 in
          Some (BatchAddHost canonical (GossipPeerList node) s3)
      end
  end.

Definition processCountryResult (cr : CountryResult) (s : Spider) : Spider :=
  match cr_err cr with
  | None => with_countriesForIPs (<[cr_ip cr := cr_country cr]>) s
  | Some _ => s
  end.

(** ** The event loop *)

(** What the owner can receive.  The diagnostic dump channel, whose
    handler only prints the maps, is left out. *)
Inductive Msg :=
| BatchAddHostMsg (hostreq : HostsRequest)
| DnsResultMsg (dnsResult : DnsResult)
| HostResultMsg (hostResult : HostResult)
| CountryResultMsg (countryResult : CountryResult)
| TerminateMsg.

(** How the chosen case of the [select] statement completes: by reaching
    its end or by a [break]. *)
Inductive Completion := Normal | Break.

(** The [for _, hostname := range hostreq.hostnames] loop. *)
Definition considerAll (hostreq : HostsRequest) (s : Spider)
    : Spider * list Effect :=
  fold_left
    (λ acc hostname,
       let '(s', eff) := considerHost hostname hostreq acc.1 in
       (s', acc.2 ++ eff))
    (hostnames hostreq) (s, []).

(** The [select] statement of [spiderMainLoop] for one received message. *)
Definition selectCase (m : Msg) (s : Spider)
    : option (Spider * list Effect * Completion) :=
  match m with
  | BatchAddHostMsg hostreq =>
      let '(s', eff) := considerAll hostreq s in Some (s', eff, Normal)
  | DnsResultMsg dnsResult =>
      let '(s', eff) := processDnsResult dnsResult s in
      Some (pendingDone
              (with_pendingHosts (bump (dns_hostname dnsResult) (-1)) s'),
            eff, Normal)
  | HostResultMsg hostResult =>
      match processHostResult hostResult s with
      | None => None
      | Some (s', eff) =>
          Some (pendingDone
                  (with_pendingHosts (bump (hr_hostname hostResult) (-1)) s'),
                eff, Normal)
      end
  | CountryResultMsg countryResult =>
      let s' := processCountryResult countryResult s in
      Some (pendingDone
              (with_pendingCountries (bump (cr_ip countryResult) (-1)) s'),
            [], Normal)
  | TerminateMsg => Some (s, [], Break)
  end.

(** [for { select { ... } }] run on the messages received, in order.  A
    [break] inside a [select] case ends the [select] statement, so the
    [for] statement goes on to its next round after either completion;
    nothing in the body leaves the loop.  [None] is a panic. *)
Fixpoint spiderMainLoop (msgs : list Msg) (s : Spider)
    : option (Spider * list Effect) :=
  match msgs with
  | [] => Some (s, [])
  | m :: msgs' =>
      match selectCase m s with
      | None => None
      | Some (s', eff, Normal) | Some (s', eff, Break) =>
          match spiderMainLoop msgs' s' with
          | None => None
          | Some (s'', eff') => Some (s'', eff ++ eff')
          end
      end
  end.

End SpiderModel.

(** The hostnames whose DNS lookup a list of effects starts, in order. *)
Definition dnsSpawns (eff : list Effect) : list string :=
  omap (λ e, match e with SpawnDns h => Some h | _ => None end) eff.

(** From [s0] to [s] with effects [eff]: [considering] only grew, and the
    lookups started are for distinct hostnames that were not in
    [considering] before and are in it now. *)
Definition extends (s0 s : Spider) (eff : list Effect) : Prop :=
  (∀ h, is_Some (considering s0 !! h) → is_Some (considering s !! h))
  ∧ NoDup (dnsSpawns eff)
  ∧ ∀ h, h ∈ dnsSpawns eff →
      considering s0 !! h = None ∧ is_Some (considering s !! h).

(** ** A sample configuration, for running the model *)

Definition sampleBlacklistedHosts : gset string := {["keys.blocked.example"]}.

Definition sampleQueryBlacklist : list string := ["keyserver.pgp.example"].

Definition sampleIPDisallowed (ip : string) : bool :=
  String.prefix "127." ip || String.prefix "10." ip
  || String.prefix "192.168." ip || String.eqb ip "::1".

(** Dotted decimal literals only, enough to tell names from addresses in
    the samples. *)
Definition sampleParseIP (h : string) : bool :=
  negb (String.eqb h "")
  && forallb (λ c, let n := Ascii.nat_of_ascii c in
                   (n =? 46)%nat || ((48 <=? n)%nat && (n <=? 57)%nat))
       (String.list_ascii_of_string h).

Definition sampleLoop : list Msg → Spider → option (Spider * list Effect) :=
  spiderMainLoop sampleBlacklistedHosts sampleQueryBlacklist
    sampleIPDisallowed sampleParseIP.

(** The result of the sample loop on [msgs] from [StartSpider]; the start
    state again if the loop panics. *)
Definition sampleRun (msgs : list Msg) : Spider * list Effect :=
  default (StartSpider, []) (sampleLoop msgs StartSpider).

Definition seed (names : list string) : Msg :=
  BatchAddHostMsg {| hostnames := names; distance := 0; origin := "" |}.

Definition resolved (name : string) (ips : list string) : Msg :=
  DnsResultMsg {| dns_hostname := name; dns_ipList := ips; dns_err := None |}.

(** A lookup that fails. *)
Definition failedLookupTrace : list Msg :=
  [ seed ["keys.a.example"];
    DnsResultMsg {| dns_hostname := "keys.a.example"; dns_ipList := [];
                    dns_err := Some "no such host" |} ].

(** Two seeds that resolve to the same address. *)
Definition sharedAddressTrace : list Msg :=
  [ seed ["keys.a.example"; "keys.b.example"];
    resolved "keys.a.example" ["192.0.2.1"];
    resolved "keys.b.example" ["192.0.2.1"] ].

(** A second name that resolves to a known address followed by a loopback
    address. *)
Definition knownThenLoopbackTrace : list Msg :=
  [ seed ["keys.a.example"; "keys.b.example"];
    resolved "keys.a.example" ["192.0.2.1"];
    resolved "keys.b.example" ["192.0.2.1"; "127.0.0.1"] ].

(** A seed sent after the terminate signal. *)
Definition afterTerminateTrace : list Msg :=
  [ TerminateMsg; seed ["keys.a.example"] ].

(** A state in which the queried name and the name the node gives itself
    both have a distance. *)
Definition twoDistances : Spider :=
  with_distances (λ _, <["keys.a.example" := 4]> (<["keys.b.example" := 1]> ∅))
    StartSpider.

Definition renamingNode : SksNode :=
  {| Hostname := "keys.a.example";
     Settings := <["Hostname" := "keys.b.example"]> ∅;
     GossipPeerList := []; Version := "1.1.4"; Keycount := 5000;
     ServerHeader := "sks_www/1.1.4"; ViaHeader := ""; IpList := [] |}.

Definition renamingResult : HostResult :=
  {| hr_hostname := "keys.a.example"; hr_node := Some renamingNode;
     hr_err := None |}.

(** A node that names itself by a hostname already known as an alias of
    another host. *)
Definition aliasNamedNode : SksNode :=
  {| Hostname := "keys.c.example";
     Settings := <["Hostname" := "keys.b.example"]> ∅;
     GossipPeerList := []; Version := "1.1.4"; Keycount := 5000;
     ServerHeader := "sks_www/1.1.4"; ViaHeader := ""; IpList := [] |}.

Definition renamedToAliasTrace : list Msg :=
  [ seed ["keys.a.example"; "keys.b.example"; "keys.c.example"];
    resolved "keys.a.example" ["192.0.2.1"];
    resolved "keys.b.example" ["192.0.2.1"];
    resolved "keys.c.example" ["192.0.2.3"];
    HostResultMsg {| hr_hostname := "keys.c.example";
                     hr_node := Some aliasNamedNode; hr_err := None |} ].

(** ** float64 arithmetic

    A [float64] that is a number is kept as the rational it stands for, in
    lowest terms.  Every operation computes the exact result and rounds it
    to 53 significant bits, ties to even, as IEEE 754 binary64 does.  The
    exponent range is not modelled: the selector works on sums, quotients,
    squares and roots of 64-bit integers, far inside it.  The only special
    value the selector can produce is the NaN of [0/0]. *)

Inductive float64 := NaN | Fin (q : Q).

(** [m * 2^e] *)
Definition scaleZ (m e : Z) : Q :=
  if 0 <=? e then inject_Z (m * 2 ^ e) else Qmake m (Z.to_pos (2 ^ (- e))).

(** Round up or down from the integer part [m], given how the fraction
    compares with one half. *)
Definition nearestEven (m : Z) (c : comparison) : Z :=
  match c with
  | Lt => m
  | Gt => m + 1
  | Eq => if Z.even m then m else m + 1
  end.

(** [(n/d) / 2^e] as a fraction of integers. *)
Definition scaled (n d : positive) (e : Z) : Z * Z :=
  if 0 <=? e then (Zpos n, Zpos d * 2 ^ e) else (Zpos n * 2 ^ (- e), Zpos d).

(** [n/d] rounded to a multiple of [2^e]. *)
Definition roundAt (n d : positive) (e : Z) : Q :=
  let '(a, b) := scaled n d e in
  Qred (scaleZ (nearestEven (a / b) (2 * (a mod b) ?= b)) e).

(** [n/d] rounded to 53 bits: [e] is chosen so that
    [2^52 <= (n/d) / 2^e < 2^53]. *)
Definition roundPos (n d : positive) : Q :=
  let e0 := Z.log2 (Zpos n) - Z.log2 (Zpos d) - 53 in
  roundAt n d
    (if 2 ^ 53 * (scaled n d e0).2 <=? (scaled n d e0).1 then e0 + 1 else e0).

Definition round64 (q : Q) : Q :=
  let q' := Qred q in
  match Qnum q' with
  | Z0 => 0%Q
  | Zpos n => roundPos n (Qden q')
  | Zneg n => Qred (Qopp (roundPos n (Qden q')))
  end.

(** The square root of [n/d] rounded: [e] is chosen so that
    [2^52 <= sqrt (n/d) / 2^e < 2^53]. *)
Definition roundSqrtPos (n d : positive) : Q :=
  let L := Z.log2 (Zpos n) - Z.log2 (Zpos d) in
  let above := if 0 <=? L then Zpos d * 2 ^ L <=? Zpos n
               else Zpos d <=? Zpos n * 2 ^ (- L) in
  let fl := if above then L else L - 1 in
  let e := (fl - 104) / 2 in
  let '(a, b) := if 0 <=? e then (Zpos n, Zpos d * 4 ^ e)
                 else (Zpos n * 4 ^ (- e), Zpos d) in
  let m := Z.sqrt (a / b) in
  Qred (scaleZ (nearestEven m (4 * a ?= (2 * m + 1) ^ 2 * b)) e).

(** [float64(z)] *)
Definition of_int (z : Z) : float64 := Fin (round64 (inject_Z z)).

Definition fadd (x y : float64) : float64 :=
  match x, y with Fin a, Fin b => Fin (round64 (a + b)) | _, _ => NaN end.

Definition fsub (x y : float64) : float64 :=
  match x, y with Fin a, Fin b => Fin (round64 (a - b)) | _, _ => NaN end.

Definition fmul (x y : float64) : float64 :=
  match x, y with Fin a, Fin b => Fin (round64 (a * b)) | _, _ => NaN end.

(** Division.  The selector divides by the length of the list it has just
    summed, so a zero divisor comes with a zero dividend; the infinities of
    other divisions by zero are not modelled. *)
Definition fdiv (x y : float64) : float64 :=
  match x, y with
  | Fin a, Fin b => if Qeq_bool b 0 then NaN else Fin (round64 (a / b))
  | _, _ => NaN
  end.

(** [math.Sqrt] *)
Definition fsqrt (x : float64) : float64 :=
  match x with
  | Fin a =>
      match Qnum (Qred a) with
      | Z0 => Fin 0
      | Zpos n => Fin (roundSqrtPos n (Qden (Qred a)))
      | Zneg _ => NaN
      end
  | NaN => NaN
  end.

(** [x < y]; false when either is NaN. *)
Definition flt (x y : float64) : bool :=
  match x, y with
  | Fin a, Fin b => match Qcompare a b with Lt => true | _ => false end
  | _, _ => false
  end.

(** [int(x)]: the fraction is dropped.  For NaN and for values outside the
    range of [int] the amd64 conversion gives the least [int]. *)
Definition to_int (x : float64) : Z :=
  match x with
  | Fin a =>
      let t := Z.quot (Qnum a) (Zpos (Qden a)) in
      if (- 2 ^ 63 <=? t) && (t <? 2 ^ 63) then t else - 2 ^ 63
  | NaN => - 2 ^ 63
  end.

(** *** The kernel's binary64, to compare the model with *)

(** The number a primitive float stands for; [None] for NaN and the
    infinities. *)
Definition kernelValue (f : PrimFloat.float) : option Q :=
  match FloatOps.Prim2SF f with
  | SpecFloat.S754_zero _ => Some 0%Q
  | SpecFloat.S754_finite sign m e =>
      Some (Qred (scaleZ (if sign then Zneg m else Zpos m) e))
  | _ => None
  end.

Definition kernelOfInt (z : Z) : PrimFloat.float :=
  FloatOps.SF2Prim
    (SpecFloat.binary_normalize FloatOps.prec FloatOps.emax z 0 false).

Definition sameValue (x : float64) (f : PrimFloat.float) : bool :=
  match x, kernelValue f with
  | Fin a, Some b => Z.eqb (Qnum a) (Qnum b) && Pos.eqb (Qden a) (Qden b)
  | NaN, None => true
  | _, _ => false
  end.

(** The operations of the model against those of the kernel on the
    quotient, the root, a product, a sum and a difference made from [a]
    and [b]. *)
Definition agreesOn (ab : Z * Z) : bool :=
  let '(a, b) := ab in
  let x := of_int a in
  let y := of_int b in
  let x' := kernelOfInt a in
  let y' := kernelOfInt b in
  sameValue x x'
  && sameValue (fdiv x y) (PrimFloat.div x' y')
  && sameValue (fsqrt (fdiv x y)) (PrimFloat.sqrt (PrimFloat.div x' y'))
  && sameValue (fmul (fdiv x y) (fsqrt y))
               (PrimFloat.mul (PrimFloat.div x' y') (PrimFloat.sqrt y'))
  && sameValue (fadd (fdiv x y) (fsqrt x))
               (PrimFloat.add (PrimFloat.div x' y') (PrimFloat.sqrt x'))
  && sameValue (fsub (fsqrt x) (fdiv y x))
               (PrimFloat.sub (PrimFloat.sqrt x') (PrimFloat.div y' x'))
  && sameValue (fdiv (fsub x x) (fsub y y))
               (PrimFloat.div (PrimFloat.sub x' x') (PrimFloat.sub y' y')).

Definition comparedPairs : list (Z * Z) :=
  [ (1, 3); (2, 3); (5000, 7); (2999, 2); (123456789, 987654321);
    (9007199254740993, 3); (1, 9007199254740993); (4, 1); (9, 16);
    (10, 1000003); (18014398509481985, 7); (3, 4503599627370497);
    (36028797018963969, 1); (999999999999999999, 1000000000000000001);
    (9223372036854775807, 9223372036854775806) ].

(** ** Data of http_ip_valid.go *)

(** What [GetCurrentPersisted] returns, as far as the page reads it. *)
Record PersistedHostInfo := {
  HostMap : gmap string SksNode;
  Sorted : list string;
  IPCountryMap : gmap string string;
}.

(** The form parameters the selection reads.  [form_threshold] is what
    [strconv.Atoi] makes of the first value of [threshold], when the
    parameter is there and is a number. *)
Record Query := {
  form_proxies : bool;
  form_countries : option string;
  form_minimum_version : string;
  form_threshold : option Z;
}.

(** The reasons given to [abortMessage]. *)
Inductive Reason :=
| first_scan
| broken_no_buckets
| broken_data
| threshold_too_high
| no_servers_left_after_1010_filter
| no_servers_left_after_minimum_version_filter
| no_servers_left_after_country_filter
| no_servers_left_after_proxies_filter.

(** What the page answers: a run-time panic, an INVALID status, or the
    addresses with the threshold reported as [minimum].  The statistics
    lines and the rendering as text or JSON are left out. *)
Inductive Outcome :=
| Panic
| Invalid (reason : Reason)
| Valid (ips : list string) (threshold : Z).

(** The maps and sets filled by the first loop, over [persisted.Sorted]. *)
Record Pass := {
  ips_one_per_server : gmap string Z;
  ips_all : gmap string Z;
  ips_skip_1010 : gset string;
  ips_too_old : gset string;
  ips_unwanted_server : gset string;
  ips_wrong_country : gset string;
}.

Definition emptyPass : Pass :=
  {| ips_one_per_server := ∅; ips_all := ∅; ips_skip_1010 := ∅;
     ips_too_old := ∅; ips_unwanted_server := ∅; ips_wrong_country := ∅ |}.

(** [strings.ToLower(strings.SplitN(header, "/", 2)[0])] for a header
    whose bytes are all below 128: the part before the first slash, with
    the letters A to Z lowered and every other byte kept.  On other
    headers [strings.ToLower] also lowers letters outside ASCII, the
    Kelvin sign to k for one, which this does not follow. *)
Fixpoint serverToken (header : string) : string :=
  match header with
  | EmptyString => EmptyString
  | String c rest =>
      let n := Ascii.nat_of_ascii c in
      if (n =? 47)%nat then EmptyString
      else String (if (65 <=? n)%nat && (n <=? 90)%nat
                   then Ascii.ascii_of_nat (n + 32) else c)
                  (serverToken rest)
  end.

(** [sort.Ints] *)
Definition sortInts (l : list Z) : list Z := merge_sort Z.le l.

(** [first_sum += v] over a slice. *)
Definition sumInts (l : list Z) : Z := fold_left (λ a v, wrap (a + v)) l 0.

(** The sum of the squared distances to [mean], as the two loops that
    compute a standard deviation accumulate it. *)
Definition sumSquares (mean : float64) (l : list Z) : float64 :=
  fold_left (λ acc v, let d := fsub (of_int v) mean in fadd acc (fmul d d))
            l (of_int 0).

(** [filterOut]: the candidates that the set does not hold, in order. *)
Definition filterOut (eliminate : gset string) (candidates : list string)
    : list string :=
  filter (λ ip, ip ∉ eliminate) candidates.

Section SelectorModel.

(** Constants, flags and helpers declared elsewhere in the package. *)
Variable kBUCKET_SIZE : Z.
Variable flKeysSanityMin : Z.
Variable flKeysDailyJitter : Z.
Variable SksVersion : Type.
Variable NewSksVersion : string → option SksVersion.
Variable IsAtLeast : SksVersion → SksVersion → bool.
Variable serverHeadersNative : gset string.
Variable CountrySet : Type.
Variable NewCountrySet : string → CountrySet.
Variable HasCountry : CountrySet → string → bool.

(** The order in which a [range] over a map yields its entries is not
    fixed by the language.  [shuffle i] is the order taken by the [i]-th
    such loop of the page, given the entries in the order of the model's
    own listing of the map. *)
Variable shuffle : nat → ∀ A : Type, list A → list A.

Definition rangeMap `{Countable K} {V : Type} (site : nat) (m : gmap K V)
    : list (K * V) :=
  shuffle site (K * V) (map_to_list m).

(** The body of the inner loop over [node.IpList]. *)
Definition passIP (keycount : Z)
    (skip_this_1010 skip_this_age skip_this_nonproxy skip_this_country : bool)
    (acc : Pass) (ip : string) : Pass :=
  {| ips_one_per_server := ips_one_per_server acc;
     ips_all := <[ip := keycount]> (ips_all acc);
     ips_skip_1010 :=
       if skip_this_1010 then {[ip]} ∪ ips_skip_1010 acc else ips_skip_1010 acc;
     ips_too_old :=
       if skip_this_age then {[ip]} ∪ ips_too_old acc else ips_too_old acc;
     ips_unwanted_server :=
       if skip_this_nonproxy then {[ip]} ∪ ips_unwanted_server acc
       else ips_unwanted_server acc;
     ips_wrong_country :=
       if skip_this_country then {[ip]} ∪ ips_wrong_country acc
       else ips_wrong_country acc |}.

(** The body of the loop over [persisted.Sorted] for one node. *)
Definition passNode (minimumVersion : option SksVersion) (limitToProxies : bool)
    (limitToCountries : option CountrySet) (persisted : PersistedHostInfo)
    (node : SksNode) (acc : Pass) : Pass :=
  if Keycount node <=? 1 then acc
  else
    let skip_this_1010 := String.eqb (Version node) "1.0.10" in
    let skip_this_age :=
      match minimumVersion with
      | None => false
      | Some mv =>
          match NewSksVersion (Version node) with
          | None => true
          | Some thisVersion => negb (IsAtLeast thisVersion mv)
          end
      end in
    let skip_this_nonproxy :=
      limitToProxies && String.eqb (ViaHeader node) ""
      && bool_decide (serverToken (ServerHeader node) ∈ serverHeadersNative) in
    let skip_this_country :=
      match limitToCountries with
      | None => false
      | Some countries =>
          negb (existsb
                  (λ ip, match IPCountryMap persisted !! ip with
                         | Some geo => HasCountry countries geo
                         | None => false
                         end)
                  (IpList node))
      end in
    match IpList node with
    | [] => acc
    | first :: _ =>
        fold_left
          (passIP (Keycount node) skip_this_1010 skip_this_age
                  skip_this_nonproxy skip_this_country)
          (IpList node)
          {| ips_one_per_server := <[first := Keycount node]> (ips_one_per_server acc);
             ips_all := ips_all acc;
             ips_skip_1010 := ips_skip_1010 acc;
             ips_too_old := ips_too_old acc;
             ips_unwanted_server := ips_unwanted_server acc;
             ips_wrong_country := ips_wrong_country acc |}
    end.

(** The loop over [persisted.Sorted]; [None] is the nil dereference for a
    name that [HostMap] does not hold. *)
Fixpoint passAll (minimumVersion : option SksVersion) (limitToProxies : bool)
    (limitToCountries : option CountrySet) (persisted : PersistedHostInfo)
    (names : list string) (acc : Pass) : option Pass :=
  match names with
  | [] => Some acc
  | name :: names' =>
      match HostMap persisted !! name with
      | None => None
      | Some node =>
          passAll minimumVersion limitToProxies limitToCountries persisted names'
            (passNode minimumVersion limitToProxies limitToCountries
                      persisted node acc)
      end
  end.

(** The loop that fills [buckets] from the counts, in the order given. *)
Definition fillBuckets (counts : list Z) : gmap Z (list Z) :=
  fold_left
    (λ buckets count,
       let bucket := Z.quot count kBUCKET_SIZE in
       <[bucket := default [] (buckets !! bucket) ++ [count]]> buckets)
    counts ∅.

(** The loop that looks for the largest bucket over the keys in the order
    given: [(largest_bucket, largest_bucket_len)]. *)
Definition pickLargest (buckets : gmap Z (list Z)) (keys : list Z) : Z * nat :=
  fold_left
    (λ best k,
       let n := length (default [] (buckets !! k)) in
       if (best.2 <? n)%nat then (k, n) else best)
    keys (0, 0%nat).

(** [first_mean], [first_sd] of the largest bucket. *)
Definition firstStats (bucket : list Z) : float64 * float64 :=
  let first_n := of_int (Z.of_nat (length bucket)) in
  let first_mean := fdiv (of_int (sumInts bucket)) first_n in
  (first_mean, fsqrt (fdiv (sumSquares first_mean bucket) first_n)).

(** [(first_bounds_min, first_bounds_max)] *)
Definition firstBounds (bucket : list Z) : Z * Z :=
  let '(first_mean, first_sd) := firstStats bucket in
  (to_int (fsub first_mean (fmul (of_int 5) first_sd)),
   to_int (fadd first_mean (fmul (of_int 5) first_sd))).

Definition withinBounds (bounds : Z * Z) (ips_all : gmap string Z) (ip : string) : bool :=
  (bounds.1 <=? getZ ips_all ip) && (getZ ips_all ip <=? bounds.2).

(** The keys of [m], in the order of the [site]-th loop, whose count in
    [ips_all] is within the bounds. *)
Definition boundedKeys (site : nat) (bounds : Z * Z) (ips_all m : gmap string Z)
    : list string :=
  filter (λ ip, withinBounds bounds ips_all ip = true) (rangeMap site m).*1.

(** [m[ip] = ips_all[ip]] for the addresses of the list. *)
Definition countsOf (ips_all : gmap string Z) (ips : list string) : gmap string Z :=
  fold_left (λ m ip, <[ip := getZ ips_all ip]> m) ips ∅.

(** [buckets], filled in the order of the first loop over
    [ips_one_per_server]. *)
Definition bucketsOf (one : gmap string Z) : gmap Z (list Z) :=
  fillBuckets (rangeMap 0 one).*2.

(** [largest_bucket] *)
Definition largestBucket (buckets : gmap Z (list Z)) : Z :=
  (pickLargest buckets (rangeMap 1 buckets).*1).1.

(** The first bounds, those of the largest bucket. *)
Definition boundsOf (one : gmap string Z) : Z * Z :=
  let buckets := bucketsOf one in
  firstBounds (default [] (buckets !! largestBucket buckets)).

(** [first_ips_list] and [first_ips] *)
Definition firstIpsList (one all : gmap string Z) : list string :=
  boundedKeys 2 (boundsOf one) all one.

Definition firstIps (one all : gmap string Z) : gmap string Z :=
  countsOf all (firstIpsList one all).

(** [first_ips_all], built from [first_ips_alllist]. *)
Definition firstIpsAll (one all : gmap string Z) : gmap string Z :=
  countsOf all (boundedKeys 3 (boundsOf one) all all).

(** [second_mean] and [second_sd] *)
Definition secondStats (one all : gmap string Z) : float64 * float64 :=
  let first_ips_list := firstIpsList one all in
  let second_sum :=
    fold_left (λ acc ip, fadd acc (of_int (getZ all ip))) first_ips_list (of_int 0) in
  let n := of_int (Z.of_nat (length first_ips_list)) in
  let second_mean := fdiv second_sum n in
  (second_mean,
   fsqrt (fdiv (sumSquares second_mean (rangeMap 4 (firstIps one all)).*2) n)).

(** Everything from the buckets to the threshold computed from the data:
    [inl] is an abort or a panic, [inr] the threshold. *)
Definition computeThreshold (one all : gmap string Z) : Outcome + Z :=
  if bool_decide (bucketsOf one = ∅) then inl (Invalid broken_no_buckets)
  else
    let '(second_mean, second_sd) := secondStats one all in
    if flt second_mean (of_int flKeysSanityMin) then inl (Invalid broken_data)
    else
      let first_ips := firstIps one all in
      let threshold_base_index := Z.to_nat (Z.max 0 (Z.of_nat (size first_ips) - 2)) in
      let threshold_candidates := sortInts (rangeMap 5 first_ips).*2 in
      match threshold_candidates !! threshold_base_index with
      | None => inl Panic
      | Some base =>
          inr (wrap (base - wrap (flKeysDailyJitter + to_int second_sd)))
      end.

(** [minimumVersion], nil unless the form gives a version that parses. *)
Definition minimumVersionOf (form : Query) : option SksVersion :=
  if bool_decide (form_minimum_version form ≠ "")
  then NewSksVersion (form_minimum_version form) else None.

(** The first loop for a form. *)
Definition firstLoop (persisted : PersistedHostInfo) (form : Query) : option Pass :=
  passAll (minimumVersionOf form) (form_proxies form)
          (NewCountrySet <$> form_countries form)
          persisted (Sorted persisted) emptyPass.

(** [apiIpValidPage], from the snapshot and the form to what is answered. *)
Definition apiIpValidPage (persisted : option PersistedHostInfo) (form : Query)
    : Outcome :=
  match persisted with
  | None => Invalid first_scan
  | Some persisted =>
      match firstLoop persisted form with
      | None => Panic
      | Some pass =>
          match computeThreshold (ips_one_per_server pass) (ips_all pass) with
          | inl out => out
          | inr computed =>
              let first_ips_all :=
                firstIpsAll (ips_one_per_server pass) (ips_all pass) in
              let threshold :=
                match form_threshold form with
                | Some i => if 0 <? i then i else computed
                | None => computed
                end in
              let ips :=
                (filter (λ e, threshold <= e.2) (rangeMap 6 first_ips_all)).*1 in
              if bool_decide (ips = []) then Invalid threshold_too_high
              else
                let ips1 := filterOut (ips_skip_1010 pass) ips in
                if bool_decide (ips1 = []) then Invalid no_servers_left_after_1010_filter
                else
                  let ips2 := match minimumVersionOf form with
                              | Some _ => filterOut (ips_too_old pass) ips1
                              | None => ips1
                              end in
                  if bool_decide (ips2 = [])
                  then Invalid no_servers_left_after_minimum_version_filter
                  else
                    let ips3 := match form_countries form with
                                | Some _ => filterOut (ips_wrong_country pass) ips2
                                | None => ips2
                                end in
                    if bool_decide (ips3 = [])
                    then Invalid no_servers_left_after_country_filter
                    else
                      let ips4 := if form_proxies form
                                  then filterOut (ips_unwanted_server pass) ips3
                                  else ips3 in
                      if bool_decide (ips4 = [])
                      then Invalid no_servers_left_after_proxies_filter
                      else Valid ips4 threshold
          end
      end
  end.

End SelectorModel.

(** [node] is one of the servers named in [names], holds more than one
    key and lists the address [ip]: the servers the first loop counts. *)
Definition servedIn (persisted : PersistedHostInfo) (names : list string)
    (ip : string) (node : SksNode) : Prop :=
  ∃ name, name ∈ names ∧ HostMap persisted !! name = Some node
          ∧ 1 < Keycount node ∧ ip ∈ IpList node.

Definition servedBy (persisted : PersistedHostInfo) (ip : string) (node : SksNode)
    : Prop :=
  servedIn persisted (Sorted persisted) ip node.

(** ** Sample data for the selector *)

(** The two simplest iteration orders. *)
Definition asListed : nat → ∀ A : Type, list A → list A := λ _ _ l, l.
Definition reversed : nat → ∀ A : Type, list A → list A := λ _ _ l, rev l.

(** The page with bucket size 1000, sanity minimum 1000, daily jitter 100,
    versions that always parse and are recent enough, no native server
    header and no country set. *)
Definition samplePage (shuffle : nat → ∀ A : Type, list A → list A)
    : option PersistedHostInfo → Query → Outcome :=
  apiIpValidPage 1000 1000 100 unit (λ _, Some tt) (λ _ _, true) ∅
    unit (λ _, tt) (λ _ _, false) shuffle.

Definition noFilters : Query :=
  {| form_proxies := false; form_countries := None;
     form_minimum_version := ""; form_threshold := None |}.

Definition thresholdOne : Query :=
  {| form_proxies := false; form_countries := None;
     form_minimum_version := ""; form_threshold := Some 1 |}.

Definition server (name version : string) (keycount : Z) (ips : list string)
    : SksNode :=
  {| Hostname := name; Settings := ∅; GossipPeerList := [];
     Version := version; Keycount := keycount;
     ServerHeader := "sks_www/" +:+ version; ViaHeader := ""; IpList := ips |}.

Definition snapshotOf (nodes : list SksNode) : PersistedHostInfo :=
  {| HostMap := list_to_map ((λ n, (Hostname n, n)) <$> nodes);
     Sorted := Hostname <$> nodes;
     IPCountryMap := ∅ |}.

(** Two servers in two buckets of one member each. *)
Definition tiedBuckets : PersistedHostInfo :=
  snapshotOf [ server "a.example" "1.1.4" 5000 ["192.0.2.1"];
               server "b.example" "1.1.4" 9000 ["192.0.2.2"] ].

(** Two servers that put the bounds around a third with a single key. *)
Definition singleKeyInBounds : PersistedHostInfo :=
  snapshotOf [ server "a.example" "1.1.4" 1000 ["192.0.2.1"];
               server "b.example" "1.1.4" 1999 ["192.0.2.2"];
               server "c.example" "1.1.4" 1 ["192.0.2.3"] ].

(** Three servers with 5000 keys, one of them dual-stack and one running
    1.0.10. *)
Definition uniformCluster : PersistedHostInfo :=
  snapshotOf [ server "a.example" "1.1.4" 5000 ["192.0.2.1"; "2001:db8::1"];
               server "b.example" "1.0.10" 5000 ["192.0.2.2"];
               server "c.example" "1.1.4" 5000 ["192.0.2.3"] ].

(** One server whose count is below the sanity minimum of the sample page. *)
Definition belowSanity : PersistedHostInfo :=
  snapshotOf [ server "a.example" "1.1.4" 500 ["192.0.2.1"] ].

(** Counts of three servers: two in bucket 5, one in bucket 9. *)
Definition sampleCounts : gmap string Z :=
  <["192.0.2.1" := 5000]> (<["192.0.2.2" := 5100]> (<["192.0.2.3" := 9000]> ∅)).

(** ** Callers of the spider and the work in flight *)

(** [AddHost], run by a caller: the counters it raises and the request it
    sends to the owner. *)
Definition AddHost (hostname : string) (dist : Z) (s : Spider)
    : Spider * list Effect :=
  (with_pendingHosts (bump hostname 1) (pendingAdd 1 s),
   [SendBatch {| hostnames := [hostname]; distance := dist; origin := "" |}]).

(** The units of work an effect puts in flight: one per worker started,
    one per hostname of a request sent. *)
Definition unitsOf (e : Effect) : Z :=
  match e with
  | SendBatch request => Z.of_nat (length (hostnames request))
  | _ => 1
  end.

Definition started (eff : list Effect) : Z :=
  fold_right (λ e n, unitsOf e + n) 0 eff.

(** The units of work a received message brings to its end. *)
Definition consumed (m : Msg) : Z :=
  match m with
  | BatchAddHostMsg hostreq => Z.of_nat (length (hostnames hostreq))
  | TerminateMsg => 0
  | _ => 1
  end.

Definition consumedAll (msgs : list Msg) : Z :=
  fold_right (λ m n, consumed m + n) 0 msgs.

(** A hostname the state already accounts for. *)
Definition accountedFor (s : Spider) (hostname : string) : Prop :=
  is_Some (considering s !! hostname)
  ∨ is_Some (badDNS s !! hostname)
  ∨ is_Some (knownHosts s !! hostname).

(** The hostnames whose probe a list of effects starts, in order. *)
Definition probes (eff : list Effect) : list string :=
  omap (λ e, match e with SpawnQueryHost h => Some h | _ => None end) eff.

(** Every address of [knownIPs] is recorded under a hostname that
    [knownHosts] has. *)
Definition addressesNamed (s : Spider) : Prop :=
  ∀ ip canonical,
    knownIPs s !! ip = Some canonical → is_Some (knownHosts s !! canonical).

(** No list of [ipsForHost] holds an address twice. *)
Definition addressListsDistinct (s : Spider) : Prop :=
  ∀ hostname ipList, ipsForHost s !! hostname = Some ipList → NoDup ipList.

(** ** The workers *)

Section Workers.

(** Declared elsewhere in the package.  [Fetch node] is [node.Fetch()]:
    the node as the call leaves it, and the error it returns.
    [Analyze node] is [node.Analyze()]: the node as the call leaves it,
    and the value it panics with, if it does, as [%v] formats it.
    [withAnalyzeError e node] is [node] after [node.analyzeError = e]. *)
Variable Fetch : SksNode → SksNode * option string.
Variable Analyze : SksNode → SksNode * option string.
Variable withAnalyzeError : string → SksNode → SksNode.
Variable CountryForIPString : string → string * option string.

(** [QueryHost]: the one result it sends on the [hostResult] channel. *)
Definition QueryHost (hostname : string) : HostResult :=
  let node :=
    {| Hostname := hostname; Settings := ∅; GossipPeerList := [];
       Version := ""; Keycount := 0; ServerHeader := ""; ViaHeader := "";
       IpList := [] |} in
  let '(fetched, err) := Fetch node in
  match err with
  | Some err => {| hr_hostname := hostname; hr_node := None; hr_err := Some err |}
  | None =>
      let '(analyzed, panicked) := Analyze fetched in
      match panicked with
      | Some x =>
          let e := ("analyze panic: " ++ x)%string in
          {| hr_hostname := hostname;
             hr_node := Some (withAnalyzeError e analyzed);
             hr_err := Some e |}
      | None =>
          {| hr_hostname := hostname; hr_node := Some analyzed;
             hr_err := None |}
      end
  end.

(** [QueryCountryForIP]: the result it sends on the [countryResult]
    channel. *)
Definition QueryCountryForIP (ipstr : string) : CountryResult :=
  let '(country, err) := CountryForIPString ipstr in
  {| cr_ip := ipstr; cr_country := country; cr_err := err |}.

End Workers.

(** ** A crawl: the owner, its callers and its workers together *)

Section Crawl.

Variable BlacklistedHosts : gset string.
Variable blacklistedQueryHosts : list string.
Variable IPDisallowed : string → bool.
Variable ParseIP : string → bool.
Variable withAnalyzeError : string → SksNode → SksNode.

(** The message by which a started worker, or a request sent, comes back
    to the owner.  What the network answers is not fixed: a DNS lookup
    sends whatever [net.LookupHost] returned, under the hostname it was
    started for; the other two workers send what [QueryHost] and
    [QueryCountryForIP] build from whatever their calls return. *)
Inductive answers : Effect → Msg → Prop :=
| answers_dns hostname ipList err :
    answers (SpawnDns hostname)
      (DnsResultMsg {| dns_hostname := hostname; dns_ipList := ipList;
                       dns_err := err |})
| answers_host Fetch Analyze hostname :
    answers (SpawnQueryHost hostname)
      (HostResultMsg (QueryHost Fetch Analyze withAnalyzeError hostname))
| answers_country CountryForIPString ip :
    answers (SpawnCountry ip)
      (CountryResultMsg (QueryCountryForIP CountryForIPString ip))
| answers_batch request :
    answers (SendBatch request) (BatchAddHostMsg request).

(** The states a crawl can be in, each with the work in flight (workers
    that have not sent their result and requests not yet received) and
    with everything started so far, in order.  A caller may add a host or
    send the terminate signal at any time, and the owner may receive the
    answer to any piece of work in flight.  A call of [AddHost] is one
    step here.  That is so for the WaitGroup, which is atomic, and for the
    request, which is sent on a channel; it is not for [pendingHosts],
    which the caller writes without synchronisation while the owner may
    be writing it: nothing proved over this relation reads that map. *)
Inductive crawling : Spider → list Effect → list Effect → Prop :=
| crawl_start : crawling StartSpider [] []
| crawl_add hostname dist s inflight history :
    crawling s inflight history →
    crawling (AddHost hostname dist s).1
             (inflight ++ (AddHost hostname dist s).2)
             (history ++ (AddHost hostname dist s).2)
| crawl_terminate s inflight history s' eff c :
    crawling s inflight history →
    selectCase BlacklistedHosts blacklistedQueryHosts IPDisallowed ParseIP
      TerminateMsg s = Some (s', eff, c) →
    crawling s' (inflight ++ eff) (history ++ eff)
| crawl_receive e m before after history s s' eff c :
    crawling s (before ++ e :: after) history →
    answers e m →
    selectCase BlacklistedHosts blacklistedQueryHosts IPDisallowed ParseIP
      m s = Some (s', eff, c) →
    crawling s' (before ++ after ++ eff) (history ++ eff).

End Crawl.

(** Sample answers of the network. *)
Definition sampleFetch (node : SksNode) : SksNode * option string :=
  if String.eqb (Hostname node) "keys.down.example"
  then (node, Some "connection refused")
  else ({| Hostname := Hostname node;
           Settings := <["Hostname" := Hostname node]> ∅;
           GossipPeerList := ["keys.b.example"]; Version := "1.1.4";
           Keycount := 5000; ServerHeader := "sks_www/1.1.4"; ViaHeader := "";
           IpList := [] |}, None).

Definition sampleAnalyze (node : SksNode) : SksNode * option string :=
  (node, None).

Definition sampleWithAnalyzeError (e : string) (node : SksNode) : SksNode :=
  node.

Definition sampleCrawling : Spider → list Effect → list Effect → Prop :=
  crawling sampleBlacklistedHosts sampleQueryBlacklist sampleIPDisallowed
    sampleParseIP sampleWithAnalyzeError.

(** The sample crawl after one host was added and its request received:
    the state with the work in flight. *)
Definition oneHostAdded : Spider * list Effect :=
  let added := AddHost "keys.a.example" 0 StartSpider in
  let '(s', eff) :=
    considerAll sampleBlacklistedHosts sampleQueryBlacklist sampleParseIP
      {| hostnames := ["keys.a.example"]; distance := 0; origin := "" |}
      added.1 in
  (s', eff).

(** A seed resolved to one address. *)
Definition oneResolvedTrace : list Msg :=
  [ seed ["keys.a.example"]; resolved "keys.a.example" ["192.0.2.1"] ].

(** ** What the diagnostic counters count *)

Definition occurrences (hostname : string) (l : list string) : Z :=
  Z.of_nat (length (filter (λ h, h = hostname) l)).

(** The units of work an effect puts in flight under [hostname]: its DNS
    lookup, its probe, and one for each time a request names it. *)
Definition hostUnits (hostname : string) (e : Effect) : Z :=
  match e with
  | SpawnDns h | SpawnQueryHost h => if bool_decide (h = hostname) then 1 else 0
  | SpawnCountry _ => 0
  | SendBatch request => occurrences hostname (hostnames request)
  end.

Definition hostsInFlight (hostname : string) (eff : list Effect) : Z :=
  fold_right (λ e n, hostUnits hostname e + n) 0 eff.

(** The country lookups an effect puts in flight for [ip]. *)
Definition countryUnits (ip : string) (e : Effect) : Z :=
  match e with
  | SpawnCountry i => if bool_decide (i = ip) then 1 else 0
  | _ => 0
  end.

Definition countriesInFlight (ip : string) (eff : list Effect) : Z :=
  fold_right (λ e n, countryUnits ip e + n) 0 eff.

(** The units of work under [hostname], and the country lookups for [ip],
    that a received message brings to their end. *)
Definition hostConsumed (hostname : string) (m : Msg) : Z :=
  match m with
  | BatchAddHostMsg hostreq => occurrences hostname (hostnames hostreq)
  | DnsResultMsg dnsResult =>
      if bool_decide (dns_hostname dnsResult = hostname) then 1 else 0
  | HostResultMsg hostResult =>
      if bool_decide (hr_hostname hostResult = hostname) then 1 else 0
  | _ => 0
  end.

Definition countryConsumed (ip : string) (m : Msg) : Z :=
  match m with
  | CountryResultMsg countryResult =>
      if bool_decide (cr_ip countryResult = ip) then 1 else 0
  | _ => 0
  end.

Definition hostConsumedAll (hostname : string) (msgs : list Msg) : Z :=
  fold_right (λ m n, hostConsumed hostname m + n) 0 msgs.

Definition countryConsumedAll (ip : string) (msgs : list Msg) : Z :=
  fold_right (λ m n, countryConsumed ip m + n) 0 msgs.

(** ** Headers that [serverToken] reads as Go does *)

(** Whether every byte of a string is below 128. *)
Definition asciiOnly (s : string) : bool :=
  forallb (λ c, (Ascii.nat_of_ascii c <? 128)%nat) (String.list_ascii_of_string s).

(** Whether the [Server] header of every server named in [Sorted] is
    ASCII.  [serverToken] lowers the letters A to Z and leaves every other
    byte; [strings.ToLower] does the same on such a header, and on others
    also lowers letters outside ASCII. *)
Definition asciiHeaders (persisted : PersistedHostInfo) : bool :=
  forallb (λ name, match HostMap persisted !! name with
                   | Some node => asciiOnly (ServerHeader node)
                   | None => true
                   end)
          (Sorted persisted).

(** ** The flags of the first loop of the selector *)

Section SelectorFlags.

Variable SksVersion : Type.
Variable NewSksVersion : string → option SksVersion.
Variable IsAtLeast : SksVersion → SksVersion → bool.
Variable serverHeadersNative : gset string.
Variable CountrySet : Type.
Variable HasCountry : CountrySet → string → bool.

(** [skip_this_age] for one server: a minimum version is asked for and
    the server's version does not parse or is older. *)
Definition skipAge (minimumVersion : option SksVersion) (node : SksNode) : bool :=
  match minimumVersion with
  | None => false
  | Some mv =>
      match NewSksVersion (Version node) with
      | None => true
      | Some thisVersion => negb (IsAtLeast thisVersion mv)
      end
  end.

(** [skip_this_nonproxy]: proxies are asked for, the server has no [Via]
    header and its [Server] header names a native server. *)
Definition skipNonproxy (limitToProxies : bool) (node : SksNode) : bool :=
  limitToProxies && String.eqb (ViaHeader node) ""
  && bool_decide (serverToken (ServerHeader node) ∈ serverHeadersNative).

(** [skip_this_country]: countries are asked for and none of the server's
    addresses is recorded in one of them. *)
Definition skipCountry (limitToCountries : option CountrySet)
    (persisted : PersistedHostInfo) (node : SksNode) : bool :=
  match limitToCountries with
  | None => false
  | Some countries =>
      negb (existsb
              (λ ip, match IPCountryMap persisted !! ip with
                     | Some geo => HasCountry countries geo
                     | None => false
                     end)
              (IpList node))
  end.

End SelectorFlags.

(** A snapshot in which a later server lists the first address of an
    earlier one, with another key count. *)
Definition sharedAddress : PersistedHostInfo :=
  snapshotOf [ server "a.example" "1.1.4" 5000 ["192.0.2.1"];
               server "b.example" "1.1.4" 9000 ["192.0.2.2"; "192.0.2.1"] ].

(** A snapshot whose sorted names include one that the map does not hold. *)
Definition danglingName : PersistedHostInfo :=
  {| HostMap := HostMap uniformCluster;
     Sorted := Sorted uniformCluster ++ ["d.example"];
     IPCountryMap := ∅ |}.

(** A snapshot with no server that holds more than one key. *)
Definition nothingToCount : PersistedHostInfo :=
  snapshotOf [ server "a.example" "1.1.4" 1 ["192.0.2.1"];
               server "b.example" "1.1.4" 0 ["192.0.2.2"] ].

(** A page whose filters tell servers apart: versions are compared as
    strings, [sks_www] is the native server header, and a country set is
    the one country of the form. *)
Definition filteringPage (shuffle : nat → ∀ A : Type, list A → list A)
    : option PersistedHostInfo → Query → Outcome :=
  apiIpValidPage 1000 1000 100 string Some (λ this mv, String.leb mv this)
    {["sks_www"]} (list string) (λ c, [c]) (λ cs geo, bool_decide (geo ∈ cs))
    shuffle.

Definition filteringLoop : PersistedHostInfo → Query → option Pass :=
  firstLoop string Some (λ this mv, String.leb mv this) {["sks_www"]}
    (list string) (λ c, [c]) (λ cs geo, bool_decide (geo ∈ cs)).

Definition proxied (name version : string) (keycount : Z) (ips : list string)
    : SksNode :=
  {| Hostname := name; Settings := ∅; GossipPeerList := [];
     Version := version; Keycount := keycount;
     ServerHeader := "nginx"; ViaHeader := "1.1 proxy.example"; IpList := ips |}.

(** Four servers with 5000 keys: one that passes every filter of
    [strictForm], one not behind a proxy, one too old and one in another
    country. *)
Definition mixedCluster : PersistedHostInfo :=
  let nodes := [ proxied "a.example" "1.1.4" 5000 ["192.0.2.1"];
                 server "b.example" "1.1.4" 5000 ["192.0.2.2"];
                 proxied "c.example" "1.1.3" 5000 ["192.0.2.3"];
                 proxied "d.example" "1.1.4" 5000 ["192.0.2.4"] ] in
  {| HostMap := HostMap (snapshotOf nodes); Sorted := Sorted (snapshotOf nodes);
     IPCountryMap := <["192.0.2.1" := "NL"]> (<["192.0.2.2" := "NL"]>
                       (<["192.0.2.3" := "NL"]> (<["192.0.2.4" := "US"]> ∅))) |}.

Definition strictForm : Query :=
  {| form_proxies := true; form_countries := Some "NL";
     form_minimum_version := "1.1.4"; form_threshold := None |}.

(** The first loop of the sample page. *)
Definition sampleFirstLoop : PersistedHostInfo → Query → option Pass :=
  firstLoop unit (λ _, Some tt) (λ _ _, true) ∅ unit (λ _, tt) (λ _ _, false).

(** Every hostname that has a distance is accounted for. *)
Definition distancesAccounted (s : Spider) : Prop :=
  ∀ hostname, is_Some (distances s !! hostname) → accountedFor s hostname.

(** A seed that comes with distance 4, and a later request for the same
    hostname with distance 1. *)
Definition farSeedTrace : list Msg :=
  [ BatchAddHostMsg {| hostnames := ["keys.a.example"]; distance := 4;
                       origin := "" |} ].

Definition nearRequest : HostsRequest :=
  {| hostnames := ["keys.a.example"]; distance := 1; origin := "" |}.

(** A DNS result that names an address twice. *)
Definition repeatedAddress : DnsResult :=
  {| dns_hostname := "keys.a.example";
     dns_ipList := ["192.0.2.1"; "192.0.2.1"; "2001:db8::1"]; dns_err := None |}.

(** Two seeds, the first of them resolved. *)
Definition firstResolvedTrace : list Msg :=
  [ seed ["keys.a.example"; "keys.b.example"];
    resolved "keys.a.example" ["192.0.2.1"] ].

Definition sameAddress : DnsResult :=
  {| dns_hostname := "keys.b.example"; dns_ipList := ["192.0.2.1"];
     dns_err := None |}.


(** ** The sums that the selector adds in the order of a map *)

Section SelectorSums.

Variable kBUCKET_SIZE : Z.
Variable shuffle : nat → ∀ A : Type, list A → list A.

(** [buckets[largest_bucket]] *)
Definition largestCounts (one : gmap string Z) : list Z :=
  default [] (bucketsOf kBUCKET_SIZE shuffle one
              !! largestBucket shuffle (bucketsOf kBUCKET_SIZE shuffle one)).

(** [first_sd] before the division and the root: the squared distances to
    [first_mean], added in the order of the largest bucket, which is the
    order of the first loop over [ips_one_per_server]. *)
Definition firstSquares (one : gmap string Z) : float64 :=
  sumSquares (firstStats (largestCounts one)).1 (largestCounts one).

(** [second_sum], added in the order of [first_ips_list]. *)
Definition secondSum (one all : gmap string Z) : float64 :=
  fold_left (λ acc ip, fadd acc (of_int (getZ all ip)))
            (firstIpsList kBUCKET_SIZE shuffle one all) (of_int 0).

(** [second_sd] before the division and the root, added in the order of
    the loop over [first_ips]. *)
Definition secondSquares (one all : gmap string Z) : float64 :=
  sumSquares (secondStats kBUCKET_SIZE shuffle one all).1
             (rangeMap shuffle 4 (firstIps kBUCKET_SIZE shuffle one all)).*2.

End SelectorSums.

(** Two answers of the page that a client cannot tell apart but for the
    order of the addresses: the same minimum and the same addresses, the
    same reason for INVALID, or a panic both times. *)
Definition sameAnswer (a b : Outcome) : Prop :=
  match a, b with
  | Valid ips t, Valid ips' t' => t = t' ∧ ips ≡ₚ ips'
  | Invalid r, Invalid r' => r = r'
  | Panic, Panic => True
  | _, _ => False
  end.

(** Nine servers whose counts all fall into bucket 5000. *)
Definition nineServers : PersistedHostInfo :=
  snapshotOf [ server "a.example" "1.1.4" 5000500 ["192.0.2.1"];
               server "b.example" "1.1.4" 5000501 ["192.0.2.2"];
               server "c.example" "1.1.4" 5000497 ["192.0.2.3"];
               server "d.example" "1.1.4" 5000500 ["192.0.2.4"];
               server "e.example" "1.1.4" 5000502 ["192.0.2.5"];
               server "f.example" "1.1.4" 5000497 ["192.0.2.6"];
               server "g.example" "1.1.4" 5000503 ["192.0.2.7"];
               server "h.example" "1.1.4" 5000499 ["192.0.2.8"];
               server "i.example" "1.1.4" 5000498 ["192.0.2.9"] ].

(** Two servers in bucket 5 and one in bucket 9. *)
Definition unevenBuckets : PersistedHostInfo :=
  snapshotOf [ server "a.example" "1.1.4" 5000 ["192.0.2.1"];
               server "b.example" "1.1.4" 5100 ["192.0.2.2"];
               server "c.example" "1.1.4" 9000 ["192.0.2.3"] ].
(** * Theorems *)

(** ** The helpers on small inputs *)

Example wrap_around :
  wrap (2 ^ 63) = - 2 ^ 63 ∧ wrap (-1) = -1 ∧ wrap (- 2 ^ 63 - 1) = 2 ^ 63 - 1.
Proof. by vm_compute. Qed.

Example strContains_samples :
  strContains "keys.pool.example" "pool." = true
  ∧ strContains "pool" "pool." = false
  ∧ strContains "localhost" "." = false
  ∧ strContains "" "" = true.
Proof. by vm_compute. Qed.

Example strHasSuffix_samples :
  strHasSuffix "printer.local" ".local" = true
  ∧ strHasSuffix "local" ".local" = false
  ∧ strHasSuffix "keys.localhost" ".local" = false.
Proof. by vm_compute. Qed.

Example flattenIPs_sample :
  flattenIPs [["192.0.2.1"; "192.0.2.2"; "192.0.2.1"]; ["192.0.2.2"; "192.0.2.3"]]
  = ["192.0.2.1"; "192.0.2.2"; "192.0.2.3"].
Proof. reflexivity. Qed.

Example serverToken_samples :
  serverToken "SKS_www/1.1.4" = "sks_www" ∧ serverToken "nginx" = "nginx".
Proof. by vm_compute. Qed.

Example to_int_truncates :
  to_int (Fin (-7 # 2)) = -3 ∧ to_int (Fin (7 # 2)) = 3.
Proof. by vm_compute. Qed.

Example sortInts_sample : sortInts [3; 1; 2; 2; -5] = [-5; 1; 2; 2; 3].
Proof. reflexivity. Qed.

(** ** Properties of the spider *)

(** *** [flattenIPs] *)

Lemma appendNew_fold (l : list string) :
  ∀ acc,
    NoDup acc →
    NoDup (fold_left appendNew l acc)
    ∧ ∀ ip, ip ∈ fold_left appendNew l acc ↔ ip ∈ acc ∨ ip ∈ l.
Proof.
  induction l as [|x l IH]; intros acc Hnd; simpl.
  { split; [done|]. intros ip. rewrite elem_of_nil. tauto. }
  assert (Hstep : NoDup (appendNew acc x)
                  ∧ ∀ ip, ip ∈ appendNew acc x ↔ ip ∈ acc ∨ ip = x).
  { unfold appendNew. destruct (existsb (String.eqb x) acc) eqn:E.
    - split; [done|]. intros ip. split; [tauto|]. intros [? | ->]; [done|].
      apply existsb_exists in E as (y & Hy & Heq).
      apply String.eqb_eq in Heq as ->. by apply list_elem_of_In.
    - split.
      + apply NoDup_app. split; [done|]. split; [|apply NoDup_singleton].
        intros y Hy Hx. apply list_elem_of_singleton in Hx as ->.
        assert (existsb (String.eqb x) acc = true); [|congruence].
        apply existsb_exists. exists x.
        split; [by apply list_elem_of_In|apply String.eqb_refl].
      + intros ip. by rewrite elem_of_app, list_elem_of_singleton. }
  destruct Hstep as [Hnd' Hel]. destruct (IH _ Hnd') as [IH1 IH2].
  split; [done|]. intros ip. rewrite IH2, Hel, elem_of_cons. tauto.
Qed.

(** The list [flattenIPs] returns has no address twice and holds the
    addresses of the lists it is given; a single list without repetition
    comes back as it is. *)
Theorem flattenIPs_dedup (ipLists : list (list string)) :
  NoDup (flattenIPs ipLists)
  ∧ (∀ ip, ip ∈ flattenIPs ipLists ↔ ∃ l, l ∈ ipLists ∧ ip ∈ l)
  ∧ (∀ l, NoDup l → flattenIPs [l] = l).
Proof.
  unfold flattenIPs.
  assert (H : ∀ (ls : list (list string)) acc,
            NoDup acc →
            NoDup (fold_left (λ result ipList, fold_left appendNew ipList result)
                             ls acc)
            ∧ ∀ ip, ip ∈ fold_left
                           (λ result ipList, fold_left appendNew ipList result)
                           ls acc
                    ↔ ip ∈ acc ∨ ∃ l, l ∈ ls ∧ ip ∈ l).
  { induction ls as [|l ls IH]; intros acc Hnd; simpl.
    { split; [done|]. intros ip. split; [tauto|].
      intros [?|(l & Hl & _)]; [done|by apply elem_of_nil in Hl]. }
    destruct (appendNew_fold l acc Hnd) as [Hnd' Hel].
    destruct (IH _ Hnd') as [IH1 IH2]. split; [exact IH1|].
    intros ip. rewrite IH2, Hel. split.
    - intros [[?|?]|(l' & Hl' & ?)]; [by left| |].
      + right. exists l. split; [by left|done].
      + right. exists l'. split; [by right|done].
    - intros [?|(l' & Hl' & ?)]; [by left; left|].
      apply elem_of_cons in Hl' as [-> | ?]; [by left; right|].
      right. by exists l'. }
  destruct (H ipLists [] (NoDup_nil_2)) as [H1 H2].
  split; [done|]. split.
  - intros ip. rewrite H2, elem_of_nil. tauto.
  - intros l Hl. simpl.
    assert (Hord : ∀ l acc, NoDup (acc ++ l) → fold_left appendNew l acc = acc ++ l).
    { clear. induction l as [|x l IH]; intros acc Hnd; simpl.
      { by rewrite app_nil_r. }
      assert (Hx : existsb (String.eqb x) acc = false).
      { destruct (existsb (String.eqb x) acc) eqn:E; [|done].
        apply existsb_exists in E as (y & Hy & Heq).
        apply String.eqb_eq in Heq as <-. apply list_elem_of_In in Hy.
        apply NoDup_app in Hnd as (_ & Hdis & _).
        destruct (Hdis x Hy). by left. }
      unfold appendNew at 2. rewrite Hx.
      rewrite IH; rewrite <- app_assoc; done. }
    by apply (Hord l []).
Qed.

Section SpiderProofs.

Variable BlacklistedHosts : gset string.
Variable blacklistedQueryHosts : list string.
Variable IPDisallowed : string → bool.
Variable ParseIP : string → bool.

Local Abbreviation skip := (skipHost BlacklistedHosts blacklistedQueryHosts ParseIP).
Local Abbreviation rejects := (policyRejects BlacklistedHosts blacklistedQueryHosts ParseIP).
Local Abbreviation consider := (considerHost BlacklistedHosts blacklistedQueryHosts ParseIP).

Lemma skipHost_policy s hostname : skip s hostname = true ↔ rejects s hostname.
Proof.
  unfold skipHost, policyRejects.
  repeat case_bool_decide; try (split; [intros _|]; tauto).
  destruct (ParseIP hostname); [tauto|].
  destruct (strContains hostname "."); simpl; [|tauto].
  destruct (strContains hostname "pool."); [tauto|].
  destruct (strHasSuffix hostname ".local"); [tauto|].
  rewrite existsb_exists. split.
  - intros (hn & Hin & Heq). apply bool_decide_eq_true in Heq. subst.
    do 6 right. by apply list_elem_of_In.
  - intros [[?|[?|?]]|[?|[?|[?|[?|[?|Hin]]]]]]; try tauto; try discriminate.
    exists hostname. split; [by apply list_elem_of_In|by apply bool_decide_eq_true].
Qed.

(** C8.  [considerHost] rejects a hostname exactly when the policy of the
    specification does: it is already in [considering], [badDNS] or
    [knownHosts], is on the static blacklist, parses as an IP literal,
    has no dot, contains "pool.", ends in ".local" or is one of the
    do-not-query names.  A rejected hostname starts no worker and leaves
    [considering] as it was; any other hostname is put in [considering],
    gets its distance recorded and starts exactly one DNS worker. *)
Theorem considerHost_policy (s : Spider) (hostname : string) (request : HostsRequest) :
  let r := consider hostname request s in
  (rejects s hostname →
     r.2 = [] ∧ considering r.1 = considering s
     ∧ badDNS r.1 = badDNS s ∧ knownHosts r.1 = knownHosts s)
  ∧ (¬ rejects s hostname →
     r.2 = [SpawnDns hostname]
     ∧ considering r.1 = <[hostname := true]> (considering s)
     ∧ distances r.1 !! hostname = Some (requestDistance s request)).
Proof.
  intros r. subst r. unfold considerHost.
  set (dist := requestDistance s request).
  set (s1 := match distances s !! hostname with
             | Some olddistance =>
                 if olddistance >? dist
                 then with_distances (<[hostname := dist]>) s else s
             | None => s
             end).
  assert (Hsame : considering s1 = considering s ∧ badDNS s1 = badDNS s
                  ∧ knownHosts s1 = knownHosts s).
  { subst s1. destruct (distances s !! hostname) as [old|]; [|done].
    by destruct (old >? dist). }
  destruct Hsame as (Hc & Hb & Hk).
  assert (Hskip : skip s1 hostname = skip s hostname).
  { unfold skipHost. by rewrite Hc, Hb, Hk. }
  rewrite Hskip.
  destruct (skip s hostname) eqn:E.
  - apply skipHost_policy in E. split; [|tauto]. intros _. by simpl.
  - assert (¬ rejects s hostname).
    { intros Hr. apply skipHost_policy in Hr. congruence. }
    split; [tauto|]. intros _. simpl. rewrite Hc.
    split; [done|]. split; [done|]. by rewrite lookup_insert_eq.
Qed.

(** Distances after the renaming block of [processHostResult]. *)
Lemma renameHost_distance (hostname canonical : string) (s : Spider) (old : Z) :
  distances s !! canonical = Some old →
  distances (renameHost hostname canonical s) !! canonical
  = Some (Z.max old (getZ (distances s) hostname)).
Proof.
  intros Hold. unfold renameHost.
  repeat match goal with
         | |- context [match ?o with Some _ => _ | None => _ end] =>
             lazymatch o with
             | distances _ !! _ => fail
             | _ => destruct o
             end
         end; simpl; rewrite Hold;
    (destruct (Z.ltb_spec old (getZ (distances s) hostname)); simpl;
     [ rewrite lookup_insert_eq; f_equal; lia
     | rewrite Hold; f_equal; lia ]).
Qed.

Lemma hostNodename_distances node canonical s :
  distances (hostNodename node canonical s) = distances s.
Proof. unfold hostNodename. by repeat case_match. Qed.

Lemma BatchAddHost_distances (o : string) (l : list string) (s : Spider) :
  distances (BatchAddHost o l s).1 = distances s.
Proof. done. Qed.

(** C9.  When a probe succeeds and the node names itself [canonical],
    different from the queried hostname, and [canonical] already has a
    distance [old], the distance kept under [canonical] is the larger of
    [old] and the queried hostname's distance (zero when it has none). *)
Theorem processHostResult_distance_max
    (hr : HostResult) (node : SksNode) (canonical : string) (old : Z) (s : Spider) :
  hr_err hr = None →
  hr_node hr = Some node →
  Settings node !! "Hostname" = Some canonical →
  canonical ≠ hr_hostname hr →
  distances s !! canonical = Some old →
  ∃ s' eff,
    processHostResult hr s = Some (s', eff)
    ∧ distances s' !! canonical
      = Some (Z.max old (getZ (distances s) (hr_hostname hr))).
Proof.
  intros Herr Hnode Hown Hne Hold.
  unfold processHostResult. rewrite Herr, Hnode.
  eexists _, _. split; [reflexivity|].
  unfold hostCanonical. rewrite Hown, bool_decide_eq_true_2 by done.
  simpl. rewrite hostNodename_distances.
  by apply renameHost_distance.
Qed.

Local Abbreviation dnsResultStep :=
  (processDnsResult IPDisallowed).
Local Abbreviation step :=
  (selectCase BlacklistedHosts blacklistedQueryHosts IPDisallowed ParseIP).
Local Abbreviation run :=
  (spiderMainLoop BlacklistedHosts blacklistedQueryHosts IPDisallowed ParseIP).

(** *** What each handler does to [countriesForIPs] *)

(** Closes a goal from [H : e ∈ l] when [l] is an explicit list that
    cannot hold [e]. *)
Ltac not_listed H :=
  repeat (apply elem_of_cons in H as [H|H]; [discriminate H|]);
  apply elem_of_nil in H.

Lemma considerHost_countries hostname request s :
  countriesForIPs (consider hostname request s).1 = countriesForIPs s
  ∧ ∀ ip, SpawnCountry ip ∉ (consider hostname request s).2.
Proof.
  unfold considerHost.
  destruct (distances s !! hostname) as [old|];
    [destruct (old >? _)|]; destruct (skipHost _ _ _ _ _); simpl;
    (split; [done|]); intros ip Hin; by not_listed Hin.
Qed.

Lemma considerAll_countries hostreq s :
  countriesForIPs
    (considerAll BlacklistedHosts blacklistedQueryHosts ParseIP hostreq s).1
  = countriesForIPs s
  ∧ ∀ ip, SpawnCountry ip ∉
      (considerAll BlacklistedHosts blacklistedQueryHosts ParseIP hostreq s).2.
Proof.
  unfold considerAll.
  assert (H : ∀ l acc,
    let r := fold_left
      (λ acc hostname,
         let '(s', eff) := consider hostname hostreq acc.1 in (s', acc.2 ++ eff))
      l acc in
    (∀ ip, SpawnCountry ip ∉ acc.2) →
    countriesForIPs r.1 = countriesForIPs acc.1 ∧ ∀ ip, SpawnCountry ip ∉ r.2).
  { induction l as [|h l IH]; intros acc r Hacc; [done|].
    subst r. simpl.
    destruct (considerHost_countries h hostreq acc.1) as [Hc Hn].
    destruct (consider h hostreq acc.1) as [s' eff] eqn:E. simpl in *.
    destruct (IH (s', acc.2 ++ eff)) as [IH1 IH2].
    - intros ip Hin. apply elem_of_app in Hin as [Hin|Hin];
        [by apply (Hacc ip)|by apply (Hn ip)].
    - simpl in *. split; [congruence|done]. }
  apply (H (hostnames hostreq) (s, [])). intros ip Hin. set_solver.
Qed.

Lemma dnsScan_countries hostname ipList rest s s' :
  dnsScan IPDisallowed hostname ipList rest s = Some s' →
  countriesForIPs s' = countriesForIPs s.
Proof.
  induction rest as [|ip rest IH]; simpl; [done|].
  destruct (IPDisallowed ip); [by intros [= <-]|].
  destruct (knownIPs s !! ip); [by intros [= <-]|done].
Qed.

Lemma dnsFreshIP_fold_countries hostname (l : list string) :
  ∀ acc : Spider * list Effect,
    let r := fold_left (dnsFreshIP hostname) l acc in
    (∀ ip v, countriesForIPs acc.1 !! ip = Some v →
             countriesForIPs r.1 !! ip = Some v)
    ∧ (∀ e, e ∈ r.2 →
         e ∈ acc.2
         ∨ ∃ ip, e = SpawnCountry ip ∧ countriesForIPs acc.1 !! ip = None
                 ∧ countriesForIPs r.1 !! ip = Some "").
Proof.
  induction l as [|ip l IH]; intros acc r; subst r; simpl.
  { split; [done|]. intros e He. by left. }
  destruct (IH (dnsFreshIP hostname acc ip)) as [IH1 IH2].
  unfold dnsFreshIP in *. simpl in *.
  destruct (countriesForIPs acc.1 !! ip) as [v0|] eqn:E; simpl in *.
  - split; [done|]. intros e He.
    destruct (IH2 e He) as [?|(ip' & -> & Hn & Hs)]; [by left|].
    right. by exists ip'.
  - split.
    + intros ip' v Hv. apply IH1. rewrite lookup_insert_ne; [done|].
      intros ->. congruence.
    + intros e He.
      destruct (IH2 e He) as [Hin|(ip' & -> & Hn & Hs)].
      * apply elem_of_app in Hin as [?|Hin]; [by left|].
        apply list_elem_of_singleton in Hin as ->. right. exists ip.
        split; [done|]. split; [done|].
        apply IH1. by rewrite lookup_insert_eq.
      * right. exists ip'. split; [done|]. split; [|done].
        destruct (decide (ip = ip')) as [->|Hne]; [done|].
        by rewrite lookup_insert_ne in Hn.
Qed.

Lemma processDnsResult_countries dns s :
  let r := dnsResultStep dns s in
  (∀ ip v, countriesForIPs s !! ip = Some v → countriesForIPs r.1 !! ip = Some v)
  ∧ (∀ e, e ∈ r.2 →
       e = SpawnQueryHost (dns_hostname dns)
       ∨ ∃ ip, e = SpawnCountry ip ∧ countriesForIPs s !! ip = None
               ∧ countriesForIPs r.1 !! ip = Some "").
Proof.
  intros r. subst r. unfold processDnsResult.
  destruct (dns_err dns); simpl.
  { split; [done|]. intros e He. set_solver. }
  destruct (dnsScan _ _ _ _ _) as [s'|] eqn:E; simpl.
  { apply dnsScan_countries in E. rewrite E. split; [done|].
    intros e He. set_solver. }
  unfold dnsFresh.
  set (s3 := with_ipsForHost _ _).
  pose proof (dnsFreshIP_fold_countries (dns_hostname dns)
                (flattenIPs [dns_ipList dns]) (s3, [])) as [H1 H2].
  destruct (fold_left _ _ _) as [s4 spawned]. simpl in *.
  split; [done|]. intros e He.
  apply elem_of_app in He as [He|He].
  - destruct (H2 e He) as [?|?]; [set_solver|by right].
  - apply list_elem_of_singleton in He. by left.
Qed.

Lemma renameHost_countries hostname canonical s :
  countriesForIPs (renameHost hostname canonical s) = countriesForIPs s.
Proof. unfold renameHost. repeat case_match; simpl; reflexivity. Qed.

Lemma hostCanonical_countries hostname node s :
  countriesForIPs (hostCanonical hostname node s).2 = countriesForIPs s.
Proof.
  unfold hostCanonical. repeat case_match; simpl; [|done..].
  apply renameHost_countries.
Qed.

Lemma hostNodename_countries node canonical s :
  countriesForIPs (hostNodename node canonical s) = countriesForIPs s.
Proof. unfold hostNodename. by repeat case_match. Qed.

Lemma processHostResult_countries hr s s' eff :
  processHostResult hr s = Some (s', eff) →
  countriesForIPs s' = countriesForIPs s ∧ ∀ ip, SpawnCountry ip ∉ eff.
Proof.
  unfold processHostResult. intros H.
  destruct (hr_err hr);
    [simplify_eq; split; [done|intros ip Hin; by not_listed Hin]|].
  destruct (hr_node hr) as [node|]; [|done].
  unfold BatchAddHost in H. simplify_eq. simpl.
  rewrite hostNodename_countries, hostCanonical_countries.
  split; [done|]. intros ip Hin. by not_listed Hin.
Qed.

Lemma step_countries m s s' eff c :
  step m s = Some (s', eff, c) →
  (∀ ip v, countriesForIPs s !! ip = Some v →
     countriesForIPs s' !! ip = Some v
     ∨ ∃ cr, m = CountryResultMsg cr ∧ cr_err cr = None ∧ cr_ip cr = ip
             ∧ countriesForIPs s' !! ip = Some (cr_country cr))
  ∧ (∀ ip, SpawnCountry ip ∈ eff →
       countriesForIPs s !! ip = None ∧ countriesForIPs s' !! ip = Some "").
Proof.
  destruct m as [hostreq|dns|hr|cr|]; simpl; intros H.
  - destruct (considerAll_countries hostreq s) as [Hc Hn].
    destruct (considerAll _ _ _ _ _) as [s1 e1]. simplify_eq. simpl in *.
    rewrite Hc. split; [by left|]. intros ip Hin. by destruct (Hn ip).
  - destruct (processDnsResult_countries dns s) as [Hk Hs].
    destruct (processDnsResult _ _ _) as [s1 e1]. simplify_eq. simpl in *.
    split; [left; by apply Hk|]. intros ip Hin.
    destruct (Hs _ Hin) as [?|(ip' & ? & ? & ?)]; by simplify_eq.
  - destruct (processHostResult hr s) as [[s1 e1]|] eqn:E; [|done].
    apply processHostResult_countries in E as [Hc Hn]. simplify_eq. simpl.
    rewrite Hc. split; [by left|]. intros ip Hin. by destruct (Hn ip).
  - simplify_eq. simpl. split; [|intros ip Hin; by not_listed Hin].
    intros ip v Hv. unfold processCountryResult.
    destruct (cr_err cr) eqn:E; [by left|]. simpl.
    destruct (decide (cr_ip cr = ip)) as [Heq|Hne].
    + right. exists cr. subst ip. by rewrite lookup_insert_eq.
    + left. by rewrite lookup_insert_ne.
  - simplify_eq. split; [by left|]. intros ip Hin. by not_listed Hin.
Qed.

Lemma run_countries msgs :
  ∀ s s' eff, run msgs s = Some (s', eff) →
    (∀ ip, is_Some (countriesForIPs s !! ip) → is_Some (countriesForIPs s' !! ip))
    ∧ (∀ ip, SpawnCountry ip ∈ eff → is_Some (countriesForIPs s' !! ip)).
Proof.
  induction msgs as [|m msgs IH]; simpl; intros s s' eff H.
  { simplify_eq. split; [done|]. intros ip Hin. by not_listed Hin. }
  destruct (step m s) as [[[s1 e1] c]|] eqn:E; [|done].
  assert (H' : match run msgs s1 with
               | Some (s'', eff') => Some (s'', e1 ++ eff')
               | None => None
               end = Some (s', eff)) by (by destruct c).
  clear H. destruct (run msgs s1) as [[s2 e2]|] eqn:E2; [|done].
  simplify_eq. destruct (IH _ _ _ E2) as [IH1 IH2].
  destruct (step_countries _ _ _ _ _ E) as [S1 S2].
  assert (Hmono : ∀ ip, is_Some (countriesForIPs s !! ip) →
                        is_Some (countriesForIPs s1 !! ip)).
  { intros ip [v Hv]. destruct (S1 ip v Hv) as [?|(? & ? & ? & ? & ?)]; eauto. }
  split; [intros ip Hip; by apply IH1, Hmono|].
  intros ip Hin. apply elem_of_app in Hin as [Hin|Hin]; [|by apply IH2].
  apply IH1. destruct (S2 ip Hin) as [_ Hs]. eauto.
Qed.

(** C10.  A country result that carries an error is dropped:
    [processCountryResult] gives the state back as it was, and the loop
    only counts the lookup as done.  An address gets its empty-string
    placeholder in the step that starts its lookup; an entry that is
    present changes only when a successful result for that address is
    processed; so every address whose lookup was started since
    [StartSpider] has an entry in [countriesForIPs]. *)
Theorem country_error_keeps_placeholder :
  (∀ cr s, cr_err cr ≠ None →
     processCountryResult cr s = s
     ∧ step (CountryResultMsg cr) s
       = Some (pendingDone (with_pendingCountries (bump (cr_ip cr) (-1)) s),
               [], Normal))
  ∧ (∀ m s s' eff c ip,
       step m s = Some (s', eff, c) → SpawnCountry ip ∈ eff →
       countriesForIPs s !! ip = None ∧ countriesForIPs s' !! ip = Some "")
  ∧ (∀ m s s' eff c ip v,
       step m s = Some (s', eff, c) →
       countriesForIPs s !! ip = Some v →
       countriesForIPs s' !! ip ≠ Some v →
       ∃ cr, m = CountryResultMsg cr ∧ cr_err cr = None ∧ cr_ip cr = ip
             ∧ countriesForIPs s' !! ip = Some (cr_country cr))
  ∧ (∀ msgs s' eff ip,
       run msgs StartSpider = Some (s', eff) → SpawnCountry ip ∈ eff →
       is_Some (countriesForIPs s' !! ip)).
Proof.
  repeat split.
  - unfold processCountryResult. by destruct (cr_err cr).
  - simpl. unfold processCountryResult. by destruct (cr_err cr).
  - by eapply step_countries.
  - by eapply step_countries.
  - intros m s s' eff c ip v Hstep Hv Hne.
    destruct (step_countries _ _ _ _ _ Hstep) as [S1 _].
    by destruct (S1 ip v Hv).
  - intros msgs s' eff ip Hrun Hin.
    by eapply (run_countries msgs StartSpider).
Qed.

(** *** DNS lookups and [considering] *)

Lemma dnsSpawns_app e1 e2 : dnsSpawns (e1 ++ e2) = dnsSpawns e1 ++ dnsSpawns e2.
Proof. apply omap_app. Qed.

Lemma dnsSpawns_none eff :
  (∀ h, SpawnDns h ∉ eff) → dnsSpawns eff = [].
Proof.
  induction eff as [|e eff IH]; intros H; [done|].
  destruct e as [h| | |]; [destruct (H h); by left|..];
    (change (dnsSpawns eff = []); apply IH; intros h Hin; apply (H h); by right).
Qed.

Lemma extends_same s0 s eff :
  considering s = considering s0 → (∀ h, SpawnDns h ∉ eff) → extends s0 s eff.
Proof.
  intros Hc Hn. unfold extends. rewrite Hc, (dnsSpawns_none _ Hn).
  split; [done|]. split; [constructor|]. intros h Hin. by apply elem_of_nil in Hin.
Qed.

Lemma extends_trans s0 s1 s2 e1 e2 :
  extends s0 s1 e1 → extends s1 s2 e2 → extends s0 s2 (e1 ++ e2).
Proof.
  intros (M1 & N1 & I1) (M2 & N2 & I2). unfold extends.
  rewrite dnsSpawns_app. split; [by intros h ?; apply M2, M1|]. split.
  - apply NoDup_app. split; [done|]. split; [|done].
    intros h H1 H2. destruct (I1 h H1) as [_ [v Hv]].
    destruct (I2 h H2) as [Hnone _]. congruence.
  - intros h Hin. apply elem_of_app in Hin as [Hin|Hin].
    + destruct (I1 h Hin). split; [done|]. by apply M2.
    + destruct (I2 h Hin) as [Hnone ?]. split; [|done].
      destruct (considering s0 !! h) eqn:E; [|done].
      destruct (M1 h) as [v Hv]; [by rewrite E|]. congruence.
Qed.

(** What [considerHost] does on either value of [skip]. *)
Lemma considerHost_started s hostname request :
  let r := consider hostname request s in
  (skip s hostname = true →
     r.2 = [] ∧ considering r.1 = considering s
     ∧ badDNS r.1 = badDNS s ∧ knownHosts r.1 = knownHosts s)
  ∧ (skip s hostname = false →
     r.2 = [SpawnDns hostname]
     ∧ considering r.1 = <[hostname := true]> (considering s)
     ∧ badDNS r.1 = badDNS s ∧ knownHosts r.1 = knownHosts s).
Proof.
  intros r. subst r. unfold considerHost.
  set (dist := requestDistance s request).
  set (s1 := match distances s !! hostname with
             | Some olddistance =>
                 if olddistance >? dist
                 then with_distances (<[hostname := dist]>) s else s
             | None => s
             end).
  assert (Hsame : considering s1 = considering s ∧ badDNS s1 = badDNS s
                  ∧ knownHosts s1 = knownHosts s).
  { subst s1. destruct (distances s !! hostname) as [old|]; [|done].
    by destruct (old >? dist). }
  destruct Hsame as (Hc & Hb & Hk).
  assert (Hskip : skip s1 hostname = skip s hostname).
  { unfold skipHost. by rewrite Hc, Hb, Hk. }
  rewrite Hskip.
  destruct (skip s hostname); split; intros E; try discriminate E; simpl;
    by rewrite ?Hc, ?Hb, ?Hk.
Qed.

Lemma considerHost_extends hostname request s :
  extends s (consider hostname request s).1 (consider hostname request s).2.
Proof.
  destruct (considerHost_started s hostname request) as [Hrej Hacc].
  simpl in *.
  destruct (skip s hostname) eqn:E.
  - destruct (Hrej eq_refl) as (He & Hc & _).
    apply extends_same; [done|]. rewrite He. intros h Hin. by not_listed Hin.
  - destruct (Hacc eq_refl) as (He & Hc & _). unfold extends. rewrite He, Hc.
    assert (Hfresh : considering s !! hostname = None).
    { destruct (considering s !! hostname) eqn:Ec; [|done].
      unfold skipHost in E. rewrite Ec in E.
      by rewrite bool_decide_eq_true_2 in E. }
    split; [|split].
    + intros h Hh. destruct (decide (hostname = h)) as [->|Hne];
        [by rewrite lookup_insert_eq|by rewrite lookup_insert_ne].
    + apply NoDup_singleton.
    + intros h Hin. apply list_elem_of_singleton in Hin as ->.
      by rewrite lookup_insert_eq.
Qed.

Lemma considerAll_extends hostreq s :
  let r := considerAll BlacklistedHosts blacklistedQueryHosts ParseIP hostreq s in
  extends s r.1 r.2.
Proof.
  unfold considerAll.
  assert (H : ∀ l acc,
    let r := fold_left
      (λ acc hostname,
         let '(s', eff) := consider hostname hostreq acc.1 in (s', acc.2 ++ eff))
      l acc in
    extends s acc.1 acc.2 → extends s r.1 r.2).
  { induction l as [|h l IH]; intros acc r Hacc; [done|].
    subst r. simpl. apply IH.
    pose proof (considerHost_extends h hostreq acc.1) as Hx.
    destruct (consider h hostreq acc.1) as [s' eff]. simpl in *.
    by eapply extends_trans. }
  apply (H (hostnames hostreq) (s, [])).
  apply extends_same; [done|]. intros h Hin. by not_listed Hin.
Qed.

Lemma dnsScan_considering hostname ipList rest s s' :
  dnsScan IPDisallowed hostname ipList rest s = Some s' →
  considering s' = considering s.
Proof.
  induction rest as [|ip rest IH]; simpl; [done|].
  destruct (IPDisallowed ip); [by intros [= <-]|].
  destruct (knownIPs s !! ip); [by intros [= <-]|done].
Qed.

Lemma dnsFreshIP_fold_considering hostname (l : list string) :
  ∀ acc : Spider * list Effect,
    considering (fold_left (dnsFreshIP hostname) l acc).1 = considering acc.1.
Proof.
  induction l as [|ip l IH]; intros acc; simpl; [done|].
  rewrite IH. unfold dnsFreshIP. by case_match.
Qed.

Lemma processDnsResult_considering dns s :
  considering (dnsResultStep dns s).1 = considering s.
Proof.
  unfold processDnsResult. destruct (dns_err dns); [done|].
  destruct (dnsScan _ _ _ _ _) as [s'|] eqn:E; simpl.
  { by apply dnsScan_considering in E. }
  unfold dnsFresh.
  pose proof (dnsFreshIP_fold_considering (dns_hostname dns)
                (flattenIPs [dns_ipList dns])) as Hf.
  match goal with |- context [fold_left _ _ ?acc] => specialize (Hf acc) end.
  destruct (fold_left _ _ _) as [s4 spawned]. simpl in *. by rewrite Hf.
Qed.

Lemma processHostResult_considering hr s s' eff :
  processHostResult hr s = Some (s', eff) →
  considering s' = considering s ∧ ∀ h, SpawnDns h ∉ eff.
Proof.
  unfold processHostResult. intros H.
  destruct (hr_err hr);
    [simplify_eq; split; [done|intros ip Hin; by not_listed Hin]|].
  destruct (hr_node hr) as [node|]; [|done].
  unfold BatchAddHost in H. simplify_eq. simpl.
  split; [|intros ip Hin; by not_listed Hin].
  unfold hostNodename, hostCanonical, renameHost.
  repeat case_match; simpl; reflexivity.
Qed.

Lemma step_extends m s s' eff c :
  step m s = Some (s', eff, c) → extends s s' eff.
Proof.
  destruct m as [hostreq|dns|hr|cr|]; simpl; intros H.
  - pose proof (considerAll_extends hostreq s) as Hx.
    destruct (considerAll _ _ _ _ _) as [s1 e1]. by simplify_eq.
  - pose proof (processDnsResult_considering dns s) as Hc.
    destruct (processDnsResult_countries dns s) as [_ He].
    destruct (processDnsResult _ _ _) as [s1 e1]. simplify_eq. simpl in *.
    apply extends_same; [done|]. intros h Hin.
    destruct (He _ Hin) as [?|(? & ? & _)]; discriminate.
  - destruct (processHostResult hr s) as [[s1 e1]|] eqn:E; [|done].
    apply processHostResult_considering in E as [Hc Hn]. simplify_eq.
    by apply extends_same.
  - simplify_eq. apply extends_same; [|intros h Hin; by not_listed Hin].
    unfold processCountryResult. by case_match.
  - simplify_eq. apply extends_same; [done|]. intros h Hin. by not_listed Hin.
Qed.

Lemma run_extends msgs :
  ∀ s s' eff, run msgs s = Some (s', eff) → extends s s' eff.
Proof.
  induction msgs as [|m msgs IH]; simpl; intros s s' eff H.
  { simplify_eq. apply extends_same; [done|]. intros h Hin. by not_listed Hin. }
  destruct (step m s) as [[[s1 e1] c]|] eqn:E; [|done].
  assert (H' : match run msgs s1 with
               | Some (s'', eff') => Some (s'', e1 ++ eff')
               | None => None
               end = Some (s', eff)) by (by destruct c).
  clear H. destruct (run msgs s1) as [[s2 e2]|] eqn:E2; [|done].
  simplify_eq. eapply extends_trans; [by eapply step_extends|by apply IH].
Qed.

(** C5, as the code has it.  In a crawl (any messages processed from
    [StartSpider] on) no hostname has its DNS lookup started twice, and
    every hostname whose lookup was started is in [considering], where
    it stays whatever the lookup returns. *)
Theorem dns_lookup_started_once msgs s' eff :
  run msgs StartSpider = Some (s', eff) →
  NoDup (dnsSpawns eff) ∧ ∀ h, h ∈ dnsSpawns eff → is_Some (considering s' !! h).
Proof.
  intros H. apply run_extends in H as (_ & Hnd & Hin).
  split; [done|]. intros h Hh. by destruct (Hin h Hh).
Qed.

(** *** A disallowed address met before any known one *)

Lemma dnsScan_disallowed hostname ipList (pre : list string) ip rest s :
  (∀ x, x ∈ pre → IPDisallowed x = false ∧ knownIPs s !! x = None) →
  IPDisallowed ip = true →
  dnsScan IPDisallowed hostname ipList (pre ++ ip :: rest) s
  = Some (with_badDNS (<[hostname := true]>) s).
Proof.
  induction pre as [|x pre IH]; intros Hpre Hip; simpl.
  { by rewrite Hip. }
  destruct (Hpre x) as [-> ->]; [by left|].
  apply IH; [|done]. intros y Hy. apply Hpre. by right.
Qed.

(** When the first address of the deduplicated list that is disallowed or
    already known is a disallowed one, the hostname goes to [badDNS],
    nothing is started and every other map stays as it was. *)
Theorem processDnsResult_disallowed_first
    (dns : DnsResult) (pre : list string) (ip : string) (rest : list string)
    (s : Spider) :
  dns_err dns = None →
  flattenIPs [dns_ipList dns] = pre ++ ip :: rest →
  (∀ x, x ∈ pre → IPDisallowed x = false ∧ knownIPs s !! x = None) →
  IPDisallowed ip = true →
  dnsResultStep dns s = (with_badDNS (<[dns_hostname dns := true]>) s, []).
Proof.
  intros Herr Hflat Hpre Hip. unfold processDnsResult. rewrite Herr.
  rewrite Hflat at 2. by rewrite (dnsScan_disallowed _ _ pre ip rest s).
Qed.

(** C3.  Receiving the terminate signal changes nothing and leaves the
    loop running: the messages after it are processed as if it had not
    been sent. *)
Theorem terminate_does_not_leave_loop (msgs : list Msg) (s : Spider) :
  step TerminateMsg s = Some (s, [], Break)
  ∧ run (TerminateMsg :: msgs) s = run msgs s.
Proof.
  split; [done|]. simpl. by destruct (run msgs s) as [[s' eff]|].
Qed.

End SpiderProofs.

(** *** The spider on the sample traces *)

Lemma processDnsResult_disallowed_first_witness :
  processDnsResult sampleIPDisallowed
    {| dns_hostname := "keys.a.example";
       dns_ipList := ["192.0.2.1"; "127.0.0.1"; "192.0.2.1"]; dns_err := None |}
    StartSpider
  = (with_badDNS (<["keys.a.example" := true]>) StartSpider, []).
Proof.
  apply (processDnsResult_disallowed_first sampleIPDisallowed
           {| dns_hostname := "keys.a.example";
              dns_ipList := ["192.0.2.1"; "127.0.0.1"; "192.0.2.1"];
              dns_err := None |}
           ["192.0.2.1"] "127.0.0.1" [] StartSpider);
    [reflexivity | reflexivity | | reflexivity].
  intros x Hx. apply list_elem_of_singleton in Hx as ->. split; reflexivity.
Defined.

Lemma processHostResult_distance_max_witness :
  ∃ s' eff,
    processHostResult renamingResult twoDistances = Some (s', eff)
    ∧ distances s' !! "keys.b.example"
      = Some (Z.max 1 (getZ (distances twoDistances) "keys.a.example")).
Proof.
  apply (processHostResult_distance_max renamingResult renamingNode
           "keys.b.example" 1 twoDistances);
    [reflexivity | reflexivity | reflexivity | discriminate | reflexivity].
Defined.

Lemma dns_lookup_started_once_witness :
  NoDup (dnsSpawns (sampleRun sharedAddressTrace).2)
  ∧ ∀ h, h ∈ dnsSpawns (sampleRun sharedAddressTrace).2 →
         is_Some (considering (sampleRun sharedAddressTrace).1 !! h).
Proof.
  apply (dns_lookup_started_once sampleBlacklistedHosts sampleQueryBlacklist
           sampleIPDisallowed sampleParseIP sharedAddressTrace).
  vm_compute. reflexivity.
Defined.

(** C5 as stated fails: after a lookup that fails the hostname is in
    [considering] and in [badDNS]. *)
Lemma considering_badDNS_overlap :
  ∃ s' eff,
    sampleLoop failedLookupTrace StartSpider = Some (s', eff)
    ∧ ¬ (dom (considering s') ## dom (badDNS s')).
Proof.
  eexists _, _. split; [vm_compute; reflexivity|].
  intros Hdisj. apply (Hdisj "keys.a.example");
    apply elem_of_dom; eexists; vm_compute; reflexivity.
Qed.

(** C3 on a sample: a seed received after the terminate signal is still
    considered and its DNS lookup started. *)
Lemma seed_after_terminate_is_processed :
  ∃ s', sampleLoop afterTerminateTrace StartSpider
        = Some (s', [SpawnDns "keys.a.example"])
        ∧ considering s' !! "keys.a.example" = Some true.
Proof. eexists. split; [vm_compute; reflexivity|]. by vm_compute. Qed.

(** C1 on a sample.  When a second hostname resolves to the address of a
    known host, the DNS handler maps it to that host in [knownHosts] but
    does not add it to the host's list in [aliasesForHost]. *)
Theorem alias_by_address_not_in_aliasesForHost :
  ∃ s' eff,
    sampleLoop sharedAddressTrace StartSpider = Some (s', eff)
    ∧ knownHosts s' !! "keys.b.example" = Some "keys.a.example"
    ∧ knownHosts s' !! "keys.a.example" = Some "keys.a.example"
    ∧ aliasesForHost s' !! "keys.a.example" = Some ["keys.a.example"].
Proof. eexists _, _. split; [vm_compute; reflexivity|]. by vm_compute. Qed.

(** C1 on a second sample: a node that names itself by a hostname already
    recorded as an alias of another host leaves [knownHosts] with a value
    that is not mapped to itself. *)
Lemma canonical_not_fixpoint_after_rename :
  ∃ s' eff,
    sampleLoop renamedToAliasTrace StartSpider = Some (s', eff)
    ∧ knownHosts s' !! "keys.c.example" = Some "keys.b.example"
    ∧ knownHosts s' !! "keys.b.example" = Some "keys.a.example".
Proof. eexists _, _. split; [vm_compute; reflexivity|]. by vm_compute. Qed.

(** C4 on a sample.  The first address returned is known and allowed, the
    second is a loopback address: the hostname is recorded as an alias, the
    loopback address is entered in [knownIPs] and [ipsForHost], and
    [badDNS] stays without the hostname. *)
Theorem disallowed_after_known_address_accepted :
  sampleIPDisallowed "127.0.0.1" = true
  ∧ ∃ s' eff,
      sampleLoop knownThenLoopbackTrace StartSpider = Some (s', eff)
      ∧ badDNS s' !! "keys.b.example" = None
      ∧ knownHosts s' !! "keys.b.example" = Some "keys.a.example"
      ∧ knownIPs s' !! "127.0.0.1" = Some "keys.a.example"
      ∧ ipsForHost s' !! "keys.a.example" = Some ["192.0.2.1"; "127.0.0.1"].
Proof.
  split; [reflexivity|]. eexists _, _. split; [vm_compute; reflexivity|].
  by vm_compute.
Qed.
(** ** Properties of the selector *)

(** On the compared pairs the model computes what the kernel's binary64
    operations compute. *)
Example float64_agrees_with_binary64 : forallb agreesOn comparedPairs = true.
Proof. vm_compute. reflexivity. Qed.

(** *** float64 on integers below [2^53] *)

Lemma Qred_inject_Z (z : Z) : Qred (inject_Z z) = inject_Z z.
Proof. apply Qcanon.Qred_identity. simpl. apply Z.gcd_1_r. Qed.

Lemma scaleZ_shift (n e : Z) :
  e <= 0 → (scaleZ (n * 2 ^ (- e)) e == inject_Z n)%Q.
Proof.
  intros He. unfold scaleZ.
  destruct (Z.leb_spec 0 e) as [H0|Hneg].
  - assert (e = 0) as -> by lia. simpl. unfold Qeq. simpl. lia.
  - unfold Qeq. simpl.
    rewrite Z2Pos.id by (apply Z.pow_pos_nonneg; lia). lia.
Qed.

Lemma roundAt_int (n : positive) (e : Z) :
  e <= 0 → roundAt n 1 e = inject_Z (Zpos n).
Proof.
  intros He. unfold roundAt.
  assert (Hsc : scaled n 1 e = (Z.pos n * 2 ^ (- e), 1)).
  { unfold scaled. destruct (Z.leb_spec 0 e); [|done].
    assert (e = 0) as -> by lia. simpl. f_equal. lia. }
  rewrite Hsc, Z.div_1_r, Z.mod_1_r. simpl nearestEven.
  rewrite <- (Qred_inject_Z (Z.pos n)).
  apply Qred_complete. by apply scaleZ_shift.
Qed.

Lemma roundPos_int (n : positive) :
  Zpos n < 2 ^ 53 → roundPos n 1 = inject_Z (Zpos n).
Proof.
  intros Hn. unfold roundPos.
  assert (Hlog : Z.log2 (Zpos n) < 53) by (apply Z.log2_lt_pow2; lia).
  change (Z.log2 1) with 0.
  apply roundAt_int. case_match; lia.
Qed.

Lemma round64_int (q : Q) (z : Z) :
  (q == inject_Z z)%Q → Z.abs z < 2 ^ 53 → round64 q = inject_Z z.
Proof.
  intros Hq Hz. unfold round64.
  rewrite (Qred_complete _ _ Hq), Qred_inject_Z. simpl.
  destruct z as [|n|n]; [done| |].
  - apply roundPos_int. lia.
  - rewrite roundPos_int by lia. by rewrite Qred_opp, Qred_inject_Z.
Qed.

Lemma of_int_small (z : Z) : Z.abs z < 2 ^ 53 → of_int z = Fin (inject_Z z).
Proof. intros Hz. unfold of_int. by rewrite (round64_int _ z). Qed.

Lemma fadd_int (a b : Z) :
  Z.abs (a + b) < 2 ^ 53 →
  fadd (Fin (inject_Z a)) (Fin (inject_Z b)) = Fin (inject_Z (a + b)).
Proof.
  intros H. simpl. f_equal. apply round64_int; [|done].
  by rewrite inject_Z_plus.
Qed.

Lemma fsub_int (a b : Z) :
  Z.abs (a - b) < 2 ^ 53 →
  fsub (Fin (inject_Z a)) (Fin (inject_Z b)) = Fin (inject_Z (a - b)).
Proof.
  intros H. simpl. f_equal. apply round64_int; [|done].
  unfold Z.sub, Qminus. by rewrite inject_Z_plus, inject_Z_opp.
Qed.

Lemma fmul_int (a b : Z) :
  Z.abs (a * b) < 2 ^ 53 →
  fmul (Fin (inject_Z a)) (Fin (inject_Z b)) = Fin (inject_Z (a * b)).
Proof.
  intros H. simpl. f_equal. apply round64_int; [|done].
  by rewrite inject_Z_mult.
Qed.

Lemma fdiv_int (a b c : Z) :
  b ≠ 0 → a = b * c → Z.abs c < 2 ^ 53 →
  fdiv (Fin (inject_Z a)) (Fin (inject_Z b)) = Fin (inject_Z c).
Proof.
  intros Hb -> Hc. simpl.
  assert (Hnz : ¬ (inject_Z b == 0)%Q).
  { unfold Qeq. simpl. lia. }
  destruct (Qeq_bool (inject_Z b) 0) eqn:E.
  { by apply Qeq_bool_iff in E. }
  f_equal. apply round64_int; [|done].
  rewrite inject_Z_mult. by field.
Qed.

Lemma fsqrt_zero : fsqrt (Fin (inject_Z 0)) = Fin (inject_Z 0).
Proof. reflexivity. Qed.

Lemma to_int_int (z : Z) : Z.abs z < 2 ^ 53 → to_int (Fin (inject_Z z)) = z.
Proof.
  intros Hz. simpl. rewrite Z.quot_1_r.
  destruct (Z.leb_spec (- 2 ^ 63) z), (Z.ltb_spec z (2 ^ 63)); simpl; lia.
Qed.

Lemma roundAt_nonneg (n d : positive) (e : Z) : (0 <= roundAt n d e)%Q.
Proof.
  unfold roundAt.
  assert (Hab : 0 <= (scaled n d e).1 ∧ 0 < (scaled n d e).2).
  { unfold scaled. destruct (Z.leb_spec 0 e); simpl.
    - split; [lia|]. apply Z.mul_pos_pos; [lia|]. by apply Z.pow_pos_nonneg.
    - split; [|lia]. apply Z.mul_nonneg_nonneg; [lia|]. apply Z.pow_nonneg. lia. }
  destruct (scaled n d e) as [a b]. simpl in Hab. destruct Hab as [Ha Hb].
  rewrite Qred_correct.
  assert (Hm : 0 <= nearestEven (a / b) (2 * (a mod b) ?= b)).
  { pose proof (Z.div_pos a b Ha Hb).
    unfold nearestEven. repeat case_match; lia. }
  revert Hm. generalize (nearestEven (a / b) (2 * (a mod b) ?= b)). intros m Hm.
  unfold scaleZ. destruct (0 <=? e); unfold Qle; simpl.
  - pose proof (Z.pow_nonneg 2 e). nia.
  - lia.
Qed.

Lemma roundPos_nonneg (n d : positive) : (0 <= roundPos n d)%Q.
Proof. apply roundAt_nonneg. Qed.

Lemma flt_of_int_ge (k s : Z) :
  0 <= k < 2 ^ 53 → s <= k → flt (of_int k) (of_int s) = false.
Proof.
  intros Hk Hs. rewrite (of_int_small k) by lia.
  destruct (Z.lt_ge_cases (- 2 ^ 53) s) as [Hsmall|Hbig].
  - rewrite (of_int_small s) by lia. simpl.
    unfold Qcompare. simpl. rewrite !Z.mul_1_r.
    destruct (Z.compare_spec k s); (done || lia).
  - unfold of_int, round64. rewrite Qred_inject_Z.
    destruct s as [|n|n]; simpl Qnum; cbv iota; try lia.
    cbn [flt]. pose proof (roundPos_nonneg n 1) as Hr.
    destruct (Qcompare_spec (inject_Z k) (Qred (- roundPos n (Qden (inject_Z (Z.neg n)))))) as [?|Hlt|?];
      [done| |done].
    rewrite Qred_correct in Hlt. simpl in Hlt.
    assert (0 <= inject_Z k)%Q by (unfold Qle; simpl; lia).
    exfalso. apply (Qlt_not_le _ _ Hlt).
    apply Qle_trans with 0%Q; [|done].
    apply (Qopp_le_compat 0) in Hr. done.
Qed.

(** *** Lists and maps used by the page *)

Lemma filterOut_elem (eliminate : gset string) (candidates : list string) (ip : string) :
  ip ∈ filterOut eliminate candidates ↔ ip ∈ candidates ∧ ip ∉ eliminate.
Proof. unfold filterOut. rewrite list_elem_of_filter. tauto. Qed.

Lemma countsOf_fold (all : gmap string Z) (ips : list string) :
  ∀ (acc : gmap string Z) (ip : string),
    fold_left (λ m ip, <[ip := getZ all ip]> m) ips acc !! ip
    = if bool_decide (ip ∈ ips) then Some (getZ all ip) else acc !! ip.
Proof.
  induction ips as [|x ips IH]; intros acc ip; simpl; [done|].
  rewrite IH. destruct (decide (ip ∈ ips)) as [Hin|Hnin].
  - rewrite !bool_decide_eq_true_2; [done|by right|done].
  - rewrite (bool_decide_eq_false_2 (ip ∈ ips)) by done.
    destruct (decide (x = ip)) as [->|Hne].
    + rewrite lookup_insert_eq, bool_decide_eq_true_2; [done|by left].
    + rewrite lookup_insert_ne by done.
      rewrite bool_decide_eq_false_2; [done|].
      intros Hin. apply elem_of_cons in Hin as [?|?]; congruence.
Qed.

Lemma countsOf_lookup (all : gmap string Z) (ips : list string) (ip : string) (c : Z) :
  countsOf all ips !! ip = Some c ↔ ip ∈ ips ∧ c = getZ all ip.
Proof.
  unfold countsOf. rewrite countsOf_fold, lookup_empty.
  case_bool_decide; split; [by intros [= <-]|by intros [_ ->]|done|tauto].
Qed.

Lemma sortInts_perm (l : list Z) : sortInts l ≡ₚ l.
Proof. apply merge_sort_Permutation. Qed.

(** *** The first loop *)

Lemma passIP_fold (k : Z) (f1 f2 f3 f4 : bool) (ips : list string) :
  ∀ acc : Pass,
    let r := fold_left (passIP k f1 f2 f3 f4) ips acc in
    ips_one_per_server r = ips_one_per_server acc
    ∧ (∀ ip, ips_all r !! ip
             = if bool_decide (ip ∈ ips) then Some k else ips_all acc !! ip)
    ∧ (∀ ip, ip ∈ ips_skip_1010 r
             ↔ ip ∈ ips_skip_1010 acc ∨ (f1 = true ∧ ip ∈ ips)).
Proof.
  induction ips as [|x ips IH]; intros acc r; subst r; simpl.
  { split; [done|]. split; [done|]. intros ip. rewrite elem_of_nil. tauto. }
  destruct (IH (passIP k f1 f2 f3 f4 acc x)) as (IH1 & IH2 & IH3).
  split; [by rewrite IH1|]. split.
  - intros ip. rewrite IH2. simpl.
    destruct (decide (ip ∈ ips)) as [Hin|Hnin].
    + rewrite !bool_decide_eq_true_2; [done|by right|done].
    + rewrite (bool_decide_eq_false_2 (ip ∈ ips)) by done.
      destruct (decide (x = ip)) as [->|Hne].
      * rewrite lookup_insert_eq, bool_decide_eq_true_2; [done|by left].
      * rewrite lookup_insert_ne by done.
        rewrite bool_decide_eq_false_2; [done|].
        intros Hin. apply elem_of_cons in Hin as [?|?]; congruence.
  - intros ip. rewrite IH3, elem_of_cons. simpl.
    destruct f1; [rewrite elem_of_union, elem_of_singleton|];
      split; intros H; intuition (subst; auto; discriminate).
Qed.


(** *** Buckets *)

Lemma pickLargest_keep (buckets : gmap Z (list Z)) (keys : list Z) :
  ∀ best : Z * nat,
    (∀ k, k ∈ keys → (length (default [] (buckets !! k)) <= best.2)%nat) →
    fold_left
      (λ best k, let n := length (default [] (buckets !! k)) in
                 if (best.2 <? n)%nat then (k, n) else best)
      keys best = best.
Proof.
  induction keys as [|k keys IH]; intros best Hle; simpl; [done|].
  assert (Hk : (length (default [] (buckets !! k)) <= best.2)%nat)
    by (apply Hle; by left).
  destruct (Nat.ltb_spec best.2 (length (default [] (buckets !! k)))); [lia|].
  apply IH. intros k' Hin. apply Hle. by right.
Qed.

Lemma pickLargest_unique (buckets : gmap Z (list Z)) (k : Z) (keys : list Z) :
  ∀ best : Z * nat,
    k ∈ keys →
    (∀ k', k' ∈ keys → k' ≠ k →
       (length (default [] (buckets !! k')) < length (default [] (buckets !! k)))%nat) →
    (best.2 < length (default [] (buckets !! k)))%nat →
    fold_left
      (λ best k, let n := length (default [] (buckets !! k)) in
                 if (best.2 <? n)%nat then (k, n) else best)
      keys best = (k, length (default [] (buckets !! k))).
Proof.
  induction keys as [|a keys IH]; intros best Hin Hlt Hbest; simpl.
  { by apply elem_of_nil in Hin. }
  destruct (decide (a = k)) as [->|Hne].
  - destruct (Nat.ltb_spec best.2 (length (default [] (buckets !! k)))); [|lia].
    apply pickLargest_keep. intros k' Hk'. simpl.
    destruct (decide (k' = k)) as [->|Hne']; [done|].
    apply Nat.lt_le_incl, Hlt; [by right|done].
  - apply elem_of_cons in Hin as [?|Hin]; [congruence|].
    assert (Ha : (length (default [] (buckets !! a))
                  < length (default [] (buckets !! k)))%nat)
      by (apply Hlt; [by left|done]).
    apply IH; [done| |].
    + intros k' Hk' Hne'. apply Hlt; [by right|done].
    + by destruct (Nat.ltb_spec best.2 (length (default [] (buckets !! a)))).
Qed.

(** *** Statistics of equal counts *)

Lemma all_equal_replicate (K : Z) (l : list Z) :
  (∀ x, x ∈ l → x = K) → l = replicate (length l) K.
Proof.
  induction l as [|x l IH]; intros H; simpl; [done|].
  rewrite (H x) by (by left). f_equal. apply IH. intros y Hy. apply H. by right.
Qed.

Lemma wrap_small (z : Z) : in_int z → wrap z = z.
Proof.
  unfold in_int, wrap. intros H.
  rewrite Z.mod_small by lia. lia.
Qed.

Lemma sumInts_replicate (n : nat) (K : Z) :
  0 <= K → Z.of_nat n * K < 2 ^ 63 → sumInts (replicate n K) = Z.of_nat n * K.
Proof.
  intros HK Hn. unfold sumInts.
  assert (H : ∀ (m : nat) (a : Z),
            0 <= a → a + Z.of_nat m * K < 2 ^ 63 →
            fold_left (λ a v, wrap (a + v)) (replicate m K) a = a + Z.of_nat m * K).
  { induction m as [|m IH]; intros a Ha Hb; simpl; [lia|].
    rewrite wrap_small by (unfold in_int; nia).
    rewrite IH; nia. }
  rewrite H; lia.
Qed.

Lemma sumSquares_replicate (n : nat) (K : Z) :
  Z.abs K < 2 ^ 53 →
  sumSquares (Fin (inject_Z K)) (replicate n K) = Fin (inject_Z 0).
Proof.
  intros HK. unfold sumSquares. rewrite (of_int_small 0) by done.
  induction n as [|n IH]; cbn [fold_left replicate]; [done|].
  rewrite (of_int_small K), (fsub_int K K), Z.sub_diag by (rewrite ?Z.sub_diag; lia).
  rewrite (fmul_int 0 0) by done. change (0 * 0) with 0.
  rewrite (fadd_int 0 0) by done. apply IH.
Qed.

Lemma sum_of_counts (all : gmap string Z) (K : Z) (l : list string) :
  0 <= K → Z.of_nat (length l) * K < 2 ^ 53 →
  (∀ ip, ip ∈ l → getZ all ip = K) →
  fold_left (λ acc ip, fadd acc (of_int (getZ all ip))) l (of_int 0)
  = Fin (inject_Z (Z.of_nat (length l) * K)).
Proof.
  intros HK Hn Hall. rewrite (of_int_small 0) by done.
  assert (H : ∀ (l : list string) (a : Z),
            0 <= a → a + Z.of_nat (length l) * K < 2 ^ 53 →
            (∀ ip, ip ∈ l → getZ all ip = K) →
            fold_left (λ acc ip, fadd acc (of_int (getZ all ip))) l
                      (Fin (inject_Z a))
            = Fin (inject_Z (a + Z.of_nat (length l) * K))).
  { clear l Hn Hall.
    induction l as [|ip l IH]; intros a Ha Hb Hall; cbn [fold_left length] in *.
    { f_equal. f_equal. lia. }
    rewrite (Hall ip) by (by left).
    rewrite (of_int_small K), (fadd_int a K) by nia.
    rewrite IH; [f_equal; f_equal; lia|lia|nia|].
    intros ip' Hin. apply Hall. by right. }
  rewrite (H l 0); [done|done|lia|done].
Qed.

(** Mean and deviation of [n] counts all equal to [K]. *)
Lemma stats_of_equal (n : nat) (K : Z) (total sq : float64) :
  (0 < n)%nat → 0 < K → Z.of_nat n * K < 2 ^ 53 →
  total = Fin (inject_Z (Z.of_nat n * K)) →
  fdiv total (of_int (Z.of_nat n)) = Fin (inject_Z K)
  ∧ (sq = Fin (inject_Z 0) →
     fsqrt (fdiv sq (of_int (Z.of_nat n))) = Fin (inject_Z 0)).
Proof.
  intros Hn HK Hb ->.
  rewrite (of_int_small (Z.of_nat n)) by nia. split.
  - apply fdiv_int; [lia|done|nia].
  - intros ->. rewrite (fdiv_int 0 (Z.of_nat n) 0); [done|lia|lia|done].
Qed.

Lemma firstBounds_replicate (n : nat) (K : Z) :
  (0 < n)%nat → 0 < K → Z.of_nat n * K < 2 ^ 53 →
  firstBounds (replicate n K) = (K, K).
Proof.
  intros Hn HK Hb. unfold firstBounds, firstStats.
  rewrite length_replicate, sumInts_replicate by lia.
  destruct (stats_of_equal n K (of_int (Z.of_nat n * K)) (Fin (inject_Z 0)))
    as [Hmean Hsd]; [done..|by apply of_int_small; lia|].
  rewrite Hmean, sumSquares_replicate by nia. rewrite Hsd by done.
  rewrite (of_int_small 5), (fmul_int 5 0) by done. change (5 * 0) with 0.
  rewrite (fsub_int K 0), (fadd_int K 0) by nia.
  rewrite Z.sub_0_r, Z.add_0_r, to_int_int by nia. done.
Qed.

Lemma filter_all {A : Type} (P : A → Prop) `{∀ x, Decision (P x)} (l : list A) :
  (∀ x, x ∈ l → P x) → filter P l = l.
Proof.
  induction l as [|x l IH]; intros Hall; [done|].
  rewrite filter_cons_True by (apply Hall; by left).
  f_equal. apply IH. intros y Hy. apply Hall. by right.
Qed.

Lemma filter_none {A : Type} (P : A → Prop) `{∀ x, Decision (P x)} (l : list A) :
  (∀ x, x ∈ l → ¬ P x) → filter P l = [].
Proof.
  induction l as [|x l IH]; intros Hall; [done|].
  rewrite filter_cons_False by (apply Hall; by left).
  apply IH. intros y Hy. apply Hall. by right.
Qed.
Section SelectorProofs.

Variable kBUCKET_SIZE : Z.
Variable flKeysSanityMin : Z.
Variable flKeysDailyJitter : Z.
Variable SksVersion : Type.
Variable NewSksVersion : string → option SksVersion.
Variable IsAtLeast : SksVersion → SksVersion → bool.
Variable serverHeadersNative : gset string.
Variable CountrySet : Type.
Variable NewCountrySet : string → CountrySet.
Variable HasCountry : CountrySet → string → bool.
Variable shuffle : nat → ∀ A : Type, list A → list A.

(** Whatever the order, a loop over a map meets every entry once. *)
Hypothesis shuffle_perm : ∀ (i : nat) (A : Type) (l : list A), shuffle i A l ≡ₚ l.

Lemma rangeMap_perm `{Countable K} {V : Type} (site : nat) (m : gmap K V) :
  rangeMap shuffle site m ≡ₚ map_to_list m.
Proof. apply shuffle_perm. Qed.

Lemma rangeMap_elem `{Countable K} {V : Type} (site : nat) (m : gmap K V) k v :
  (k, v) ∈ rangeMap shuffle site m ↔ m !! k = Some v.
Proof. rewrite rangeMap_perm. apply elem_of_map_to_list. Qed.

Lemma rangeMap_keys `{Countable K} {V : Type} (site : nat) (m : gmap K V) k :
  k ∈ (rangeMap shuffle site m).*1 ↔ is_Some (m !! k).
Proof.
  rewrite list_elem_of_fmap. split.
  - intros ([k' v] & -> & Hin). apply rangeMap_elem in Hin. eauto.
  - intros [v Hv]. exists (k, v). split; [done|]. by apply rangeMap_elem.
Qed.

Lemma rangeMap_values `{Countable K} {V : Type} (site : nat) (m : gmap K V) v :
  v ∈ (rangeMap shuffle site m).*2 ↔ ∃ k, m !! k = Some v.
Proof.
  rewrite list_elem_of_fmap. split.
  - intros ([k v'] & -> & Hin). apply rangeMap_elem in Hin. eauto.
  - intros [k Hk]. exists (k, v). split; [done|]. by apply rangeMap_elem.
Qed.

Lemma rangeMap_length `{Countable K} {V : Type} (site : nat) (m : gmap K V) :
  length (rangeMap shuffle site m) = size m.
Proof. rewrite rangeMap_perm. apply length_map_to_list. Qed.

Lemma boundedKeys_elem site bounds (all m : gmap string Z) ip :
  ip ∈ boundedKeys shuffle site bounds all m
  ↔ is_Some (m !! ip) ∧ withinBounds bounds all ip = true.
Proof.
  unfold boundedKeys. rewrite list_elem_of_filter, rangeMap_keys. tauto.
Qed.

Lemma firstIpsAll_lookup (one all : gmap string Z) ip c :
  firstIpsAll kBUCKET_SIZE shuffle one all !! ip = Some c
  ↔ all !! ip = Some c
    ∧ (boundsOf kBUCKET_SIZE shuffle one).1 <= c <= (boundsOf kBUCKET_SIZE shuffle one).2.
Proof.
  unfold firstIpsAll. rewrite countsOf_lookup, boundedKeys_elem.
  unfold withinBounds, getZ. split.
  - intros ([[v Hv] Hb] & ->). rewrite Hv in *. simpl in *.
    split; [done|]. apply andb_true_iff in Hb as [H1 H2].
    apply Z.leb_le in H1, H2. done.
  - intros [Hc [H1 H2]]. rewrite Hc. simpl. split; [|done].
    split; [eauto|]. apply andb_true_iff. by rewrite !Z.leb_le.
Qed.

Lemma aboveThreshold_elem (m : gmap string Z) (threshold : Z) ip :
  ip ∈ (filter (λ e : string * Z, threshold <= e.2) (rangeMap shuffle 6 m)).*1
  ↔ ∃ c, m !! ip = Some c ∧ threshold <= c.
Proof.
  rewrite list_elem_of_fmap. split.
  - intros ([k v] & -> & Hin). apply list_elem_of_filter in Hin as [Hle Hin].
    apply rangeMap_elem in Hin. eauto.
  - intros (c & Hc & Hle). exists (ip, c). split; [done|].
    apply list_elem_of_filter. split; [done|]. by apply rangeMap_elem.
Qed.

Local Abbreviation passOne :=
  (passNode SksVersion NewSksVersion IsAtLeast serverHeadersNative CountrySet HasCountry).
Local Abbreviation passLoop :=
  (passAll SksVersion NewSksVersion IsAtLeast serverHeadersNative CountrySet HasCountry).

Ltac split5 := split; [|split; [|split; [|split]]].

Lemma passNode_spec mv ltp ltc persisted node acc :
  let r := passOne mv ltp ltc persisted node acc in
  (∀ ip, ips_all r !! ip
         = if bool_decide (1 < Keycount node ∧ ip ∈ IpList node)
           then Some (Keycount node) else ips_all acc !! ip)
  ∧ (∀ ip, ip ∈ ips_skip_1010 r
           ↔ ip ∈ ips_skip_1010 acc
             ∨ (1 < Keycount node ∧ Version node = "1.0.10" ∧ ip ∈ IpList node))
  ∧ (∀ ip c, ips_one_per_server r !! ip = Some c →
       ips_one_per_server acc !! ip = Some c
       ∨ (1 < Keycount node ∧ c = Keycount node ∧ ip ∈ IpList node))
  ∧ (∀ ip, is_Some (ips_one_per_server acc !! ip) →
           is_Some (ips_one_per_server r !! ip))
  ∧ (1 < Keycount node → IpList node ≠ [] →
     ∃ ip, is_Some (ips_one_per_server r !! ip)).
Proof.
  intros r. subst r. unfold passNode.
  destruct (Z.leb_spec (Keycount node) 1) as [Hle|Hgt].
  { split5.
    - intros ip. rewrite bool_decide_eq_false_2; [done|lia].
    - intros ip. split; [tauto|]. intros [?|[? _]]; [done|lia].
    - intros ip c Hc. by left.
    - done.
    - lia. }
  set (f1 := String.eqb (Version node) "1.0.10").
  assert (Hf1 : f1 = true ↔ Version node = "1.0.10") by apply String.eqb_eq.
  destruct (IpList node) as [|first rest] eqn:Hips.
  { split5.
    - intros ip. rewrite bool_decide_eq_false_2; [done|].
      intros [_ Hin]. by apply elem_of_nil in Hin.
    - intros ip. split; [tauto|]. intros [?|(_ & _ & Hin)]; [done|].
      by apply elem_of_nil in Hin.
    - intros ip c Hc. by left.
    - done.
    - done. }
  match goal with
  | |- context [fold_left (passIP ?k ?a ?b ?c ?d) ?l ?acc0] =>
      destruct (passIP_fold k a b c d l acc0) as (F1 & F2 & F3)
  end.
  cbn [ips_one_per_server ips_all ips_skip_1010] in F1, F2, F3. split5.
  - intros ip. rewrite F2.
    destruct (decide (ip ∈ first :: rest)).
    + rewrite !bool_decide_eq_true_2; [done|split; [lia|done]|done].
    + rewrite !bool_decide_eq_false_2; [done|tauto|done].
  - intros ip. rewrite F3. fold f1. rewrite Hf1.
    split; (intros [?|?]; [by left|right]); [split; [lia|tauto]|tauto].
  - intros ip c. rewrite F1.
    destruct (decide (first = ip)) as [->|Hne].
    + rewrite lookup_insert_eq. intros [= <-]. right.
      split; [lia|]. split; [done|]. by left.
    + rewrite lookup_insert_ne by done. by left.
  - intros ip. rewrite F1.
    destruct (decide (first = ip)) as [->|Hne];
      [by rewrite lookup_insert_eq|by rewrite lookup_insert_ne].
  - intros _ _. exists first. rewrite F1. by rewrite lookup_insert_eq.
Qed.

(** What the first loop leaves in the maps, from the servers it has met. *)
Lemma passAll_spec mv ltp ltc persisted names :
  ∀ acc pass,
    passLoop mv ltp ltc persisted names acc = Some pass →
    (∀ ip c, ips_all pass !! ip = Some c →
       ips_all acc !! ip = Some c
       ∨ ∃ node, servedIn persisted names ip node ∧ Keycount node = c)
    ∧ (∀ ip, is_Some (ips_all acc !! ip)
             ∨ (∃ node, servedIn persisted names ip node) →
             is_Some (ips_all pass !! ip))
    ∧ (∀ ip, ip ∈ ips_skip_1010 pass
             ↔ ip ∈ ips_skip_1010 acc
               ∨ ∃ node, servedIn persisted names ip node
                         ∧ Version node = "1.0.10")
    ∧ (∀ ip c, ips_one_per_server pass !! ip = Some c →
         ips_one_per_server acc !! ip = Some c
         ∨ ∃ node, servedIn persisted names ip node ∧ Keycount node = c)
    ∧ ((∃ ip, is_Some (ips_one_per_server acc !! ip))
       ∨ (∃ ip node, servedIn persisted names ip node) →
       ∃ ip, is_Some (ips_one_per_server pass !! ip)).
Proof.
  induction names as [|name names IH]; intros acc pass; simpl.
  { intros [= <-]. split5.
    - intros ip c Hc. by left.
    - intros ip [?|(node & name & Hin & _)]; [done|by apply elem_of_nil in Hin].
    - intros ip. split; [by left|].
      intros [?|(node & (name & Hin & _) & _)]; [done|by apply elem_of_nil in Hin].
    - intros ip c Hc. by left.
    - intros [?|(ip & node & name & Hin & _)]; [done|by apply elem_of_nil in Hin]. }
  destruct (HostMap persisted !! name) as [node|] eqn:Hnode; [|done].
  intros Hpass.
  destruct (IH _ _ Hpass) as (A1 & A2 & A3 & A4 & A5).
  destruct (passNode_spec mv ltp ltc persisted node acc) as (N1 & N2 & N3 & N4 & N5).
  assert (Hhere : ∀ ip, 1 < Keycount node → ip ∈ IpList node →
                        servedIn persisted (name :: names) ip node).
  { intros ip ? ?. exists name. split; [by left|done]. }
  assert (Hlater : ∀ ip nd, servedIn persisted names ip nd →
                            servedIn persisted (name :: names) ip nd).
  { intros ip nd (nm & ? & ?). exists nm. split; [by right|done]. }
  assert (Hsplit : ∀ ip nd, servedIn persisted (name :: names) ip nd →
            (nd = node ∧ 1 < Keycount node ∧ ip ∈ IpList node)
            ∨ servedIn persisted names ip nd).
  { intros ip nd (nm & Hin & Hnm & Hk & Hip).
    apply elem_of_cons in Hin as [->|Hin].
    - left. rewrite Hnode in Hnm. by simplify_eq.
    - right. by exists nm. }
  split5.
  - intros ip c Hc. destruct (A1 ip c Hc) as [Hacc|(nd & Hm & Hk)].
    + rewrite N1 in Hacc. case_bool_decide as Hd; [|by left].
      simplify_eq. right. exists node. split; [|done]. destruct Hd. by apply Hhere.
    + right. exists nd. split; [by apply Hlater|done].
  - intros ip Hip. apply A2.
    destruct Hip as [Hacc|(nd & Hm)].
    + left. rewrite N1. by case_bool_decide.
    + destruct (Hsplit _ _ Hm) as [(-> & Hk & Hin)|Hl].
      * left. rewrite N1, bool_decide_eq_true_2; [eauto|done].
      * right. by exists nd.
  - intros ip. rewrite A3, N2. split.
    + intros [[?|(Hk & Hv & Hin)]|(nd & Hm & Hv)].
      * by left.
      * right. exists node. split; [by apply Hhere|done].
      * right. exists nd. split; [by apply Hlater|done].
    + intros [?|(nd & Hm & Hv)]; [by left; left|].
      destruct (Hsplit _ _ Hm) as [(-> & Hk & Hin)|Hl].
      * left. right. done.
      * right. by exists nd.
  - intros ip c Hc. destruct (A4 ip c Hc) as [Hacc|(nd & Hm & Hk)].
    + destruct (N3 ip c Hacc) as [?|(Hk & -> & Hin)]; [by left|].
      right. exists node. split; [by apply Hhere|done].
    + right. exists nd. split; [by apply Hlater|done].
  - intros Hex. apply A5.
    destruct Hex as [(ip & Hip)|(ip & nd & Hm)].
    + left. exists ip. by apply N4.
    + destruct (Hsplit _ _ Hm) as [(-> & Hk & Hin)|Hl].
      * left. apply N5; [done|]. intros Hnil. rewrite Hnil in Hin.
        by apply elem_of_nil in Hin.
      * right. by exists ip, nd.
Qed.

Local Abbreviation page :=
  (apiIpValidPage kBUCKET_SIZE flKeysSanityMin flKeysDailyJitter SksVersion
     NewSksVersion IsAtLeast serverHeadersNative CountrySet NewCountrySet
     HasCountry shuffle).
Local Abbreviation loop1 :=
  (firstLoop SksVersion NewSksVersion IsAtLeast serverHeadersNative CountrySet
     NewCountrySet HasCountry).
Local Abbreviation bounds := (boundsOf kBUCKET_SIZE shuffle).

(** The maps of the first loop in terms of the servers of the snapshot. *)
Lemma firstLoop_spec persisted form pass :
  loop1 persisted form = Some pass →
  (∀ ip c, ips_all pass !! ip = Some c →
     ∃ node, servedBy persisted ip node ∧ Keycount node = c)
  ∧ (∀ ip node, servedBy persisted ip node → is_Some (ips_all pass !! ip))
  ∧ (∀ ip, ip ∈ ips_skip_1010 pass
           ↔ ∃ node, servedBy persisted ip node ∧ Version node = "1.0.10")
  ∧ (∀ ip c, ips_one_per_server pass !! ip = Some c →
       ∃ node, servedBy persisted ip node ∧ Keycount node = c)
  ∧ ((∃ ip node, servedBy persisted ip node) →
     ∃ ip, is_Some (ips_one_per_server pass !! ip)).
Proof.
  intros Hpass. apply passAll_spec in Hpass as (A1 & A2 & A3 & A4 & A5).
  unfold servedBy. split5.
  - intros ip c Hc. by destruct (A1 ip c Hc) as [Hacc|?].
  - intros ip node Hs. apply A2. right. by exists node.
  - intros ip. rewrite A3. simpl. rewrite elem_of_empty. tauto.
  - intros ip c Hc. by destruct (A4 ip c Hc) as [Hacc|?].
  - intros Hex. apply A5. by right.
Qed.

(** C6, as the code has it.  With [threshold=1] and no other parameter,
    when the page answers with addresses the reported minimum is 1 and the
    addresses are those recorded in [ips_all] with a count within the first
    bounds, less the addresses of servers running 1.0.10.  [ips_all] holds
    the addresses of the servers with more than one key, and only those. *)
Theorem threshold_one_returns_bounded
    (persisted : PersistedHostInfo) (form : Query) (ips : list string) (t : Z) :
  form_proxies form = false →
  form_countries form = None →
  form_minimum_version form = "" →
  form_threshold form = Some 1 →
  page (Some persisted) form = Valid ips t →
  t = 1
  ∧ ∃ pass,
      loop1 persisted form = Some pass
      ∧ (∀ ip, ip ∈ ips
               ↔ (∃ c, ips_all pass !! ip = Some c
                       ∧ (bounds (ips_one_per_server pass)).1 <= c
                          <= (bounds (ips_one_per_server pass)).2)
                 ∧ ¬ ∃ node, servedBy persisted ip node
                             ∧ Version node = "1.0.10")
      ∧ (∀ ip c, ips_all pass !! ip = Some c →
           ∃ node, servedBy persisted ip node ∧ Keycount node = c ∧ 1 < c)
      ∧ (∀ ip node, servedBy persisted ip node → is_Some (ips_all pass !! ip)).
Proof.
  intros Hprox Hcountries Hmv Hthr Hpage.
  unfold apiIpValidPage in Hpage.
  destruct (loop1 persisted form) as [pass|] eqn:Hloop; [|done].
  destruct (firstLoop_spec _ _ _ Hloop) as (A1 & A2 & A3 & _ & _).
  destruct (computeThreshold _ _ _ _ _ _) as [out|computed] eqn:Hct.
  { (* an abort is not an answer with addresses *)
    unfold computeThreshold in Hct.
    repeat case_match; simplify_eq. }
  rewrite Hthr, Hprox, Hcountries in Hpage.
  unfold minimumVersionOf in Hpage. rewrite Hmv in Hpage.
  change (0 <? 1) with true in Hpage. cbv iota in Hpage.
  rewrite (bool_decide_eq_false_2 ("" ≠ "")) in Hpage by (intros H; by apply H).
  cbv zeta in Hpage.
  repeat case_bool_decide; simplify_eq.
  split; [done|]. exists pass. split; [done|]. split; [|split; [|done]].
  - intros ip. rewrite filterOut_elem, aboveThreshold_elem, A3.
    split.
    + intros [(c & Hc & _) Hn]. apply firstIpsAll_lookup in Hc. eauto.
    + intros [(c & Hc & Hb) Hn]. split; [|done].
      exists c. split; [by apply firstIpsAll_lookup|].
      destruct (A1 ip c Hc) as (node & (name & _ & _ & Hk & _) & <-). lia.
  - intros ip c Hc. destruct (A1 ip c Hc) as (node & Hs & <-).
    exists node. split; [done|]. split; [done|].
    by destruct Hs as (name & _ & _ & Hk & _).
Qed.

(** *** The buckets and the largest of them *)

Local Abbreviation inBucket b := (λ count : Z, Z.quot count kBUCKET_SIZE = b).

Lemma fillBuckets_fold (counts : list Z) :
  ∀ (acc : gmap Z (list Z)) (b : Z),
    fold_left
      (λ buckets count,
         let bucket := Z.quot count kBUCKET_SIZE in
         <[bucket := default [] (buckets !! bucket) ++ [count]]> buckets)
      counts acc !! b
    = match filter (inBucket b) counts with
      | [] => acc !! b
      | l => Some (default [] (acc !! b) ++ l)
      end.
Proof.
  induction counts as [|c counts IH]; intros acc b; simpl; [done|].
  rewrite IH. rewrite filter_cons.
  destruct (decide (Z.quot c kBUCKET_SIZE = b)) as [Hq|Hq].
  - rewrite Hq, lookup_insert_eq. simpl.
    destruct (filter (inBucket b) counts); [done|].
    by rewrite <- app_assoc.
  - by rewrite lookup_insert_ne.
Qed.

Lemma fillBuckets_lookup (counts : list Z) (b : Z) :
  fillBuckets kBUCKET_SIZE counts !! b
  = match filter (inBucket b) counts with [] => None | l => Some l end.
Proof.
  unfold fillBuckets. rewrite fillBuckets_fold, lookup_empty.
  by destruct (filter (inBucket b) counts).
Qed.

Lemma fillBuckets_default (counts : list Z) (b : Z) :
  default [] (fillBuckets kBUCKET_SIZE counts !! b) = filter (inBucket b) counts.
Proof. rewrite fillBuckets_lookup. by destruct (filter (inBucket b) counts). Qed.

Lemma fillBuckets_is_Some (counts : list Z) (b : Z) :
  is_Some (fillBuckets kBUCKET_SIZE counts !! b)
  ↔ (0 < length (default [] (fillBuckets kBUCKET_SIZE counts !! b)))%nat.
Proof.
  rewrite fillBuckets_lookup.
  destruct (filter (inBucket b) counts); simpl; split;
    intros H; (lia || eauto || by destruct H).
Qed.

(** The size of a bucket does not depend on the order of the first loop. *)
Lemma bucket_length (one : gmap string Z) (b : Z) :
  length (default [] (bucketsOf kBUCKET_SIZE shuffle one !! b))
  = length (filter (inBucket b) (map_to_list one).*2).
Proof.
  unfold bucketsOf. rewrite fillBuckets_default.
  apply Permutation_length. by rewrite rangeMap_perm.
Qed.

Lemma largestBucket_unique (buckets : gmap Z (list Z)) (k : Z) :
  (0 < length (default [] (buckets !! k)))%nat →
  (∀ k', k' ≠ k →
     (length (default [] (buckets !! k')) < length (default [] (buckets !! k)))%nat) →
  largestBucket shuffle buckets = k.
Proof.
  intros Hpos Hlt. unfold largestBucket, pickLargest.
  rewrite (pickLargest_unique buckets k); [done| | |done].
  - apply rangeMap_keys. destruct (buckets !! k); [eauto|simpl in Hpos; lia].
  - intros k' _ Hne. by apply Hlt.
Qed.

(** *** Servers that all report the same count *)

Lemma passNode_size mv ltp ltc persisted node acc :
  (size (ips_one_per_server (passOne mv ltp ltc persisted node acc))
   <= S (size (ips_one_per_server acc)))%nat.
Proof.
  unfold passNode. destruct (Keycount node <=? 1); [lia|].
  destruct (IpList node) as [|first rest] eqn:Hips; [lia|].
  match goal with
  | |- context [fold_left (passIP ?k ?a ?b ?c ?d) ?l ?acc0] =>
      destruct (passIP_fold k a b c d l acc0) as (F1 & _ & _)
  end.
  cbn [ips_one_per_server] in F1. rewrite F1.
  rewrite map_size_insert. clear F1.
  destruct (ips_one_per_server acc !! first); unfold id; lia.
Qed.

Lemma passAll_size mv ltp ltc persisted names :
  ∀ acc pass,
    passLoop mv ltp ltc persisted names acc = Some pass →
    (size (ips_one_per_server pass)
     <= size (ips_one_per_server acc) + length names)%nat.
Proof.
  induction names as [|name names IH]; intros acc pass; simpl.
  { intros [= <-]. lia. }
  destruct (HostMap persisted !! name) as [node|]; [|done].
  intros Hpass. apply IH in Hpass.
  pose proof (passNode_size mv ltp ltc persisted node acc). lia.
Qed.

Lemma passAll_total mv ltp ltc persisted names :
  (∀ name, name ∈ names → is_Some (HostMap persisted !! name)) →
  ∀ acc, is_Some (passLoop mv ltp ltc persisted names acc).
Proof.
  induction names as [|name names IH]; intros Hall acc; simpl; [eauto|].
  destruct (Hall name) as [node ->]; [by left|].
  apply IH. intros nm Hnm. apply Hall. by right.
Qed.

Lemma values_replicate `{Countable Key} site (m : gmap Key Z) (K : Z) :
  (∀ k c, m !! k = Some c → c = K) →
  (rangeMap shuffle site m).*2 = replicate (size m) K.
Proof.
  intros Hall.
  rewrite <- (rangeMap_length site m), <- (length_fmap snd).
  apply all_equal_replicate. intros x Hx.
  apply rangeMap_values in Hx as [k Hk]. by apply (Hall k).
Qed.

(** The threshold computed when every count is [K]. *)
Lemma computeThreshold_uniform (one all : gmap string Z) (K : Z) :
  one ≠ ∅ →
  (∀ ip c, one !! ip = Some c → c = K) →
  (∀ ip, is_Some (one !! ip) → all !! ip = Some K) →
  1 < K → flKeysSanityMin <= K →
  0 <= flKeysDailyJitter < 2 ^ 63 →
  Z.of_nat (size one) * K < 2 ^ 53 →
  bounds one = (K, K)
  ∧ computeThreshold kBUCKET_SIZE flKeysSanityMin flKeysDailyJitter shuffle one all
    = inr (K - flKeysDailyJitter).
Proof.
  intros Hne Hone Hall HK Hsanity Hjitter Hsize.
  set (n := size one) in *.
  assert (Hn : (0 < n)%nat).
  { destruct (decide (n = 0%nat)) as [H0|?]; [|lia].
    by apply map_size_empty_iff in H0. }
  assert (HK53 : K < 2 ^ 53) by nia.
  set (q := Z.quot K kBUCKET_SIZE).
  assert (Hbucket : ∀ b, default [] (bucketsOf kBUCKET_SIZE shuffle one !! b)
                         = if decide (b = q) then replicate n K else []).
  { intros b. unfold bucketsOf.
    rewrite fillBuckets_default, (values_replicate 0 one K Hone). fold n.
    destruct (decide (b = q)) as [->|Hb].
    - apply filter_all. intros x Hx. by apply elem_of_replicate in Hx as [-> _].
    - apply filter_none. intros x Hx Hq. apply elem_of_replicate in Hx as [-> _].
      by apply Hb. }
  assert (Hlargest : largestBucket shuffle (bucketsOf kBUCKET_SIZE shuffle one) = q).
  { apply largestBucket_unique.
    - rewrite Hbucket, decide_True, length_replicate by done. lia.
    - intros k' Hk'. rewrite !Hbucket.
      destruct (decide (k' = q)); [done|]. destruct (decide (q = q)); [|done].
      rewrite length_replicate. simpl. lia. }
  assert (Hbounds : bounds one = (K, K)).
  { unfold boundsOf. rewrite Hlargest, Hbucket, decide_True by done.
    apply firstBounds_replicate; lia. }
  split; [done|].
  assert (Hlist : firstIpsList kBUCKET_SIZE shuffle one all
                  = (rangeMap shuffle 2 one).*1).
  { unfold firstIpsList, boundedKeys. apply filter_all.
    intros ip Hip. apply rangeMap_keys in Hip.
    unfold withinBounds, getZ. rewrite Hbounds, (Hall ip Hip). simpl.
    by rewrite Z.leb_refl. }
  assert (Hlen : length (firstIpsList kBUCKET_SIZE shuffle one all) = n).
  { by rewrite Hlist, length_fmap, rangeMap_length. }
  assert (Hfirst : firstIps kBUCKET_SIZE shuffle one all = one).
  { apply map_eq. intros ip. unfold firstIps.
    destruct (one !! ip) as [c|] eqn:Hc.
    - apply countsOf_lookup. rewrite Hlist, rangeMap_keys, Hc.
      split; [eauto|]. unfold getZ. rewrite (Hall ip) by (by rewrite Hc).
      by apply (Hone ip).
    - destruct (countsOf all _ !! ip) as [c|] eqn:Hc'; [|done].
      apply countsOf_lookup in Hc' as [Hin _].
      rewrite Hlist, rangeMap_keys, Hc in Hin. by destruct Hin. }
  assert (Hsecond : secondStats kBUCKET_SIZE shuffle one all
                    = (Fin (inject_Z K), Fin (inject_Z 0))).
  { unfold secondStats. rewrite Hfirst, Hlen.
    rewrite (sum_of_counts all K); rewrite ?Hlen; [|lia|done|].
    2:{ intros ip Hip. rewrite Hlist in Hip. apply rangeMap_keys in Hip.
        unfold getZ. by rewrite (Hall ip Hip). }
    destruct (stats_of_equal n K (Fin (inject_Z (Z.of_nat n * K)))
                (Fin (inject_Z 0))) as [Hmean Hsd]; [done|lia|done|done|].
    rewrite Hmean, (values_replicate 4 one K Hone). fold n.
    rewrite sumSquares_replicate by nia. by rewrite Hsd. }
  unfold computeThreshold.
  rewrite bool_decide_eq_false_2.
  2:{ intros Hempty.
      pose proof (Hbucket q) as Hq. rewrite Hempty, lookup_empty, decide_True in Hq by done.
      destruct n; [lia|done]. }
  rewrite Hsecond, Hfirst.
  rewrite <- (of_int_small K) by lia.
  rewrite flt_of_int_ge by lia.
  rewrite (values_replicate 5 one K Hone). fold n.
  assert (Hsorted : sortInts (replicate n K) = replicate n K).
  { rewrite (all_equal_replicate K (sortInts (replicate n K))).
    - by rewrite sortInts_perm, length_replicate.
    - intros x Hx. rewrite sortInts_perm in Hx.
      by apply elem_of_replicate in Hx as [-> _]. }
  rewrite Hsorted, lookup_replicate_2 by lia.
  rewrite to_int_int, Z.add_0_r by done.
  rewrite (wrap_small flKeysDailyJitter) by (unfold in_int; lia).
  by rewrite wrap_small by (unfold in_int; lia).
Qed.

(** C7.  When every server of the snapshot reports the same count [K],
    more than one and at least the sanity minimum, the form has no
    parameter, the daily jitter is not negative and the counts add up
    within the exact range of float64, the page reports
    [K - flKeysDailyJitter] as minimum and answers with every address of
    the servers except those of servers running 1.0.10.  It answers
    INVALID only when there is no such address. *)
Theorem uniform_keycount_threshold
    (persisted : PersistedHostInfo) (form : Query) (K : Z) :
  Forall (λ name, Keycount <$> HostMap persisted !! name = Some K)
         (Sorted persisted) →
  1 < K →
  flKeysSanityMin <= K →
  form_proxies form = false →
  form_countries form = None →
  form_minimum_version form = "" →
  form_threshold form = None →
  0 <= flKeysDailyJitter < 2 ^ 63 →
  Z.of_nat (length (Sorted persisted)) * K < 2 ^ 53 →
  let returned ip :=
    (∃ node, servedBy persisted ip node)
    ∧ ¬ ∃ node, servedBy persisted ip node ∧ Version node = "1.0.10" in
  match page (Some persisted) form with
  | Valid ips t =>
      t = K - flKeysDailyJitter ∧ ∀ ip, ip ∈ ips ↔ returned ip
  | Invalid _ => ∀ ip, ¬ returned ip
  | Panic => False
  end.
Proof.
  intros Hsame HK Hsanity Hprox Hcountries Hmv Hthr Hjitter Hrange returned.
  rewrite Forall_forall in Hsame.
  assert (Htotal : is_Some (loop1 persisted form)).
  { unfold firstLoop. apply passAll_total. intros name Hin.
    specialize (Hsame name Hin).
    destruct (HostMap persisted !! name); [eauto|done]. }
  destruct Htotal as [pass Hloop].
  pose proof (passAll_size _ _ _ _ _ _ _ Hloop) as Hsize.
  change (size (ips_one_per_server emptyPass)) with (size (∅ : gmap string Z)) in Hsize.
  rewrite map_size_empty in Hsize.
  destruct (firstLoop_spec _ _ _ Hloop) as (A1 & A2 & A3 & A4 & A5).
  assert (Hserved : ∀ ip node, servedBy persisted ip node → Keycount node = K).
  { intros ip node (name & Hin & Hnode & _). specialize (Hsame name Hin).
    rewrite Hnode in Hsame. by injection Hsame. }
  set (one := ips_one_per_server pass) in *.
  set (all := ips_all pass) in *.
  assert (Hone : ∀ ip c, one !! ip = Some c → c = K).
  { intros ip c Hc. destruct (A4 ip c Hc) as (node & Hs & <-). by eapply Hserved. }
  assert (Hall : ∀ ip c, all !! ip = Some c → c = K).
  { intros ip c Hc. destruct (A1 ip c Hc) as (node & Hs & <-). by eapply Hserved. }
  assert (Hsub : ∀ ip, is_Some (one !! ip) → all !! ip = Some K).
  { intros ip [c Hc]. destruct (A4 ip c Hc) as (node & Hs & _).
    destruct (A2 ip node Hs) as [c' Hc']. by rewrite Hc', (Hall ip c' Hc'). }
  unfold apiIpValidPage. rewrite Hloop. fold one all.
  destruct (decide (one = ∅)) as [Hempty|Hne].
  { assert (Hb : bucketsOf kBUCKET_SIZE shuffle one = ∅).
    { unfold bucketsOf, rangeMap. rewrite Hempty, map_to_list_empty.
      by rewrite (proj1 (Permutation_nil_r _) (shuffle_perm 0 _ [])). }
    unfold computeThreshold. rewrite bool_decide_eq_true_2 by done.
    intros ip [[node Hs] _].
    destruct A5 as [ip' Hip']; [by exists ip, node|].
    rewrite Hempty, lookup_empty in Hip'. by destruct Hip'. }
  destruct (computeThreshold_uniform one all K) as [Hbounds ->]; [done..|nia|].
  rewrite Hthr, Hprox, Hcountries. unfold minimumVersionOf. rewrite Hmv.
  rewrite (bool_decide_eq_false_2 ("" ≠ "")) by (intros H; by apply H).
  cbv zeta.
  assert (Hraw : ∀ ip,
            ip ∈ (filter (λ e : string * Z, K - flKeysDailyJitter <= e.2)
                    (rangeMap shuffle 6 (firstIpsAll kBUCKET_SIZE shuffle one all))).*1
            ↔ ∃ node, servedBy persisted ip node).
  { intros ip. rewrite aboveThreshold_elem. split.
    - intros (c & Hc & _). apply firstIpsAll_lookup in Hc as [Hc _].
      destruct (A1 ip c Hc) as (node & Hs & _). eauto.
    - intros [node Hs]. destruct (A2 ip node Hs) as [c Hc].
      pose proof (Hall ip c Hc) as ->. exists K. split; [|lia].
      apply firstIpsAll_lookup. rewrite Hbounds. simpl. split; [done|lia]. }
  assert (Hret : ∀ ip,
            ip ∈ filterOut (ips_skip_1010 pass)
                   (filter (λ e : string * Z, K - flKeysDailyJitter <= e.2)
                      (rangeMap shuffle 6 (firstIpsAll kBUCKET_SIZE shuffle one all))).*1
            ↔ returned ip).
  { intros ip. subst returned. by rewrite filterOut_elem, Hraw, A3. }
  repeat case_bool_decide;
    match goal with
    | |- _ ∧ _ => split; [done|apply Hret]
    | H : filterOut _ _ = [] |- _ =>
        intros ip Hr; apply Hret in Hr; rewrite H in Hr; by apply elem_of_nil in Hr
    | H : _ = [] |- _ =>
        intros ip [Hs _]; apply Hraw in Hs; rewrite H in Hs; by apply elem_of_nil in Hs
    end.
Qed.

End SelectorProofs.

(** *** The selector on the samples *)

Lemma asListed_perm (i : nat) (A : Type) (l : list A) : asListed i A l ≡ₚ l.
Proof. done. Qed.

Lemma reversed_perm (i : nat) (A : Type) (l : list A) : reversed i A l ≡ₚ l.
Proof. unfold reversed. symmetry. apply Permutation_rev. Qed.

(** C6 as stated fails.  A server with exactly one key, inside the first
    bounds and not running 1.0.10, is left out of the answer; and a
    snapshot whose second mean is below the sanity minimum is answered
    with INVALID although its one server is inside the bounds. *)
Lemma single_key_server_not_returned :
  samplePage asListed (Some singleKeyInBounds) thresholdOne
  = Valid ["192.0.2.1"; "192.0.2.2"] 1
  ∧ (λ pass, boundsOf 1000 asListed (ips_one_per_server pass))
      <$> firstLoop unit (λ _, Some tt) (λ _ _, true) ∅ unit (λ _, tt)
            (λ _ _, false) singleKeyInBounds thresholdOne
    = Some (-998, 3997)
  ∧ (λ node, (Keycount node, Version node, IpList node))
      <$> HostMap singleKeyInBounds !! "c.example"
    = Some (1, "1.1.4", ["192.0.2.3"])
  ∧ samplePage asListed (Some belowSanity) thresholdOne = Invalid broken_data.
Proof.
  split; [vm_compute; reflexivity|].
  split; [vm_compute; reflexivity|].
  split; vm_compute; reflexivity.
Qed.

Lemma threshold_one_returns_bounded_witness :
  1 = 1
  ∧ ∃ pass,
      firstLoop unit (λ _, Some tt) (λ _ _, true) ∅ unit (λ _, tt) (λ _ _, false)
        singleKeyInBounds thresholdOne = Some pass
      ∧ (∀ ip, ip ∈ ["192.0.2.1"; "192.0.2.2"]
               ↔ (∃ c, ips_all pass !! ip = Some c
                       ∧ (boundsOf 1000 asListed (ips_one_per_server pass)).1 <= c
                          <= (boundsOf 1000 asListed (ips_one_per_server pass)).2)
                 ∧ ¬ ∃ node, servedBy singleKeyInBounds ip node
                             ∧ Version node = "1.0.10")
      ∧ (∀ ip c, ips_all pass !! ip = Some c →
           ∃ node, servedBy singleKeyInBounds ip node ∧ Keycount node = c ∧ 1 < c)
      ∧ (∀ ip node, servedBy singleKeyInBounds ip node →
                    is_Some (ips_all pass !! ip)).
Proof.
  apply (threshold_one_returns_bounded 1000 1000 100 unit (λ _, Some tt)
           (λ _ _, true) ∅ unit (λ _, tt) (λ _ _, false) asListed asListed_perm
           singleKeyInBounds thresholdOne ["192.0.2.1"; "192.0.2.2"] 1);
    [reflexivity | reflexivity | reflexivity | reflexivity |
     vm_compute; reflexivity].
Defined.

Lemma uniform_keycount_threshold_witness :
  match samplePage asListed (Some uniformCluster) noFilters with
  | Valid ips t =>
      t = 5000 - 100
      ∧ ∀ ip, ip ∈ ips
              ↔ (∃ node, servedBy uniformCluster ip node)
                ∧ ¬ ∃ node, servedBy uniformCluster ip node
                            ∧ Version node = "1.0.10"
  | Invalid _ =>
      ∀ ip, ¬ ((∃ node, servedBy uniformCluster ip node)
               ∧ ¬ ∃ node, servedBy uniformCluster ip node
                           ∧ Version node = "1.0.10")
  | Panic => False
  end.
Proof.
  apply (uniform_keycount_threshold 1000 1000 100 unit (λ _, Some tt)
           (λ _ _, true) ∅ unit (λ _, tt) (λ _ _, false) asListed asListed_perm
           uniformCluster noFilters 5000);
    [ repeat (constructor; [reflexivity|]); constructor
    | lia | lia | reflexivity | reflexivity | reflexivity | reflexivity
    | lia | vm_compute; reflexivity ].
Defined.

(** The sample cluster: the minimum is 4900 and the address of the server
    running 1.0.10 is left out. *)
Example uniform_cluster_answer :
  samplePage asListed (Some uniformCluster) noFilters
  = Valid ["192.0.2.3"; "192.0.2.1"; "2001:db8::1"] 4900.
Proof. vm_compute. reflexivity. Qed.

(** ** Further properties of the spider *)

(** *** Folds and lists *)

Lemma started_app (e1 e2 : list Effect) : started (e1 ++ e2) = started e1 + started e2.
Proof. induction e1 as [|e e1 IH]; simpl; [done|]. rewrite IH. lia. Qed.

Lemma started_nonneg (eff : list Effect) : 0 <= started eff.
Proof.
  induction eff as [|e eff IH]; simpl; [done|].
  assert (0 <= unitsOf e); [destruct e; simpl; lia|lia].
Qed.



Lemma fold_insert_const {V} (v : V) (l : list string) :
  ∀ (m : gmap string V) (k : string),
    fold_left (λ m k', <[k' := v]> m) l m !! k
    = if bool_decide (k ∈ l) then Some v else m !! k.
Proof.
  induction l as [|x l IH]; intros m k; simpl; [done|].
  rewrite IH. destruct (decide (k ∈ l)) as [Hin|Hnin].
  - rewrite !bool_decide_eq_true_2; [done|by right|done].
  - rewrite (bool_decide_eq_false_2 (k ∈ l)) by done.
    destruct (decide (x = k)) as [->|Hne].
    + rewrite lookup_insert_eq, bool_decide_eq_true_2; [done|by left].
    + rewrite lookup_insert_ne by done.
      rewrite bool_decide_eq_false_2; [done|].
      intros Hin. apply elem_of_cons in Hin as [?|?]; congruence.
Qed.

Lemma fold_insert_const_is_Some {V} (v : V) (l : list string)
    (m : gmap string V) (k : string) :
  is_Some (m !! k) → is_Some (fold_left (λ m k', <[k' := v]> m) l m !! k).
Proof. intros H. rewrite fold_insert_const. by case_bool_decide. Qed.

Lemma flattenIPs_NoDup (ipLists : list (list string)) : NoDup (flattenIPs ipLists).
Proof.
  unfold flattenIPs.
  assert (H : ∀ (ls : list (list string)) acc,
            NoDup acc →
            NoDup (fold_left (λ result ipList, fold_left appendNew ipList result)
                             ls acc)).
  { induction ls as [|l ls IH]; intros acc Hacc; simpl; [done|].
    apply IH. by apply appendNew_fold. }
  apply H. constructor.
Qed.

Lemma flattenIPs_pair (l1 l2 : list string) (ip : string) :
  ip ∈ flattenIPs [l1; l2] ↔ ip ∈ l1 ∨ ip ∈ l2.
Proof.
  unfold flattenIPs. simpl.
  destruct (appendNew_fold l1 [] (NoDup_nil_2)) as [Hnd1 Hin1].
  destruct (appendNew_fold l2 _ Hnd1) as [_ Hin2].
  rewrite Hin2, Hin1, elem_of_nil. tauto.
Qed.

Lemma getL_NoDup s hostname :
  addressListsDistinct s → NoDup (getL (ipsForHost s) hostname).
Proof.
  intros Hinv. unfold getL. destruct (ipsForHost s !! hostname) eqn:E; simpl.
  - by eapply Hinv.
  - constructor.
Qed.

Lemma insert_distinct (m : gmap string (list string)) k l :
  (∀ h x, m !! h = Some x → NoDup x) → NoDup l →
  ∀ h x, <[k := l]> m !! h = Some x → NoDup x.
Proof.
  intros Hm Hl h x. destruct (decide (k = h)) as [->|Hne].
  - rewrite lookup_insert_eq. by intros [= <-].
  - rewrite lookup_insert_ne by done. apply Hm.
Qed.

(** *** The handlers, map by map *)

Lemma dnsFreshIP_fold_pending (hostname : string) (l : list string) :
  ∀ acc : Spider * list Effect,
    let r := fold_left (dnsFreshIP hostname) l acc in
    pending r.1 - started r.2 = pending acc.1 - started acc.2.
Proof.
  induction l as [|ip l IH]; intros acc r; subst r; simpl; [done|].
  rewrite IH. unfold dnsFreshIP.
  destruct (countriesForIPs _ !! ip); simpl; [done|].
  rewrite started_app. simpl. lia.
Qed.

Lemma dnsFreshIP_fold_maps hostname (l : list string) :
  ∀ acc : Spider * list Effect,
    let r := fold_left (dnsFreshIP hostname) l acc in
    knownHosts r.1 = knownHosts acc.1 ∧ ipsForHost r.1 = ipsForHost acc.1
    ∧ badDNS r.1 = badDNS acc.1
    ∧ ∀ ip, knownIPs r.1 !! ip
            = if bool_decide (ip ∈ l) then Some hostname
              else knownIPs acc.1 !! ip.
Proof.
  induction l as [|x l IH]; intros acc r; subst r; cbn [fold_left]; [done|].
  destruct (IH (dnsFreshIP hostname acc x)) as (Hk & Hi & Hb & Hips).
  assert (Hstep : knownHosts (dnsFreshIP hostname acc x).1 = knownHosts acc.1
                  ∧ ipsForHost (dnsFreshIP hostname acc x).1 = ipsForHost acc.1
                  ∧ badDNS (dnsFreshIP hostname acc x).1 = badDNS acc.1
                  ∧ knownIPs (dnsFreshIP hostname acc x).1
                    = <[x := hostname]> (knownIPs acc.1)).
  { unfold dnsFreshIP. by case_match. }
  destruct Hstep as (Hk1 & Hi1 & Hb1 & Hips1).
  rewrite Hk, Hi, Hb, Hk1, Hi1, Hb1. split; [done|]. split; [done|].
  split; [done|]. intros ip. rewrite Hips, Hips1.
  destruct (decide (ip ∈ l)) as [Hin|Hnin].
  - rewrite !bool_decide_eq_true_2; [done|by right|done].
  - rewrite (bool_decide_eq_false_2 (ip ∈ l)) by done.
    destruct (decide (x = ip)) as [->|Hne].
    + rewrite lookup_insert_eq, bool_decide_eq_true_2; [done|by left].
    + rewrite lookup_insert_ne by done.
      rewrite bool_decide_eq_false_2; [done|].
      intros Hin. apply elem_of_cons in Hin as [?|?]; congruence.
Qed.

(** The maps of a new host after [dnsFresh]. *)
Lemma dnsFresh_maps hostname ipList s :
  let s' := (dnsFresh hostname ipList s).1 in
  knownHosts s' = <[hostname := hostname]> (knownHosts s)
  ∧ ipsForHost s' = <[hostname := ipList]> (ipsForHost s)
  ∧ badDNS s' = badDNS s
  ∧ ∀ ip, knownIPs s' !! ip
          = if bool_decide (ip ∈ ipList) then Some hostname
            else knownIPs s !! ip.
Proof.
  unfold dnsFresh.
  match goal with
  | |- context [fold_left (dnsFreshIP ?h) ?l ?acc] =>
      pose proof (dnsFreshIP_fold_maps h l acc) as Hf
  end.
  destruct (fold_left _ _ _) as [s4 spawned]. simpl in *.
  destruct Hf as (-> & -> & -> & Hips). done.
Qed.

Lemma dnsAlias_maps hostname canonical ipList s :
  let s' := dnsAlias hostname canonical ipList s in
  knownHosts s' = <[hostname := canonical]> (knownHosts s)
  ∧ knownIPs s'
    = fold_left (λ m ip2, <[ip2 := canonical]> m) ipList (knownIPs s)
  ∧ ipsForHost s'
    = <[canonical := flattenIPs [getL (ipsForHost s) canonical; ipList]]>
        (ipsForHost s)
  ∧ badDNS s' = badDNS s.
Proof. done. Qed.

(** The maps after the renaming block of [processHostResult]. *)
Lemma renameHost_maps hostname canonical s :
  let s' := renameHost hostname canonical s in
  knownHosts s'
  = fold_left (λ m alias, <[alias := canonical]> m)
      (getL (aliasesForHost s) hostname)
      (match knownHosts s !! canonical with
       | Some _ => knownHosts s
       | None => <[canonical := canonical]> (knownHosts s)
       end)
  ∧ knownIPs s'
    = fold_left (λ m ip, <[ip := canonical]> m)
        (getL (ipsForHost s) hostname) (knownIPs s)
  ∧ ipsForHost s'
    = match ipsForHost s !! canonical with
      | None =>
          delete hostname
            (<[canonical := getL (ipsForHost s) hostname]> (ipsForHost s))
      | Some _ =>
          <[canonical := flattenIPs [getL (ipsForHost s) canonical;
                                     getL (ipsForHost s) hostname]]>
            (ipsForHost s)
      end
  ∧ aliasesForHost s'
    = delete hostname
        (<[canonical := getL (aliasesForHost s) hostname ++ [canonical]]>
           (aliasesForHost s))
  ∧ serverInfos s' = delete hostname (serverInfos s)
  ∧ badDNS s' = badDNS s.
Proof.
  unfold renameHost. cbv zeta. simpl.
  destruct (knownHosts s !! canonical); simpl;
    destruct (ipsForHost s !! canonical); simpl;
    repeat match goal with
           | |- context [match ?o with Some _ => _ | None => _ end] =>
               destruct o
           | |- context [if ?b then _ else _] => destruct b
           end; simpl.
  all: split; [reflexivity|]; split; [reflexivity|]; split; [reflexivity|];
    split; [reflexivity|]; split; reflexivity.
Qed.

Lemma renameHost_knownHosts hostname canonical s :
  (∀ h, is_Some (knownHosts s !! h) →
        is_Some (knownHosts (renameHost hostname canonical s) !! h))
  ∧ is_Some (knownHosts (renameHost hostname canonical s) !! canonical).
Proof.
  destruct (renameHost_maps hostname canonical s) as (-> & _).
  split.
  - intros h Hh. apply fold_insert_const_is_Some.
    destruct (knownHosts s !! canonical); [done|].
    apply lookup_insert_is_Some'. by right.
  - apply fold_insert_const_is_Some.
    destruct (knownHosts s !! canonical) eqn:E; [by rewrite E|].
    by rewrite lookup_insert_eq.
Qed.

Lemma renameHost_named hostname canonical s :
  addressesNamed s → addressesNamed (renameHost hostname canonical s).
Proof.
  intros Hinv ip c.
  destruct (renameHost_knownHosts hostname canonical s) as [Hg Hc].
  destruct (renameHost_maps hostname canonical s) as (_ & -> & _).
  rewrite fold_insert_const. case_bool_decide.
  - by intros [= <-].
  - intros H0. apply Hg. by eapply Hinv.
Qed.

Lemma renameHost_distinct hostname canonical s :
  addressListsDistinct s → addressListsDistinct (renameHost hostname canonical s).
Proof.
  intros Hinv. unfold addressListsDistinct.
  destruct (renameHost_maps hostname canonical s) as (_ & _ & -> & _).
  destruct (ipsForHost s !! canonical).
  - apply insert_distinct; [exact Hinv|apply flattenIPs_NoDup].
  - intros h x Hx. apply lookup_delete_Some in Hx as [_ Hx]. revert h x Hx.
    apply insert_distinct; [exact Hinv|by apply getL_NoDup].
Qed.

Lemma hostNodename_maps node canonical s :
  let s' := hostNodename node canonical s in
  knownIPs s' = knownIPs s ∧ ipsForHost s' = ipsForHost s
  ∧ badDNS s' = badDNS s ∧ aliasesForHost s' = aliasesForHost s
  ∧ serverInfos s' = serverInfos s
  ∧ (knownHosts s' = knownHosts s
     ∨ ∃ own_nodename,
         knownHosts s !! own_nodename = None
         ∧ knownHosts s' = <[own_nodename := canonical]> (knownHosts s)).
Proof.
  unfold hostNodename.
  destruct (Settings node !! "Nodename") as [own_nodename|];
    [|by repeat (split; [done|]); left].
  destruct (_ && _); [|by repeat (split; [done|]); left].
  destruct (knownHosts s !! own_nodename) eqn:E;
    [by repeat (split; [done|]); left|].
  repeat (split; [done|]). right. by exists own_nodename.
Qed.

Lemma hostCanonical_cases hostname node s :
  hostCanonical hostname node s = (hostname, s)
  ∨ ∃ own_hostname,
      Settings node !! "Hostname" = Some own_hostname
      ∧ own_hostname ≠ hostname
      ∧ hostCanonical hostname node s
        = (own_hostname, renameHost hostname own_hostname s).
Proof.
  unfold hostCanonical.
  destruct (Settings node !! "Hostname") as [own_hostname|]; [|by left].
  case_bool_decide; [|by left]. right. by exists own_hostname.
Qed.

(** How [processHostResult] returns, and the maps it leaves. *)
Lemma processHostResult_cases hr s s' eff :
  processHostResult hr s = Some (s', eff) →
  (∃ err, hr_err hr = Some err ∧ eff = []
          ∧ s' = with_queryErrors (<[hr_hostname hr := err]>) s)
  ∨ ∃ node,
      hr_err hr = None ∧ hr_node hr = Some node
      ∧ let cs := hostCanonical (hr_hostname hr) node s in
        let s2 := hostNodename node cs.1 cs.2 in
        eff = [SendBatch {| hostnames := GossipPeerList node; distance := 0;
                            origin := cs.1 |}]
        ∧ knownHosts s' = knownHosts s2 ∧ knownIPs s' = knownIPs s2
        ∧ ipsForHost s' = ipsForHost s2 ∧ badDNS s' = badDNS s2
        ∧ aliasesForHost s' = aliasesForHost s2
        ∧ serverInfos s' = <[cs.1 := Some node]> (serverInfos s2).
Proof.
  unfold processHostResult. intros H.
  destruct (hr_err hr) as [err|].
  { left. exists err. by simplify_eq. }
  destruct (hr_node hr) as [node|]; [|done].
  right. exists node. unfold BatchAddHost in H. simplify_eq. simpl.
  split; [reflexivity|]; split; [reflexivity|]; split; [reflexivity|];
    split; [reflexivity|]; split; [reflexivity|]; split; [reflexivity|];
    split; [reflexivity|]; split; reflexivity.
Qed.

Lemma processHostResult_pending hr s s' eff :
  processHostResult hr s = Some (s', eff) → pending s' = pending s + started eff.
Proof.
  unfold processHostResult. intros H.
  destruct (hr_err hr); [simplify_eq; simpl; lia|].
  destruct (hr_node hr) as [node|]; [|done].
  unfold BatchAddHost in H. simplify_eq. simpl.
  unfold hostNodename, hostCanonical, renameHost.
  repeat case_match; simpl; lia.
Qed.

Lemma processHostResult_accounted hr s s' eff :
  processHostResult hr s = Some (s', eff) →
  badDNS s' = badDNS s
  ∧ ∀ h, is_Some (knownHosts s !! h) → is_Some (knownHosts s' !! h).
Proof.
  intros H. apply processHostResult_cases in H
    as [(err & _ & _ & ->)|(node & _ & _ & H)]; [done|].
  simpl in H. destruct H as (_ & -> & _ & _ & -> & _).
  destruct (hostNodename_maps node
              (hostCanonical (hr_hostname hr) node s).1
              (hostCanonical (hr_hostname hr) node s).2)
    as (_ & _ & -> & _ & _ & Hk).
  assert (Hc : badDNS (hostCanonical (hr_hostname hr) node s).2 = badDNS s
               ∧ ∀ h, is_Some (knownHosts s !! h) →
                      is_Some (knownHosts
                                 (hostCanonical (hr_hostname hr) node s).2 !! h)).
  { destruct (hostCanonical_cases (hr_hostname hr) node s)
      as [->|(own & _ & _ & ->)]; [done|]. simpl. split.
    - by destruct (renameHost_maps (hr_hostname hr) own s)
        as (_ & _ & _ & _ & _ & ->).
    - apply renameHost_knownHosts. }
  destruct Hc as [Hb Hg]. split; [done|]. intros h Hh. apply Hg in Hh.
  destruct Hk as [->|(n & _ & ->)]; [done|].
  apply lookup_insert_is_Some'. by right.
Qed.

Lemma processHostResult_named hr s s' eff :
  processHostResult hr s = Some (s', eff) →
  addressesNamed s → addressesNamed s'.
Proof.
  intros H Hinv. apply processHostResult_cases in H
    as [(err & _ & _ & ->)|(node & _ & _ & H)]; [exact Hinv|].
  simpl in H. destruct H as (_ & Hk & Hi & _).
  destruct (hostNodename_maps node
              (hostCanonical (hr_hostname hr) node s).1
              (hostCanonical (hr_hostname hr) node s).2)
    as (Hi2 & _ & _ & _ & _ & Hk2).
  assert (Hc : addressesNamed (hostCanonical (hr_hostname hr) node s).2).
  { destruct (hostCanonical_cases (hr_hostname hr) node s)
      as [->|(own & _ & _ & ->)]; [done|]. by apply renameHost_named. }
  intros ip c. rewrite Hk, Hi, Hi2. intros H0. apply Hc in H0.
  destruct Hk2 as [->|(n & _ & ->)]; [done|].
  apply lookup_insert_is_Some'. by right.
Qed.

Lemma processHostResult_distinct hr s s' eff :
  processHostResult hr s = Some (s', eff) →
  addressListsDistinct s → addressListsDistinct s'.
Proof.
  intros H Hinv. apply processHostResult_cases in H
    as [(err & _ & _ & ->)|(node & _ & _ & H)]; [exact Hinv|].
  simpl in H. destruct H as (_ & _ & _ & Hi & _).
  destruct (hostNodename_maps node
              (hostCanonical (hr_hostname hr) node s).1
              (hostCanonical (hr_hostname hr) node s).2)
    as (_ & Hi2 & _).
  unfold addressListsDistinct. rewrite Hi, Hi2.
  destruct (hostCanonical_cases (hr_hostname hr) node s)
    as [->|(own & _ & _ & ->)]; [exact Hinv|]. by apply renameHost_distinct.
Qed.

(** *** A node that names itself otherwise than it was queried *)

(** When a probe succeeds and the node gives itself a hostname [own]
    other than the queried one, everything recorded for the queried name
    moves under [own]: the node is stored under [own] and no entry is left
    under the queried name, the aliases of the queried name become those
    of [own], with [own] added, and resolve to [own], the addresses of the
    queried name are recorded under [own], and the peers of the node are
    sent on with [own] as their origin. *)
Theorem processHostResult_moves_to_own_name
    (hr : HostResult) (node : SksNode) (own : string) (s : Spider) :
  hr_err hr = None →
  hr_node hr = Some node →
  Settings node !! "Hostname" = Some own →
  own ≠ hr_hostname hr →
  ∃ s',
    processHostResult hr s
    = Some (s', [SendBatch {| hostnames := GossipPeerList node; distance := 0;
                              origin := own |}])
    ∧ serverInfos s' !! own = Some (Some node)
    ∧ serverInfos s' !! hr_hostname hr = None
    ∧ aliasesForHost s' !! own
      = Some (getL (aliasesForHost s) (hr_hostname hr) ++ [own])
    ∧ aliasesForHost s' !! hr_hostname hr = None
    ∧ is_Some (knownHosts s' !! own)
    ∧ (∀ alias, alias ∈ getL (aliasesForHost s) (hr_hostname hr) →
                knownHosts s' !! alias = Some own)
    ∧ ∀ ip, ip ∈ getL (ipsForHost s) (hr_hostname hr) →
            knownIPs s' !! ip = Some own ∧ ip ∈ getL (ipsForHost s') own.
Proof.
  intros Herr Hnode Hown Hne.
  destruct (processHostResult hr s) as [[s' eff]|] eqn:E;
    [|unfold processHostResult in E; by rewrite Herr, Hnode in E].
  destruct (processHostResult_cases _ _ _ _ E)
    as [(err & He & _)|(node' & _ & Hn & H)]; [congruence|].
  assert (node' = node) as -> by congruence.
  assert (Hcs : hostCanonical (hr_hostname hr) node s
                = (own, renameHost (hr_hostname hr) own s)).
  { unfold hostCanonical. rewrite Hown. by rewrite bool_decide_eq_true_2. }
  rewrite Hcs in H. simpl in H. destruct H as (-> & Hk & Hi & Hl & _ & Ha & Hs).
  destruct (hostNodename_maps node own (renameHost (hr_hostname hr) own s))
    as (Hi2 & Hl2 & _ & Ha2 & Hs2 & Hk2).
  destruct (renameHost_maps (hr_hostname hr) own s)
    as (Hk3 & Hi3 & Hl3 & Ha3 & Hs3 & _).
  destruct (renameHost_knownHosts (hr_hostname hr) own s) as [_ Hown3].
  exists s'. split; [reflexivity|].
  split; [by rewrite Hs, lookup_insert_eq|].
  split.
  { rewrite Hs, lookup_insert_ne by done. rewrite Hs2, Hs3.
    apply lookup_delete_eq. }
  split.
  { rewrite Ha, Ha2, Ha3. rewrite lookup_delete_ne by done.
    by rewrite lookup_insert_eq. }
  split; [rewrite Ha, Ha2, Ha3; apply lookup_delete_eq|].
  assert (Hkeep : ∀ h v,
            knownHosts (renameHost (hr_hostname hr) own s) !! h = Some v →
            knownHosts s' !! h = Some v).
  { intros h v Hv. rewrite Hk. destruct Hk2 as [->|(n & Hnone & ->)]; [done|].
    rewrite lookup_insert_ne; [done|]. intros ->. congruence. }
  split.
  { destruct Hown3 as [v Hv]. exists v. by apply Hkeep. }
  split.
  { intros alias Hin. apply Hkeep. rewrite Hk3, fold_insert_const.
    by rewrite bool_decide_eq_true_2. }
  intros ip Hin. split.
  { rewrite Hi, Hi2, Hi3, fold_insert_const. by rewrite bool_decide_eq_true_2. }
  rewrite Hl, Hl2, Hl3. unfold getL at 1.
  destruct (ipsForHost s !! own) as [old|] eqn:Eold.
  - rewrite lookup_insert_eq. simpl. apply flattenIPs_pair. by right.
  - rewrite lookup_delete_ne by done. by rewrite lookup_insert_eq.
Qed.

Section SpiderExtras.

Variable BlacklistedHosts : gset string.
Variable blacklistedQueryHosts : list string.
Variable IPDisallowed : string → bool.
Variable ParseIP : string → bool.

Local Abbreviation consider :=
  (considerHost BlacklistedHosts blacklistedQueryHosts ParseIP).
Local Abbreviation considerEach :=
  (considerAll BlacklistedHosts blacklistedQueryHosts ParseIP).
Local Abbreviation dnsResultStep := (processDnsResult IPDisallowed).
Local Abbreviation step :=
  (selectCase BlacklistedHosts blacklistedQueryHosts IPDisallowed ParseIP).
Local Abbreviation run :=
  (spiderMainLoop BlacklistedHosts blacklistedQueryHosts IPDisallowed ParseIP).

(** Splits the result of [run] on a non-empty list of messages. *)
Lemma run_cons m msgs s s' eff :
  run (m :: msgs) s = Some (s', eff) →
  ∃ s1 e1 c e2,
    step m s = Some (s1, e1, c) ∧ run msgs s1 = Some (s', e2) ∧ eff = e1 ++ e2.
Proof.
  cbn [spiderMainLoop]. intros H.
  destruct (step m s) as [[[s1 e1] c]|] eqn:Hstep; [|done].
  assert (H' : match run msgs s1 with
               | Some (s'', eff') => Some (s'', e1 ++ eff')
               | None => None
               end = Some (s', eff)) by (by destruct c).
  destruct (run msgs s1) as [[s2 e2]|] eqn:Hrun; [|done].
  injection H' as <- <-. exists s1, e1, c, e2. split; [reflexivity|].
  split; [exact Hrun|reflexivity].
Qed.

Lemma step_None m s :
  step m s = None ↔
  ∃ hr, m = HostResultMsg hr ∧ hr_err hr = None ∧ hr_node hr = None.
Proof.
  split.
  - destruct m as [hostreq|dns|hr|cr|]; simpl.
    + by destruct (considerAll _ _ _ _ _).
    + by destruct (processDnsResult _ _ _).
    + intros H. exists hr. split; [done|].
      unfold processHostResult in H.
      destruct (hr_err hr); [done|]. by destruct (hr_node hr).
    + done.
    + done.
  - intros (hr & -> & Herr & Hnode). simpl. unfold processHostResult.
    by rewrite Herr, Hnode.
Qed.

(** *** The counter of the WaitGroup *)

Lemma considerHost_pending hostname request s :
  pending (consider hostname request s).1
  = pending s + started (consider hostname request s).2 - 1.
Proof.
  unfold considerHost.
  destruct (distances s !! hostname) as [old|];
    [destruct (old >? _)|]; destruct (skipHost _ _ _ _ _); simpl; lia.
Qed.

Lemma considerAll_pending hostreq s :
  pending (considerEach hostreq s).1
  = pending s + started (considerEach hostreq s).2
    - Z.of_nat (length (hostnames hostreq)).
Proof.
  unfold considerAll.
  assert (H : ∀ l (acc : Spider * list Effect),
    let r := fold_left
      (λ acc hostname,
         let '(s', eff) := consider hostname hostreq acc.1 in (s', acc.2 ++ eff))
      l acc in
    pending r.1 - started r.2
    = pending acc.1 - started acc.2 - Z.of_nat (length l)).
  { induction l as [|h l IH]; intros acc r; subst r; simpl length; [simpl; lia|].
    cbn [fold_left]. rewrite IH.
    pose proof (considerHost_pending h hostreq acc.1) as Hc.
    destruct (consider h hostreq acc.1) as [s' eff]. simpl in *.
    rewrite started_app. lia. }
  specialize (H (hostnames hostreq) (s, [])). simpl in H. lia.
Qed.

Lemma dnsScan_pending hostname ipList rest s s' :
  dnsScan IPDisallowed hostname ipList rest s = Some s' → pending s' = pending s.
Proof.
  induction rest as [|ip rest IH]; simpl; [done|].
  destruct (IPDisallowed ip); [by intros [= <-]|].
  destruct (knownIPs s !! ip); [by intros [= <-]|done].
Qed.

Lemma processDnsResult_pending dns s :
  pending (dnsResultStep dns s).1 = pending s + started (dnsResultStep dns s).2.
Proof.
  unfold processDnsResult. destruct (dns_err dns); [simpl; lia|].
  destruct (dnsScan _ _ _ _ _) as [s'|] eqn:E; simpl.
  { apply dnsScan_pending in E. lia. }
  unfold dnsFresh.
  match goal with
  | |- context [fold_left (dnsFreshIP ?h) ?l ?acc] =>
      pose proof (dnsFreshIP_fold_pending h l acc) as Hf
  end.
  destruct (fold_left _ _ _) as [s4 spawned]. simpl in *.
  rewrite started_app. simpl. lia.
Qed.

Lemma step_pending m s s' eff c :
  step m s = Some (s', eff, c) → pending s' = pending s + started eff - consumed m.
Proof.
  destruct m as [hostreq|dns|hr|cr|]; simpl; intros H.
  - pose proof (considerAll_pending hostreq s) as Hp.
    destruct (considerAll _ _ _ _ _) as [s1 e1]. by simplify_eq.
  - pose proof (processDnsResult_pending dns s) as Hp.
    destruct (processDnsResult _ _ _) as [s1 e1]. simplify_eq. simpl in *. lia.
  - destruct (processHostResult hr s) as [[s1 e1]|] eqn:E; [|done].
    apply processHostResult_pending in E. simplify_eq. simpl. lia.
  - simplify_eq. unfold processCountryResult. case_match; simpl; lia.
  - simplify_eq. simpl. lia.
Qed.

(** The counter moves with the work in flight: over any messages processed
    it grows by the units of work started and falls by the units the
    messages brought to their end, a rejected hostname being counted off at
    once. *)
Theorem pending_counts_work_in_flight (msgs : list Msg) (s s' : Spider)
    (eff : list Effect) :
  run msgs s = Some (s', eff) →
  pending s' = pending s + started eff - consumedAll msgs.
Proof.
  revert s s' eff. induction msgs as [|m msgs IH]; intros s s' eff H.
  { simpl in H. simplify_eq. simpl. lia. }
  apply run_cons in H as (s1 & e1 & c & e2 & Hstep & Hrun & ->).
  apply step_pending in Hstep. apply IH in Hrun.
  rewrite started_app. simpl. lia.
Qed.

(** *** Hostnames the state already accounts for *)

Lemma considerHost_frame hostname request s :
  let s' := (consider hostname request s).1 in
  knownIPs s' = knownIPs s ∧ ipsForHost s' = ipsForHost s
  ∧ knownHosts s' = knownHosts s ∧ badDNS s' = badDNS s.
Proof.
  unfold considerHost.
  destruct (distances s !! hostname) as [old|];
    [destruct (old >? _)|]; destruct (skipHost _ _ _ _ _); simpl; done.
Qed.

Lemma considerAll_frame hostreq s :
  let s' := (considerEach hostreq s).1 in
  knownIPs s' = knownIPs s ∧ ipsForHost s' = ipsForHost s
  ∧ knownHosts s' = knownHosts s ∧ badDNS s' = badDNS s.
Proof.
  unfold considerAll.
  assert (H : ∀ l (acc : Spider * list Effect),
    let r := fold_left
      (λ acc hostname,
         let '(s', eff) := consider hostname hostreq acc.1 in (s', acc.2 ++ eff))
      l acc in
    knownIPs r.1 = knownIPs acc.1 ∧ ipsForHost r.1 = ipsForHost acc.1
    ∧ knownHosts r.1 = knownHosts acc.1 ∧ badDNS r.1 = badDNS acc.1).
  { induction l as [|x l IH]; intros acc r; subst r; [done|].
    cbn [fold_left].
    destruct (IH (let '(s', eff) := consider x hostreq acc.1 in
                  (s', acc.2 ++ eff))) as (-> & -> & -> & ->).
    pose proof (considerHost_frame x hostreq acc.1) as Hf.
    destruct (consider x hostreq acc.1) as [s' eff]. exact Hf. }
  apply (H (hostnames hostreq) (s, [])).
Qed.

Lemma considerHost_accounted hostname request s h :
  accountedFor s h →
  (h ∉ dnsSpawns (consider hostname request s).2)
  ∧ accountedFor (consider hostname request s).1 h.
Proof.
  intros Hacc.
  destruct (considerHost_started BlacklistedHosts blacklistedQueryHosts ParseIP
              s hostname request) as [Hrej Hnew].
  simpl in *.
  destruct (skipHost BlacklistedHosts blacklistedQueryHosts ParseIP s hostname)
    eqn:E.
  - destruct (Hrej eq_refl) as (-> & Hc & Hb & Hk). split; [apply not_elem_of_nil|].
    unfold accountedFor. by rewrite Hc, Hb, Hk.
  - destruct (Hnew eq_refl) as (-> & Hc & Hb & Hk). split.
    + simpl. intros Hin. apply list_elem_of_singleton in Hin as ->.
      assert (Hs : skipHost BlacklistedHosts blacklistedQueryHosts ParseIP
                     s hostname = true); [|congruence].
      apply (skipHost_policy BlacklistedHosts blacklistedQueryHosts IPDisallowed
               ParseIP). by left.
    + unfold accountedFor. rewrite Hc, Hb, Hk.
      destruct Hacc as [Hin|Hin]; [left|by right].
      destruct (decide (hostname = h)) as [->|Hne];
        [by rewrite lookup_insert_eq|by rewrite lookup_insert_ne].
Qed.

Lemma considerAll_accounted hostreq s h :
  accountedFor s h →
  (h ∉ dnsSpawns (considerEach hostreq s).2)
  ∧ accountedFor (considerEach hostreq s).1 h.
Proof.
  unfold considerAll. intros Hacc.
  assert (H : ∀ l (acc : Spider * list Effect),
    let r := fold_left
      (λ acc hostname,
         let '(s', eff) := consider hostname hostreq acc.1 in (s', acc.2 ++ eff))
      l acc in
    (h ∉ dnsSpawns acc.2) ∧ accountedFor acc.1 h →
    (h ∉ dnsSpawns r.2) ∧ accountedFor r.1 h).
  { induction l as [|x l IH]; intros acc r [Hn Ha]; [done|].
    subst r. cbn [fold_left]. apply IH.
    pose proof (considerHost_accounted x hostreq acc.1 h Ha) as [Hn' Ha'].
    destruct (consider x hostreq acc.1) as [s' eff]. simpl in *.
    split; [|done]. rewrite dnsSpawns_app. intros Hin.
    apply elem_of_app in Hin as [Hin|Hin]; tauto. }
  apply (H (hostnames hostreq) (s, [])). split; [apply not_elem_of_nil|done].
Qed.

(** How the first loop of [processDnsResult] can return. *)
Lemma dnsScan_cases hostname ipList rest s s' :
  dnsScan IPDisallowed hostname ipList rest s = Some s' →
  s' = with_badDNS (<[hostname := true]>) s
  ∨ ∃ ip canonical,
      ip ∈ rest ∧ knownIPs s !! ip = Some canonical
      ∧ s' = dnsAlias hostname canonical ipList s.
Proof.
  induction rest as [|ip rest IH]; simpl; [done|].
  destruct (IPDisallowed ip); [intros [= <-]; by left|].
  destruct (knownIPs s !! ip) as [canonical|] eqn:E.
  - intros [= <-]. right. exists ip, canonical. split; [by left|done].
  - intros H. destruct (IH H) as [?|(ip' & c & Hin & Hk & ->)]; [by left|].
    right. exists ip', c. split; [by right|done].
Qed.

Lemma processDnsResult_accounted dns s :
  let s' := (dnsResultStep dns s).1 in
  (∀ h, is_Some (badDNS s !! h) → is_Some (badDNS s' !! h))
  ∧ ∀ h, is_Some (knownHosts s !! h) → is_Some (knownHosts s' !! h).
Proof.
  unfold processDnsResult. destruct (dns_err dns).
  { simpl. split; [|done]. intros h Hh. apply lookup_insert_is_Some'. by right. }
  destruct (dnsScan _ _ _ _ _) as [s1|] eqn:E.
  - apply dnsScan_cases in E as [->|(ip & c & _ & _ & ->)]; simpl.
    + split; [|done]. intros h Hh. apply lookup_insert_is_Some'. by right.
    + split; [done|]. intros h Hh. apply lookup_insert_is_Some'. by right.
  - destruct (dnsFresh_maps (dns_hostname dns) (flattenIPs [dns_ipList dns]) s)
      as (Hk & _ & Hb & _).
    simpl in *. rewrite Hk, Hb. split; [done|].
    intros h Hh. apply lookup_insert_is_Some'. by right.
Qed.

Lemma step_accounted m s s' eff c h :
  step m s = Some (s', eff, c) → accountedFor s h →
  (h ∉ dnsSpawns eff) ∧ accountedFor s' h.
Proof.
  destruct m as [hostreq|dns|hr|cr|]; simpl; intros H Hacc.
  - pose proof (considerAll_accounted hostreq s h Hacc) as Hp.
    destruct (considerAll _ _ _ _ _) as [s1 e1]. by simplify_eq.
  - pose proof (processDnsResult_considering IPDisallowed dns s) as Hc.
    destruct (processDnsResult_countries IPDisallowed dns s) as [_ He].
    destruct (processDnsResult_accounted dns s) as [Hb Hk].
    destruct (processDnsResult _ _ _) as [s1 e1]. simplify_eq. simpl in *.
    split.
    + rewrite dnsSpawns_none; [apply not_elem_of_nil|].
      intros x Hin. destruct (He _ Hin) as [?|(? & ? & _)]; discriminate.
    + unfold accountedFor in *. simpl. rewrite Hc.
      destruct Hacc as [?|[?|?]]; [by left|right; left; by apply Hb|].
      right; right; by apply Hk.
  - destruct (processHostResult hr s) as [[s1 e1]|] eqn:E; [|done].
    pose proof (processHostResult_considering _ _ _ _ E) as [Hc Hn].
    apply processHostResult_accounted in E as [Hb Hk]. simplify_eq. split.
    + rewrite dnsSpawns_none; [apply not_elem_of_nil|done].
    + unfold accountedFor in *. simpl. rewrite Hc, Hb.
      destruct Hacc as [?|[?|?]]; [by left|by right; left|].
      right; right; by apply Hk.
  - simplify_eq. split; [apply not_elem_of_nil|].
    unfold accountedFor, processCountryResult in *. by case_match.
  - simplify_eq. split; [apply not_elem_of_nil|done].
Qed.

(** A hostname that is in [considering], [badDNS] or [knownHosts] stays in
    one of them and never has a DNS lookup started for it again, whatever
    is received afterwards. *)
Theorem accounted_hostname_never_looked_up (msgs : list Msg) (s s' : Spider)
    (eff : list Effect) (hostname : string) :
  run msgs s = Some (s', eff) →
  accountedFor s hostname →
  (hostname ∉ dnsSpawns eff) ∧ accountedFor s' hostname.
Proof.
  revert s s' eff. induction msgs as [|m msgs IH]; intros s s' eff H Hacc.
  { simpl in H. simplify_eq. split; [apply not_elem_of_nil|done]. }
  apply run_cons in H as (s1 & e1 & c & e2 & Hstep & Hrun & ->).
  destruct (step_accounted _ _ _ _ _ hostname Hstep Hacc) as [Hn1 Hacc1].
  destruct (IH _ _ _ Hrun Hacc1) as [Hn2 Hacc2]. split; [|done].
  rewrite dnsSpawns_app. intros Hin. apply elem_of_app in Hin as [?|?]; tauto.
Qed.

(** *** Addresses and the hostnames they are recorded under *)

Lemma processDnsResult_named dns s :
  addressesNamed s → addressesNamed (dnsResultStep dns s).1.
Proof.
  intros Hinv. unfold processDnsResult. destruct (dns_err dns); [exact Hinv|].
  destruct (dnsScan _ _ _ _ _) as [s1|] eqn:E.
  - apply dnsScan_cases in E as [->|(ip & c & _ & Hip & ->)]; [exact Hinv|].
    intros ip0 c0. simpl. rewrite fold_insert_const.
    case_bool_decide.
    + intros [= <-]. apply lookup_insert_is_Some'. right. by eapply Hinv.
    + intros H0. apply lookup_insert_is_Some'. right. by eapply Hinv.
  - destruct (dnsFresh_maps (dns_hostname dns) (flattenIPs [dns_ipList dns]) s)
      as (Hk & _ & _ & Hips).
    intros ip0 c0. simpl in *. rewrite Hk, Hips. case_bool_decide.
    + intros [= <-]. by rewrite lookup_insert_eq.
    + intros H0. apply lookup_insert_is_Some'. right. by eapply Hinv.
Qed.

Lemma step_named m s s' eff c :
  step m s = Some (s', eff, c) → addressesNamed s → addressesNamed s'.
Proof.
  destruct m as [hostreq|dns|hr|cr|]; simpl; intros H Hinv.
  - destruct (considerAll_frame hostreq s) as (Hi & _ & Hk & _).
    destruct (considerAll _ _ _ _ _) as [s1 e1]. simplify_eq. simpl in *.
    unfold addressesNamed. by rewrite Hi, Hk.
  - pose proof (processDnsResult_named dns s Hinv) as Hp.
    destruct (processDnsResult _ _ _) as [s1 e1]. by simplify_eq.
  - destruct (processHostResult hr s) as [[s1 e1]|] eqn:E; [|done].
    apply processHostResult_named in E; [|done]. by simplify_eq.
  - simplify_eq. unfold processCountryResult. by case_match.
  - by simplify_eq.
Qed.

(** Whatever is received, every address [knownIPs] holds stays recorded
    under a hostname that is a key of [knownHosts]: a lookup of the
    hostname an address belongs to never comes back empty. *)
Theorem known_addresses_stay_named (msgs : list Msg) (s s' : Spider)
    (eff : list Effect) :
  run msgs s = Some (s', eff) → addressesNamed s → addressesNamed s'.
Proof.
  revert s s' eff. induction msgs as [|m msgs IH]; intros s s' eff H Hinv.
  { simpl in H. by simplify_eq. }
  apply run_cons in H as (s1 & e1 & c & e2 & Hstep & Hrun & ->).
  eapply IH; [exact Hrun|]. by eapply step_named.
Qed.

(** *** The address lists of the hosts *)

Lemma processDnsResult_distinct dns s :
  addressListsDistinct s → addressListsDistinct (dnsResultStep dns s).1.
Proof.
  intros Hinv. unfold processDnsResult. destruct (dns_err dns); [exact Hinv|].
  destruct (dnsScan _ _ _ _ _) as [s1|] eqn:E.
  - apply dnsScan_cases in E as [->|(ip & c & _ & Hip & ->)]; [exact Hinv|].
    unfold addressListsDistinct. simpl.
    apply insert_distinct; [exact Hinv|apply flattenIPs_NoDup].
  - destruct (dnsFresh_maps (dns_hostname dns) (flattenIPs [dns_ipList dns]) s)
      as (_ & Hi & _).
    unfold addressListsDistinct. simpl in *. rewrite Hi.
    apply insert_distinct; [exact Hinv|apply flattenIPs_NoDup].
Qed.

Lemma step_distinct m s s' eff c :
  step m s = Some (s', eff, c) →
  addressListsDistinct s → addressListsDistinct s'.
Proof.
  destruct m as [hostreq|dns|hr|cr|]; simpl; intros H Hinv.
  - destruct (considerAll_frame hostreq s) as (_ & Hi & _).
    destruct (considerAll _ _ _ _ _) as [s1 e1]. simplify_eq. simpl in *.
    unfold addressListsDistinct. by rewrite Hi.
  - pose proof (processDnsResult_distinct dns s Hinv) as Hp.
    destruct (processDnsResult _ _ _) as [s1 e1]. by simplify_eq.
  - destruct (processHostResult hr s) as [[s1 e1]|] eqn:E; [|done].
    apply processHostResult_distinct in E; [|done]. by simplify_eq.
  - simplify_eq. unfold processCountryResult. by case_match.
  - by simplify_eq.
Qed.

(** Whatever is received, no list of [ipsForHost] comes to hold an address
    twice: the lists are merged by [flattenIPs] wherever two of them meet. *)
Theorem address_lists_stay_distinct (msgs : list Msg) (s s' : Spider)
    (eff : list Effect) :
  run msgs s = Some (s', eff) →
  addressListsDistinct s → addressListsDistinct s'.
Proof.
  revert s s' eff. induction msgs as [|m msgs IH]; intros s s' eff H Hinv.
  { simpl in H. by simplify_eq. }
  apply run_cons in H as (s1 & e1 & c & e2 & Hstep & Hrun & ->).
  eapply IH; [exact Hrun|]. by eapply step_distinct.
Qed.

(** *** Panics of the loop *)




End SpiderExtras.

(** *** The spider on the sample traces, again *)

Lemma pending_counts_work_in_flight_witness :
  pending (sampleRun sharedAddressTrace).1
  = pending StartSpider + started (sampleRun sharedAddressTrace).2
    - consumedAll sharedAddressTrace.
Proof.
  apply (pending_counts_work_in_flight sampleBlacklistedHosts
           sampleQueryBlacklist sampleIPDisallowed sampleParseIP).
  vm_compute. reflexivity.
Defined.

(** ** The diagnostic counters *)

Lemma wrap_wrap_add (a b : Z) : wrap (wrap a + b) = wrap (a + b).
Proof.
  unfold wrap. f_equal.
  replace ((a + 2 ^ 63) mod 2 ^ 64 - 2 ^ 63 + b + 2 ^ 63)
    with ((a + 2 ^ 63) mod 2 ^ 64 + b) by lia.
  rewrite Zplus_mod_idemp_l. f_equal. lia.
Qed.

Lemma getZ_bump (k k' : string) (d : Z) (m : gmap string Z) :
  getZ (bump k d m) k'
  = if bool_decide (k = k') then wrap (getZ m k + d) else getZ m k'.
Proof.
  unfold bump, getZ. case_bool_decide as E.
  - subst. by rewrite lookup_insert_eq.
  - by rewrite lookup_insert_ne.
Qed.

Lemma getZ_bump_counted (k k' : string) (d n : Z) (m : gmap string Z) :
  getZ m k' = wrap n →
  getZ (bump k d m) k' = wrap (n + if bool_decide (k = k') then d else 0).
Proof.
  intros H. rewrite getZ_bump. case_bool_decide as E.
  - subst. rewrite H. apply wrap_wrap_add.
  - rewrite H. f_equal. lia.
Qed.

Lemma occurrences_cons (hostname x : string) (l : list string) :
  occurrences hostname (x :: l)
  = (if bool_decide (x = hostname) then 1 else 0) + occurrences hostname l.
Proof.
  unfold occurrences. rewrite filter_cons.
  case_bool_decide; [rewrite decide_True by done|rewrite decide_False by done];
    simpl length; lia.
Qed.

Lemma hostsInFlight_app h (e1 e2 : list Effect) :
  hostsInFlight h (e1 ++ e2) = hostsInFlight h e1 + hostsInFlight h e2.
Proof. induction e1 as [|e e1 IH]; simpl; [done|]. rewrite IH. lia. Qed.

Lemma countriesInFlight_app ip (e1 e2 : list Effect) :
  countriesInFlight ip (e1 ++ e2)
  = countriesInFlight ip e1 + countriesInFlight ip e2.
Proof. induction e1 as [|e e1 IH]; simpl; [done|]. rewrite IH. lia. Qed.

Lemma BatchAddHost_counted (hostlist : list string) (h : string) :
  ∀ (m : gmap string Z) (n : Z),
    getZ m h = wrap n →
    getZ (fold_left (λ m h, bump h 1 m) hostlist m) h
    = wrap (n + occurrences h hostlist).
Proof.
  induction hostlist as [|x l IH]; intros m n H; simpl.
  { rewrite H. f_equal. unfold occurrences. simpl. lia. }
  rewrite (IH _ (n + if bool_decide (x = h) then 1 else 0)).
  - f_equal. rewrite occurrences_cons. lia.
  - by apply getZ_bump_counted.
Qed.

(** The second loop of [processDnsResult] and the counters. *)
Lemma dnsFreshIP_fold_counted hostname (l : list string) (h ip : string) (n : Z) :
  ∀ acc : Spider * list Effect,
    let r := fold_left (dnsFreshIP hostname) l acc in
    pendingHosts r.1 = pendingHosts acc.1
    ∧ hostsInFlight h r.2 = hostsInFlight h acc.2
    ∧ (getZ (pendingCountries acc.1) ip = wrap (n + countriesInFlight ip acc.2) →
       getZ (pendingCountries r.1) ip = wrap (n + countriesInFlight ip r.2)).
Proof.
  induction l as [|x l IH]; intros acc r; subst r; cbn [fold_left]; [done|].
  destruct (IH (dnsFreshIP hostname acc x)) as (-> & -> & Hc).
  assert (Hstep :
    pendingHosts (dnsFreshIP hostname acc x).1 = pendingHosts acc.1
    ∧ hostsInFlight h (dnsFreshIP hostname acc x).2 = hostsInFlight h acc.2
    ∧ (getZ (pendingCountries acc.1) ip = wrap (n + countriesInFlight ip acc.2) →
       getZ (pendingCountries (dnsFreshIP hostname acc x).1) ip
       = wrap (n + countriesInFlight ip (dnsFreshIP hostname acc x).2))).
  { unfold dnsFreshIP. case_match; simpl; [done|].
    split; [done|]. split.
    - rewrite hostsInFlight_app. simpl. lia.
    - intros Hn. rewrite countriesInFlight_app. simpl.
      rewrite (getZ_bump_counted _ _ _ _ _ Hn). f_equal. lia. }
  destruct Hstep as (-> & -> & Hc1). split; [done|]. split; [done|].
  intros H. by apply Hc, Hc1.
Qed.

Lemma processHostResult_counters hr s s' eff :
  processHostResult hr s = Some (s', eff) →
  pendingCountries s' = pendingCountries s
  ∧ ((eff = [] ∧ pendingHosts s' = pendingHosts s)
     ∨ ∃ request,
         eff = [SendBatch request]
         ∧ pendingHosts s'
           = fold_left (λ m h, bump h 1 m) (hostnames request) (pendingHosts s)).
Proof.
  unfold processHostResult. intros H.
  destruct (hr_err hr); [simplify_eq; split; [done|by left]|].
  destruct (hr_node hr) as [node|]; [|done].
  unfold BatchAddHost in H. simplify_eq. simpl.
  assert (Hsame :
    pendingCountries
      (hostNodename node (hostCanonical (hr_hostname hr) node s).1
         (hostCanonical (hr_hostname hr) node s).2) = pendingCountries s
    ∧ pendingHosts
        (hostNodename node (hostCanonical (hr_hostname hr) node s).1
           (hostCanonical (hr_hostname hr) node s).2) = pendingHosts s).
  { unfold hostNodename, hostCanonical, renameHost.
    repeat case_match; simpl; split; reflexivity. }
  destruct Hsame as [-> ->]. split; [done|]. right. by eexists.
Qed.

Section SpiderDiagnostics.

Variable BlacklistedHosts : gset string.
Variable blacklistedQueryHosts : list string.
Variable IPDisallowed : string → bool.
Variable ParseIP : string → bool.

Local Abbreviation consider :=
  (considerHost BlacklistedHosts blacklistedQueryHosts ParseIP).
Local Abbreviation considerEach :=
  (considerAll BlacklistedHosts blacklistedQueryHosts ParseIP).
Local Abbreviation dnsResultStep := (processDnsResult IPDisallowed).
Local Abbreviation step :=
  (selectCase BlacklistedHosts blacklistedQueryHosts IPDisallowed ParseIP).

Lemma considerHost_counters x request s :
  pendingCountries (consider x request s).1 = pendingCountries s
  ∧ (((consider x request s).2 = []
      ∧ pendingHosts (consider x request s).1 = bump x (-1) (pendingHosts s))
     ∨ ((consider x request s).2 = [SpawnDns x]
        ∧ pendingHosts (consider x request s).1 = pendingHosts s)).
Proof.
  unfold considerHost.
  destruct (distances s !! x) as [old|];
    [destruct (old >? _)|]; destruct (skipHost _ _ _ _ _); simpl;
    (split; [done|]); (by left) || (by right).
Qed.

Lemma considerAll_counted hostreq s h ip (n k : Z) :
  getZ (pendingHosts s) h = wrap n →
  getZ (pendingCountries s) ip = wrap k →
  getZ (pendingHosts (considerEach hostreq s).1) h
  = wrap (n + hostsInFlight h (considerEach hostreq s).2
          - occurrences h (hostnames hostreq))
  ∧ getZ (pendingCountries (considerEach hostreq s).1) ip
    = wrap (k + countriesInFlight ip (considerEach hostreq s).2).
Proof.
  unfold considerAll. intros Hh Hc.
  assert (H : ∀ l (acc : Spider * list Effect) (n' : Z),
    let r := fold_left
      (λ acc hostname,
         let '(s', eff) := consider hostname hostreq acc.1 in (s', acc.2 ++ eff))
      l acc in
    getZ (pendingHosts acc.1) h = wrap (n' + hostsInFlight h acc.2) →
    getZ (pendingCountries acc.1) ip = wrap (k + countriesInFlight ip acc.2) →
    getZ (pendingHosts r.1) h
    = wrap (n' + hostsInFlight h r.2 - occurrences h l)
    ∧ getZ (pendingCountries r.1) ip = wrap (k + countriesInFlight ip r.2)).
  { induction l as [|x l IH]; intros acc n' r Hh' Hc'; subst r.
    { simpl. split; [|done]. rewrite Hh'. f_equal. unfold occurrences. simpl. lia. }
    cbn [fold_left]. rewrite occurrences_cons.
    destruct (considerHost_counters x hostreq acc.1) as [Hpc Hcases].
    destruct (consider x hostreq acc.1) as [s1 e1]. simpl in Hpc, Hcases.
    destruct (IH (s1, acc.2 ++ e1)
                (n' - if bool_decide (x = h) then 1 else 0)) as [IH1 IH2].
    - simpl. rewrite hostsInFlight_app.
      destruct Hcases as [[-> ->]|[-> ->]]; simpl.
      + rewrite (getZ_bump_counted _ _ _ _ _ Hh'). f_equal.
        case_bool_decide; lia.
      + rewrite Hh'. f_equal. case_bool_decide; lia.
    - simpl. rewrite Hpc, Hc', countriesInFlight_app. f_equal.
      destruct Hcases as [[-> _]|[-> _]]; simpl; lia.
    - split; [|exact IH2]. rewrite IH1. f_equal. lia. }
  destruct (H (hostnames hostreq) (s, []) n) as [H1 H2]; simpl.
  - rewrite Hh. f_equal. lia.
  - rewrite Hc. f_equal. lia.
  - split; [exact H1|exact H2].
Qed.

Lemma dnsScan_counters hostname ipList rest s s' :
  dnsScan IPDisallowed hostname ipList rest s = Some s' →
  pendingHosts s' = pendingHosts s ∧ pendingCountries s' = pendingCountries s.
Proof.
  induction rest as [|ip rest IH]; simpl; [done|].
  destruct (IPDisallowed ip); [by intros [= <-]|].
  destruct (knownIPs s !! ip); [by intros [= <-]|done].
Qed.

Lemma processDnsResult_counted dns s h ip (n k : Z) :
  getZ (pendingHosts s) h = wrap n →
  getZ (pendingCountries s) ip = wrap k →
  getZ (pendingHosts (dnsResultStep dns s).1) h
  = wrap (n + hostsInFlight h (dnsResultStep dns s).2)
  ∧ getZ (pendingCountries (dnsResultStep dns s).1) ip
    = wrap (k + countriesInFlight ip (dnsResultStep dns s).2).
Proof.
  intros Hh Hc. unfold processDnsResult.
  destruct (dns_err dns).
  { simpl. rewrite Hh, Hc. split; f_equal; lia. }
  destruct (dnsScan _ _ _ _ _) as [s1|] eqn:E.
  { apply dnsScan_counters in E as [E1 E2]. simpl. rewrite E1, E2, Hh, Hc.
    split; f_equal; lia. }
  unfold dnsFresh.
  match goal with
  | |- context [fold_left (dnsFreshIP ?hn) ?l ?acc] =>
      pose proof (dnsFreshIP_fold_counted hn l h ip k acc) as Hf
  end.
  destruct (fold_left _ _ _) as [s4 spawned]. simpl in *.
  destruct Hf as (Hph & Hfl & Hpc). split.
  - rewrite hostsInFlight_app, Hfl. simpl.
    rewrite (getZ_bump_counted _ _ 1 n); [f_equal; lia|]. by rewrite Hph.
  - rewrite countriesInFlight_app. simpl. rewrite Hpc; [f_equal; lia|].
    rewrite Hc. f_equal. lia.
Qed.

(** One message and the diagnostic counters. *)
Lemma step_counted m s s' eff c h ip (n k : Z) :
  step m s = Some (s', eff, c) →
  getZ (pendingHosts s) h = wrap n →
  getZ (pendingCountries s) ip = wrap k →
  getZ (pendingHosts s') h = wrap (n + hostsInFlight h eff - hostConsumed h m)
  ∧ getZ (pendingCountries s') ip
    = wrap (k + countriesInFlight ip eff - countryConsumed ip m).
Proof.
  destruct m as [hostreq|dns|hr|cr|]; simpl; intros H Hh Hc.
  - destruct (considerAll_counted hostreq s h ip n k Hh Hc) as [H1 H2].
    destruct (considerAll _ _ _ _ _) as [s1 e1]. simplify_eq. simpl in *.
    split; [done|]. rewrite H2. f_equal. lia.
  - destruct (processDnsResult_counted dns s h ip n k Hh Hc) as [H1 H2].
    destruct (processDnsResult _ _ _) as [s1 e1]. simplify_eq. simpl in *.
    split.
    + rewrite (getZ_bump_counted _ _ _ _ _ H1). f_equal. case_bool_decide; lia.
    + rewrite H2. f_equal. lia.
  - destruct (processHostResult hr s) as [[s1 e1]|] eqn:E; [|done].
    apply processHostResult_counters in E as [Hpc Hcases]. simplify_eq. simpl.
    split.
    + destruct Hcases as [[-> Hph]|(request & -> & Hph)]; simpl.
      * rewrite (getZ_bump_counted _ _ (-1) n); [|by rewrite Hph].
        f_equal. case_bool_decide; lia.
      * rewrite (getZ_bump_counted _ _ (-1)
                   (n + occurrences h (hostnames request))).
        { f_equal. case_bool_decide; lia. }
        rewrite Hph. by apply BatchAddHost_counted.
    + rewrite Hpc, Hc. f_equal.
      destruct Hcases as [[-> _]|(request & -> & _)]; simpl; lia.
  - simplify_eq. simpl. split.
    + assert (pendingHosts (processCountryResult cr s) = pendingHosts s) as ->
        by (unfold processCountryResult; by case_match).
      rewrite Hh. f_equal. lia.
    + rewrite (getZ_bump_counted _ _ (-1) k).
      { f_equal. case_bool_decide; lia. }
      assert (pendingCountries (processCountryResult cr s) = pendingCountries s)
        as -> by (unfold processCountryResult; by case_match).
      done.
  - simplify_eq. simpl. rewrite Hh, Hc. split; f_equal; lia.
Qed.

(** Over any messages the owner processes, one after another, its
    handlers keep the diagnostic counters in step with the work: the
    entry of [pendingHosts] for a hostname changes by the lookups, probes
    and mentions in requests started for it, less those the messages
    brought to their end, and the entry of [pendingCountries] for an
    address by the country lookups started for it, less those answered;
    all as 64-bit integers.  This is the owner's side alone: [AddHost]
    adds to [pendingHosts] from the caller's goroutine. *)
Theorem counters_follow_work (msgs : list Msg) (s s' : Spider)
    (eff : list Effect) (hostname ip : string) (n k : Z) :
  spiderMainLoop BlacklistedHosts blacklistedQueryHosts IPDisallowed ParseIP
    msgs s = Some (s', eff) →
  getZ (pendingHosts s) hostname = wrap n →
  getZ (pendingCountries s) ip = wrap k →
  getZ (pendingHosts s') hostname
  = wrap (n + hostsInFlight hostname eff - hostConsumedAll hostname msgs)
  ∧ getZ (pendingCountries s') ip
    = wrap (k + countriesInFlight ip eff - countryConsumedAll ip msgs).
Proof.
  revert s s' eff n k.
  induction msgs as [|m msgs IH]; intros s s' eff n k H Hh Hc.
  { simpl in H. simplify_eq. simpl. rewrite Hh, Hc. split; f_equal; lia. }
  apply (run_cons BlacklistedHosts blacklistedQueryHosts IPDisallowed ParseIP)
    in H as (s1 & e1 & c & e2 & Hstep & Hrun & ->).
  destruct (step_counted _ _ _ _ _ hostname ip _ _ Hstep Hh Hc) as [Hh1 Hc1].
  destruct (IH _ _ _ _ _ Hrun Hh1 Hc1) as [-> ->].
  rewrite hostsInFlight_app, countriesInFlight_app. simpl.
  split; f_equal; lia.
Qed.

End SpiderDiagnostics.

(** ** Further properties of the selector *)

Lemma passIP_fold_sets (k : Z) (f1 f2 f3 f4 : bool) (ips : list string) :
  ∀ acc : Pass,
    let r := fold_left (passIP k f1 f2 f3 f4) ips acc in
    (∀ ip, ip ∈ ips_too_old r ↔ ip ∈ ips_too_old acc ∨ (f2 = true ∧ ip ∈ ips))
    ∧ (∀ ip, ip ∈ ips_unwanted_server r
             ↔ ip ∈ ips_unwanted_server acc ∨ (f3 = true ∧ ip ∈ ips))
    ∧ (∀ ip, ip ∈ ips_wrong_country r
             ↔ ip ∈ ips_wrong_country acc ∨ (f4 = true ∧ ip ∈ ips)).
Proof.
  induction ips as [|x ips IH]; intros acc r; subst r; simpl.
  { split; [|split]; intros ip; rewrite elem_of_nil; tauto. }
  destruct (IH (passIP k f1 f2 f3 f4 acc x)) as (IH2 & IH3 & IH4).
  split; [|split]; intros ip.
  - rewrite IH2, elem_of_cons. simpl.
    destruct f2; [rewrite elem_of_union, elem_of_singleton|];
      split; intros H; intuition (subst; auto; discriminate).
  - rewrite IH3, elem_of_cons. simpl.
    destruct f3; [rewrite elem_of_union, elem_of_singleton|];
      split; intros H; intuition (subst; auto; discriminate).
  - rewrite IH4, elem_of_cons. simpl.
    destruct f4; [rewrite elem_of_union, elem_of_singleton|];
      split; intros H; intuition (subst; auto; discriminate).
Qed.

Section SelectorExtras.

Variable kBUCKET_SIZE : Z.
Variable flKeysSanityMin : Z.
Variable flKeysDailyJitter : Z.
Variable SksVersion : Type.
Variable NewSksVersion : string → option SksVersion.
Variable IsAtLeast : SksVersion → SksVersion → bool.
Variable serverHeadersNative : gset string.
Variable CountrySet : Type.
Variable NewCountrySet : string → CountrySet.
Variable HasCountry : CountrySet → string → bool.
Variable shuffle : nat → ∀ A : Type, list A → list A.

Hypothesis shuffle_perm : ∀ (i : nat) (A : Type) (l : list A), shuffle i A l ≡ₚ l.

Local Abbreviation passOne :=
  (passNode SksVersion NewSksVersion IsAtLeast serverHeadersNative CountrySet HasCountry).
Local Abbreviation passLoop :=
  (passAll SksVersion NewSksVersion IsAtLeast serverHeadersNative CountrySet HasCountry).
Local Abbreviation page :=
  (apiIpValidPage kBUCKET_SIZE flKeysSanityMin flKeysDailyJitter SksVersion
     NewSksVersion IsAtLeast serverHeadersNative CountrySet NewCountrySet
     HasCountry shuffle).
Local Abbreviation loop1 :=
  (firstLoop SksVersion NewSksVersion IsAtLeast serverHeadersNative CountrySet
     NewCountrySet HasCountry).
Local Abbreviation bounds := (boundsOf kBUCKET_SIZE shuffle).
Local Abbreviation tooOld := (skipAge SksVersion NewSksVersion IsAtLeast).
Local Abbreviation nonProxy := (skipNonproxy serverHeadersNative).
Local Abbreviation wrongCountry := (skipCountry CountrySet HasCountry).
Local Abbreviation threshold :=
  (computeThreshold kBUCKET_SIZE flKeysSanityMin flKeysDailyJitter shuffle).

(** The sets of the first loop after one server. *)
Lemma passNode_sets mv ltp ltc persisted node acc :
  let r := passOne mv ltp ltc persisted node acc in
  let listed flag ip := 1 < Keycount node ∧ flag = true ∧ ip ∈ IpList node in
  (∀ ip, ip ∈ ips_too_old r
         ↔ ip ∈ ips_too_old acc ∨ listed (tooOld mv node) ip)
  ∧ (∀ ip, ip ∈ ips_unwanted_server r
           ↔ ip ∈ ips_unwanted_server acc ∨ listed (nonProxy ltp node) ip)
  ∧ (∀ ip, ip ∈ ips_wrong_country r
           ↔ ip ∈ ips_wrong_country acc
             ∨ listed (wrongCountry ltc persisted node) ip).
Proof.
  intros r listed. subst r listed. unfold passNode. cbv zeta.
  destruct (Z.leb_spec (Keycount node) 1) as [Hle|Hgt].
  { split; [|split]; intros ip; (split; [tauto|]);
      (intros [?|[? _]]; [done|lia]). }
  destruct (IpList node) as [|first rest] eqn:Hips.
  { split; [|split]; intros ip; (split; [tauto|]);
      (intros [?|(_ & _ & Hin)]; [done|by apply elem_of_nil in Hin]). }
  match goal with
  | |- context [fold_left (passIP ?k ?a ?b ?c ?d) ?l ?acc0] =>
      destruct (passIP_fold_sets k a b c d l acc0) as (F2 & F3 & F4)
  end.
  cbn [ips_too_old ips_unwanted_server ips_wrong_country] in F2, F3, F4.
  split; [|split]; intros ip.
  - rewrite F2. unfold skipAge. tauto.
  - rewrite F3. unfold skipNonproxy. tauto.
  - rewrite F4. unfold skipCountry. rewrite Hips. tauto.
Qed.

Lemma passAll_sets mv ltp ltc persisted names :
  ∀ acc pass,
    passLoop mv ltp ltc persisted names acc = Some pass →
    (∀ ip, ip ∈ ips_too_old pass
           ↔ ip ∈ ips_too_old acc
             ∨ ∃ node, servedIn persisted names ip node ∧ tooOld mv node = true)
    ∧ (∀ ip, ip ∈ ips_unwanted_server pass
             ↔ ip ∈ ips_unwanted_server acc
               ∨ ∃ node, servedIn persisted names ip node
                         ∧ nonProxy ltp node = true)
    ∧ (∀ ip, ip ∈ ips_wrong_country pass
             ↔ ip ∈ ips_wrong_country acc
               ∨ ∃ node, servedIn persisted names ip node
                         ∧ wrongCountry ltc persisted node = true).
Proof.
  induction names as [|name names IH]; intros acc pass H; simpl in H.
  { simplify_eq.
    split; [|split]; intros ip; (split; [tauto|]);
      (intros [?|(node & (n & Hin & _) & _)]; [done|by apply elem_of_nil in Hin]). }
  destruct (HostMap persisted !! name) as [node|] eqn:Hnode; [|done].
  destruct (IH _ _ H) as (I2 & I3 & I4).
  destruct (passNode_sets mv ltp ltc persisted node acc) as (N2 & N3 & N4).
  assert (Hserved : ∀ ip (P : SksNode → Prop),
            (∃ nd, servedIn persisted (name :: names) ip nd ∧ P nd)
            ↔ (1 < Keycount node ∧ P node ∧ ip ∈ IpList node)
              ∨ ∃ nd, servedIn persisted names ip nd ∧ P nd).
  { intros ip P. split.
    - intros (nd & (n & Hin & Hn & Hk & Hip) & HP).
      apply elem_of_cons in Hin as [->|Hin].
      + left. assert (nd = node) as -> by congruence. done.
      + right. exists nd. split; [|done]. by exists n.
    - intros [(Hk & HP & Hip)|(nd & (n & Hin & Hn & Hk & Hip) & HP)].
      + exists node. split; [|done]. exists name. split; [by left|done].
      + exists nd. split; [|done]. exists n. split; [by right|done]. }
  split; [|split]; intros ip.
  - rewrite I2, N2, (Hserved ip (λ nd, tooOld mv nd = true)). tauto.
  - rewrite I3, N3, (Hserved ip (λ nd, nonProxy ltp nd = true)). tauto.
  - rewrite I4, N4,
      (Hserved ip (λ nd, wrongCountry ltc persisted nd = true)). tauto.
Qed.

(** The sets of the first loop in terms of the servers of the snapshot. *)
Lemma firstLoop_sets persisted form pass :
  loop1 persisted form = Some pass →
  (∀ ip, ip ∈ ips_too_old pass
         ↔ ∃ node, servedBy persisted ip node
                   ∧ tooOld (minimumVersionOf SksVersion NewSksVersion form) node
                     = true)
  ∧ (∀ ip, ip ∈ ips_unwanted_server pass
           ↔ ∃ node, servedBy persisted ip node
                     ∧ nonProxy (form_proxies form) node = true)
  ∧ (∀ ip, ip ∈ ips_wrong_country pass
           ↔ ∃ node, servedBy persisted ip node
                     ∧ wrongCountry (NewCountrySet <$> form_countries form)
                         persisted node = true).
Proof.
  intros H. apply passAll_sets in H as (H2 & H3 & H4).
  split; [|split]; intros ip.
  - rewrite H2. simpl. rewrite elem_of_empty. unfold servedBy. tauto.
  - rewrite H3. simpl. rewrite elem_of_empty. unfold servedBy. tauto.
  - rewrite H4. simpl. rewrite elem_of_empty. unfold servedBy. tauto.
Qed.

(** *** What a complete answer holds *)

Lemma aboveThreshold_NoDup (m : gmap string Z) (t : Z) :
  NoDup (filter (λ e : string * Z, t <= e.2) (rangeMap shuffle 6 m)).*1.
Proof.
  assert (Hnd : NoDup (rangeMap shuffle 6 m).*1).
  { unfold rangeMap. rewrite (shuffle_perm 6 _ (map_to_list m)).
    apply NoDup_fst_map_to_list. }
  revert Hnd. generalize (rangeMap shuffle 6 m). intros l.
  induction l as [|[k v] l IH]; simpl; [constructor|].
  intros Hnd. apply NoDup_cons in Hnd as [Hk Hl].
  rewrite filter_cons. destruct (decide (t <= (k, v).2)); [|by apply IH].
  simpl. apply NoDup_cons. split; [|by apply IH].
  intros Hin. apply Hk. apply list_elem_of_fmap in Hin as ([k' v'] & -> & Hin).
  apply list_elem_of_filter in Hin as [_ Hin].
  apply list_elem_of_fmap. by exists (k', v').
Qed.

(** A complete answer, step by step: the first loop ran to its end, a
    threshold was computed, and the addresses are those of [first_ips_all]
    at or above the reported threshold that no filter applied removed. *)
Lemma page_valid persisted form ips t :
  page (Some persisted) form = Valid ips t →
  ∃ pass computed,
    loop1 persisted form = Some pass
    ∧ threshold (ips_one_per_server pass) (ips_all pass) = inr computed
    ∧ t = match form_threshold form with
          | Some i => if 0 <? i then i else computed
          | None => computed
          end
    ∧ ips ≠ [] ∧ NoDup ips
    ∧ ∀ ip, ip ∈ ips
            ↔ (∃ c, firstIpsAll kBUCKET_SIZE shuffle (ips_one_per_server pass)
                      (ips_all pass) !! ip = Some c ∧ t <= c)
              ∧ (ip ∉ ips_skip_1010 pass)
              ∧ (is_Some (minimumVersionOf SksVersion NewSksVersion form) →
                 ip ∉ ips_too_old pass)
              ∧ (is_Some (form_countries form) → ip ∉ ips_wrong_country pass)
              ∧ (form_proxies form = true → ip ∉ ips_unwanted_server pass).
Proof.
  unfold apiIpValidPage. intros Hpage.
  destruct (loop1 persisted form) as [pass|] eqn:Hloop; [|done].
  destruct (computeThreshold _ _ _ _ _ _) as [out|computed] eqn:Hct.
  { unfold computeThreshold in Hct. repeat case_match; simplify_eq. }
  exists pass, computed. split; [done|]. split; [done|].
  cbv zeta in Hpage.
  set (thr := match form_threshold form with
              | Some i => if 0 <? i then i else computed
              | None => computed
              end) in *.
  set (ips0 := (filter (λ e : string * Z, thr <= e.2)
                  (rangeMap shuffle 6
                     (firstIpsAll kBUCKET_SIZE shuffle (ips_one_per_server pass)
                        (ips_all pass)))).*1) in *.
  assert (Hnd0 : NoDup ips0) by apply aboveThreshold_NoDup.
  assert (Hin0 : ∀ ip, ip ∈ ips0
                       ↔ ∃ c, firstIpsAll kBUCKET_SIZE shuffle
                                (ips_one_per_server pass) (ips_all pass) !! ip
                              = Some c ∧ thr <= c)
    by (intros ip; apply (aboveThreshold_elem shuffle shuffle_perm)).
  clearbody ips0 thr.
  repeat case_bool_decide; try discriminate Hpage.
  injection Hpage as <- <-. split; [done|]. split; [done|].
  unfold filterOut in *.
  destruct (minimumVersionOf SksVersion NewSksVersion form);
    destruct (form_countries form); destruct (form_proxies form);
    (split; [repeat apply NoDup_filter; exact Hnd0|]);
    intros ip; rewrite ?list_elem_of_filter, Hin0;
    (split; [intros H'; repeat split; try tauto; try (intros [? [=]]); try done
            |intros (? & ? & Ho & Hc & Hp); repeat split; try tauto; eauto]).
Qed.

(** The addresses of a complete answer, for any form.  An address is
    returned exactly when its recorded key count is within the bounds and
    at least the threshold reported, and no server that lists it runs
    1.0.10 or is set aside by a filter the form asks for: too old for the
    minimum version, outside the countries, or not behind a proxy.  A
    positive threshold given in the form is the one reported.  When the
    form asks for proxies the [Server] headers are taken to be ASCII,
    where [serverToken] and [strings.ToLower] agree. *)
Theorem complete_answer_passes_every_filter
    (persisted : PersistedHostInfo) (form : Query) (ips : list string) (t : Z) :
  (form_proxies form = true → asciiHeaders persisted = true) →
  page (Some persisted) form = Valid ips t →
  (∀ i, form_threshold form = Some i → 0 < i → t = i)
  ∧ ∃ pass,
      loop1 persisted form = Some pass
      ∧ ∀ ip, ip ∈ ips
              ↔ (∃ c, ips_all pass !! ip = Some c
                      ∧ (bounds (ips_one_per_server pass)).1 <= c
                         <= (bounds (ips_one_per_server pass)).2
                      ∧ t <= c)
                ∧ ∀ node, servedBy persisted ip node →
                    Version node ≠ "1.0.10"
                    ∧ tooOld (minimumVersionOf SksVersion NewSksVersion form)
                        node = false
                    ∧ wrongCountry (NewCountrySet <$> form_countries form)
                        persisted node = false
                    ∧ nonProxy (form_proxies form) node = false.
Proof.
  intros _ Hpage.
  apply page_valid in Hpage
    as (pass & computed & Hloop & _ & Ht & _ & _ & Hin).
  split.
  { intros i Hi Hpos. rewrite Ht, Hi.
    by destruct (Z.ltb_spec 0 i); [|lia]. }
  exists pass. split; [done|].
  destruct (firstLoop_spec SksVersion NewSksVersion IsAtLeast
              serverHeadersNative CountrySet NewCountrySet HasCountry
              persisted form pass Hloop) as (_ & _ & A3 & _).
  destruct (firstLoop_sets persisted form pass Hloop) as (S2 & S3 & S4).
  intros ip. rewrite Hin. clear Hin. split.
  - intros ((c & Hc & Hle) & H1 & H2 & H3 & H4).
    apply (firstIpsAll_lookup kBUCKET_SIZE SksVersion NewSksVersion CountrySet
             NewCountrySet HasCountry shuffle shuffle_perm) in Hc as [Hc Hb].
    split; [exists c; tauto|]. intros node Hs.
    split.
    { intros Hv. apply H1, A3. by exists node. }
    split.
    { destruct (minimumVersionOf SksVersion NewSksVersion form) as [mv|] eqn:E;
        [|done].
      destruct (tooOld (Some mv) node) eqn:Eo; [|done].
      destruct H2; [done|]. apply S2. by exists node. }
    split.
    { destruct (form_countries form) as [cs|] eqn:E; [|done].
      destruct (wrongCountry (NewCountrySet <$> Some cs) persisted node) eqn:Eo;
        [|done].
      destruct H3; [done|]. apply S4. by exists node. }
    destruct (form_proxies form) eqn:E; [|done].
    destruct (nonProxy true node) eqn:Eo; [|done].
    destruct H4; [done|]. apply S3. by exists node.
  - intros ((c & Hc & Hb & Hle) & Hnodes). split.
    { exists c. split; [|done].
      by apply (firstIpsAll_lookup kBUCKET_SIZE SksVersion NewSksVersion
                  CountrySet NewCountrySet HasCountry shuffle shuffle_perm). }
    split.
    { intros H1. apply A3 in H1 as (node & Hs & Hv).
      by destruct (Hnodes node Hs) as (? & _). }
    split.
    { intros _ H2. apply S2 in H2 as (node & Hs & Hv).
      destruct (Hnodes node Hs) as (_ & ? & _). congruence. }
    split.
    { intros _ H3. apply S4 in H3 as (node & Hs & Hv).
      destruct (Hnodes node Hs) as (_ & _ & ? & _). congruence. }
    intros _ H4. apply S3 in H4 as (node & Hs & Hv).
    destruct (Hnodes node Hs) as (_ & _ & _ & ?). congruence.
Qed.

(** A complete answer lists at least one address, and no address twice. *)
Theorem complete_answer_distinct
    (persisted : PersistedHostInfo) (form : Query) (ips : list string) (t : Z) :
  page (Some persisted) form = Valid ips t → ips ≠ [] ∧ NoDup ips.
Proof.
  intros Hpage.
  by apply page_valid in Hpage as (pass & computed & _ & _ & _ & ? & ? & _).
Qed.

(** *** Panics and aborts of the page *)

Lemma passAll_None mv ltp ltc persisted names :
  ∀ acc,
    passLoop mv ltp ltc persisted names acc = None
    ↔ ∃ name, name ∈ names ∧ HostMap persisted !! name = None.
Proof.
  induction names as [|name names IH]; intros acc; simpl.
  { split; [done|]. intros (name & Hin & _). by apply elem_of_nil in Hin. }
  destruct (HostMap persisted !! name) as [node|] eqn:Hnode.
  - rewrite IH. split.
    + intros (n & Hin & Hn). exists n. split; [by right|done].
    + intros (n & Hin & Hn). exists n. split; [|done].
      apply elem_of_cons in Hin as [->|Hin]; [congruence|done].
  - split; [|done]. intros _. exists name. split; [by left|done].
Qed.

Lemma rangeMap_empty `{Countable K} {V : Type} (site : nat) :
  rangeMap shuffle site (∅ : gmap K V) = [].
Proof.
  unfold rangeMap. rewrite map_to_list_empty.
  apply Permutation_nil_r. apply shuffle_perm.
Qed.

Lemma bucketsOf_empty (one : gmap string Z) :
  bucketsOf kBUCKET_SIZE shuffle one = ∅ ↔ one = ∅.
Proof.
  unfold bucketsOf. split.
  - intros Hb. apply map_empty. intros k.
    destruct (one !! k) as [v|] eqn:Hv; [|done].
    assert (Hin : v ∈ (rangeMap shuffle 0 one).*2)
      by (apply (rangeMap_values shuffle shuffle_perm); by exists k).
    pose proof (fillBuckets_lookup kBUCKET_SIZE (rangeMap shuffle 0 one).*2
                  (Z.quot v kBUCKET_SIZE)) as Hl.
    rewrite Hb, lookup_empty in Hl.
    destruct (filter _ _) as [|x l] eqn:Hf; [|done].
    assert (Hvf : v ∈ filter (λ count : Z,
                     Z.quot count kBUCKET_SIZE = Z.quot v kBUCKET_SIZE)
                    (rangeMap shuffle 0 one).*2)
      by (by apply list_elem_of_filter).
    rewrite Hf in Hvf. by apply elem_of_nil in Hvf.
  - intros ->. by rewrite rangeMap_empty.
Qed.

Lemma countsOf_empty (all : gmap string Z) (l : list string) :
  countsOf all l = ∅ → l = [].
Proof.
  destruct l as [|x l]; [done|]. intros He.
  assert (H : countsOf all (x :: l) !! x = Some (getZ all x))
    by (apply countsOf_lookup; split; [by left|done]).
  by rewrite He, lookup_empty in H.
Qed.

(** The index into [threshold_candidates] is out of range exactly when
    servers were counted and none of them is within the bounds. *)
Lemma computeThreshold_panic (one all : gmap string Z) :
  threshold one all = inl Panic
  ↔ one ≠ ∅ ∧ firstIpsList kBUCKET_SIZE shuffle one all = [].
Proof.
  unfold computeThreshold. split.
  - case_bool_decide as Hb; [done|].
    destruct (secondStats kBUCKET_SIZE shuffle one all) as [second_mean second_sd].
    destruct (flt second_mean (of_int flKeysSanityMin)); [done|].
    cbv zeta.
    destruct (sortInts _ !! _) eqn:Hl; [done|]. intros _.
    split; [by rewrite <- bucketsOf_empty|].
    apply lookup_ge_None in Hl.
    rewrite (Permutation_length (sortInts_perm _)), length_fmap,
      (rangeMap_length shuffle shuffle_perm) in Hl.
    apply (countsOf_empty all). apply map_size_empty_inv.
    fold (firstIps kBUCKET_SIZE shuffle one all). lia.
  - intros [Hne Hnil]. rewrite bool_decide_eq_false_2 by (by rewrite bucketsOf_empty).
    unfold secondStats, firstIps. rewrite Hnil. cbn [fold_left length countsOf].
    replace (fdiv (of_int 0) (of_int (Z.of_nat 0))) with NaN
      by (vm_compute; reflexivity).
    cbn [flt]. cbv zeta. rewrite map_size_empty, rangeMap_empty. reflexivity.
Qed.

Lemma firstIpsList_nil (one all : gmap string Z) :
  firstIpsList kBUCKET_SIZE shuffle one all = []
  ↔ ∀ ip, is_Some (one !! ip) → withinBounds (bounds one) all ip = false.
Proof.
  unfold firstIpsList. split.
  - intros Hnil ip Hip.
    destruct (withinBounds (bounds one) all ip) eqn:E; [|done].
    assert (Hin : ip ∈ boundedKeys shuffle 2 (bounds one) all one)
      by (by apply (boundedKeys_elem SksVersion NewSksVersion CountrySet
                      NewCountrySet HasCountry shuffle shuffle_perm)).
    rewrite Hnil in Hin. by apply elem_of_nil in Hin.
  - intros Hout. apply elem_of_nil_inv. intros ip Hin.
    apply (boundedKeys_elem SksVersion NewSksVersion CountrySet
             NewCountrySet HasCountry shuffle shuffle_perm) in Hin as [Hip Hw].
    rewrite (Hout ip Hip) in Hw. discriminate.
Qed.

(** The page panics in exactly two cases: a name of [Sorted] that
    [HostMap] does not hold (a nil dereference in the first loop), and
    servers counted of which none is within the bounds of the largest
    bucket (an index out of range in [threshold_candidates]).  The second
    arises, for one, when [ips_all] records an address with the key count
    of another server than the one it stands for in [ips_one_per_server],
    and also when a count is too large for float64 to hold it exactly.
    The bucket size is taken not to be zero: the division by it is the one
    operation whose panic the quotient of the model does not show. *)
Theorem page_panics_in_two_cases (persisted : PersistedHostInfo) (form : Query) :
  kBUCKET_SIZE ≠ 0 →
  page (Some persisted) form = Panic
  ↔ (∃ name, name ∈ Sorted persisted ∧ HostMap persisted !! name = None)
    ∨ ∃ pass,
        loop1 persisted form = Some pass
        ∧ ips_one_per_server pass ≠ ∅
        ∧ ∀ ip, is_Some (ips_one_per_server pass !! ip) →
                withinBounds (bounds (ips_one_per_server pass)) (ips_all pass) ip
                = false.
Proof.
  intros _. unfold apiIpValidPage.
  pose proof (passAll_None (minimumVersionOf SksVersion NewSksVersion form)
                (form_proxies form) (NewCountrySet <$> form_countries form)
                persisted (Sorted persisted) emptyPass) as Hnone.
  fold (loop1 persisted form) in Hnone.
  destruct (loop1 persisted form) as [pass|] eqn:Hloop.
  2:{ split; [|done]. intros _. left. by apply Hnone. }
  assert (Hsecond :
    (∃ pass0, Some pass = Some pass0
              ∧ ips_one_per_server pass0 ≠ ∅
              ∧ ∀ ip, is_Some (ips_one_per_server pass0 !! ip) →
                      withinBounds (bounds (ips_one_per_server pass0))
                        (ips_all pass0) ip = false)
    ↔ threshold (ips_one_per_server pass) (ips_all pass) = inl Panic).
  { rewrite computeThreshold_panic, firstIpsList_nil. split.
    - by intros (pass0 & [= <-] & H).
    - intros H. by exists pass. }
  rewrite Hsecond.
  destruct (computeThreshold _ _ _ _ _ _) as [out|computed] eqn:Hct.
  - split.
    + intros ->. by right.
    + intros [Hmissing|Hout]; [|congruence].
      apply Hnone in Hmissing. discriminate.
  - split.
    + cbv zeta. intros H. repeat case_bool_decide; discriminate.
    + intros [Hmissing|Hout]; [|discriminate].
      apply Hnone in Hmissing. discriminate.
Qed.

(** The page aborts with [broken_no_buckets] exactly when [HostMap] holds
    every name of [Sorted] and no server has both more than one key and an
    address, whatever the form asks for. *)
Theorem no_buckets_without_counted_server
    (persisted : PersistedHostInfo) (form : Query) :
  page (Some persisted) form = Invalid broken_no_buckets
  ↔ (∀ name, name ∈ Sorted persisted → is_Some (HostMap persisted !! name))
    ∧ ∀ ip node, ¬ servedBy persisted ip node.
Proof.
  unfold apiIpValidPage.
  pose proof (passAll_None (minimumVersionOf SksVersion NewSksVersion form)
                (form_proxies form) (NewCountrySet <$> form_countries form)
                persisted (Sorted persisted) emptyPass) as Hnone.
  fold (loop1 persisted form) in Hnone.
  destruct (loop1 persisted form) as [pass|] eqn:Hloop.
  2:{ split; [done|]. intros [Hall _].
      destruct Hnone as [Hnone _]. destruct (Hnone eq_refl) as (name & Hin & Hn).
      destruct (Hall name Hin) as [node Hnode]. congruence. }
  assert (Hall : ∀ name, name ∈ Sorted persisted →
                         is_Some (HostMap persisted !! name)).
  { intros name Hin. destruct (HostMap persisted !! name) eqn:E; [done|].
    assert (Some pass = None); [|done]. apply Hnone. by exists name. }
  destruct (firstLoop_spec SksVersion NewSksVersion IsAtLeast
              serverHeadersNative CountrySet NewCountrySet HasCountry
              persisted form pass Hloop) as (_ & _ & _ & A4 & A5).
  assert (Hone : ips_one_per_server pass = ∅
                 ↔ ∀ ip node, ¬ servedBy persisted ip node).
  { split.
    - intros He ip node Hs. destruct A5 as [ip' [c Hc]]; [by exists ip, node|].
      by rewrite He, lookup_empty in Hc.
    - intros Hno. apply map_empty. intros ip.
      destruct (ips_one_per_server pass !! ip) as [c|] eqn:Hc; [|done].
      destruct (A4 ip c Hc) as (node & Hs & _). by destruct (Hno ip node). }
  rewrite <- Hone. unfold computeThreshold.
  destruct (decide (ips_one_per_server pass = ∅)) as [He|Hne].
  - rewrite bool_decide_eq_true_2 by (by apply bucketsOf_empty). tauto.
  - rewrite bool_decide_eq_false_2 by (by rewrite bucketsOf_empty).
    split; [|tauto]. intros H. exfalso. revert H.
    destruct (secondStats kBUCKET_SIZE shuffle _ _) as [second_mean second_sd].
    destruct (flt second_mean (of_int flKeysSanityMin)); [done|].
    cbv zeta. destruct (sortInts _ !! _); [|done].
    repeat case_bool_decide; discriminate.
Qed.

(** *** The statistics and the filters *)

Lemma passNode_stats mv ltp ltc mv' ltp' ltc' persisted node acc acc' :
  ips_one_per_server acc = ips_one_per_server acc' →
  ips_all acc = ips_all acc' →
  ips_skip_1010 acc = ips_skip_1010 acc' →
  ips_one_per_server (passOne mv ltp ltc persisted node acc)
  = ips_one_per_server (passOne mv' ltp' ltc' persisted node acc')
  ∧ ips_all (passOne mv ltp ltc persisted node acc)
    = ips_all (passOne mv' ltp' ltc' persisted node acc')
  ∧ ips_skip_1010 (passOne mv ltp ltc persisted node acc)
    = ips_skip_1010 (passOne mv' ltp' ltc' persisted node acc').
Proof.
  intros H1 H2 H3. unfold passNode. cbv zeta.
  destruct (Keycount node <=? 1); [done|].
  destruct (IpList node) as [|first rest]; [done|].
  match goal with
  | |- ips_one_per_server ?r = ips_one_per_server ?r' ∧ _ =>
      match r with
      | fold_left (passIP ?k ?a ?b ?c ?d) ?l ?acc0 =>
          match r' with
          | fold_left (passIP ?k' ?a' ?b' ?c' ?d') ?l' ?acc0' =>
              destruct (passIP_fold k a b c d l acc0) as (F1 & F2 & F3);
              destruct (passIP_fold k' a' b' c' d' l' acc0') as (G1 & G2 & G3)
          end
      end
  end.
  cbn [ips_one_per_server ips_all ips_skip_1010] in F1, F2, F3, G1, G2, G3.
  split; [by rewrite F1, G1, H1|]. split.
  - apply map_eq. intros ip. by rewrite F2, G2, H2.
  - apply set_eq. intros ip. by rewrite F3, G3, H3.
Qed.

Lemma passAll_stats mv ltp ltc mv' ltp' ltc' persisted names :
  ∀ acc acc' pass,
    ips_one_per_server acc = ips_one_per_server acc' →
    ips_all acc = ips_all acc' →
    ips_skip_1010 acc = ips_skip_1010 acc' →
    passLoop mv ltp ltc persisted names acc = Some pass →
    ∃ pass',
      passLoop mv' ltp' ltc' persisted names acc' = Some pass'
      ∧ ips_one_per_server pass' = ips_one_per_server pass
      ∧ ips_all pass' = ips_all pass
      ∧ ips_skip_1010 pass' = ips_skip_1010 pass.
Proof.
  induction names as [|name names IH]; intros acc acc' pass H1 H2 H3 H; simpl in *.
  { simplify_eq. by exists acc'. }
  destruct (HostMap persisted !! name) as [node|]; [|done].
  destruct (passNode_stats mv ltp ltc mv' ltp' ltc' persisted node acc acc'
              H1 H2 H3) as (N1 & N2 & N3).
  by apply (IH _ _ _ N1 N2 N3).
Qed.

(** The filters a form asks for change neither the statistics nor the
    threshold computed from them: for any two forms the first loop leaves
    the same [ips_one_per_server], [ips_all] and [ips_skip_1010], and the
    threshold, abort or panic that follows from them is the same. *)
Theorem filters_do_not_change_statistics
    (persisted : PersistedHostInfo) (form form' : Query) (pass : Pass) :
  loop1 persisted form = Some pass →
  ∃ pass',
    loop1 persisted form' = Some pass'
    ∧ ips_one_per_server pass' = ips_one_per_server pass
    ∧ ips_all pass' = ips_all pass
    ∧ ips_skip_1010 pass' = ips_skip_1010 pass
    ∧ threshold (ips_one_per_server pass') (ips_all pass')
      = threshold (ips_one_per_server pass) (ips_all pass).
Proof.
  intros H.
  destruct (passAll_stats _ _ _
              (minimumVersionOf SksVersion NewSksVersion form')
              (form_proxies form') (NewCountrySet <$> form_countries form')
              _ _ emptyPass emptyPass pass eq_refl eq_refl eq_refl H)
    as (pass' & Hloop & E1 & E2 & E3).
  exists pass'. split; [exact Hloop|]. by rewrite E1, E2.
Qed.

(** *** One address for each server *)

Lemma passNode_one mv ltp ltc persisted node acc :
  ips_one_per_server (passOne mv ltp ltc persisted node acc)
  = if Keycount node <=? 1 then ips_one_per_server acc
    else match IpList node with
         | [] => ips_one_per_server acc
         | first :: _ => <[first := Keycount node]> (ips_one_per_server acc)
         end.
Proof.
  unfold passNode. cbv zeta. destruct (Keycount node <=? 1); [done|].
  destruct (IpList node) as [|first rest]; [done|].
  match goal with
  | |- context [fold_left (passIP ?k ?a ?b ?c ?d) ?l ?acc0] =>
      destruct (passIP_fold k a b c d l acc0) as (F1 & _)
  end.
  by rewrite F1.
Qed.

Lemma passAll_one mv ltp ltc persisted names :
  ∀ acc pass,
    passLoop mv ltp ltc persisted names acc = Some pass →
    ∀ ip, is_Some (ips_one_per_server pass !! ip)
          ↔ is_Some (ips_one_per_server acc !! ip)
            ∨ ∃ name node rest,
                name ∈ names ∧ HostMap persisted !! name = Some node
                ∧ 1 < Keycount node ∧ IpList node = ip :: rest.
Proof.
  induction names as [|name names IH]; intros acc pass H ip; simpl in H.
  { simplify_eq. split; [by left|]. intros [?|(n & ? & ? & Hin & _)]; [done|].
    by apply elem_of_nil in Hin. }
  destruct (HostMap persisted !! name) as [node|] eqn:Hnode; [|done].
  rewrite (IH _ _ H ip), passNode_one.
  assert (Hhere :
    is_Some ((if Keycount node <=? 1 then ips_one_per_server acc
              else match IpList node with
                   | [] => ips_one_per_server acc
                   | first :: _ =>
                       <[first := Keycount node]> (ips_one_per_server acc)
                   end) !! ip)
    ↔ is_Some (ips_one_per_server acc !! ip)
      ∨ (1 < Keycount node ∧ ∃ rest, IpList node = ip :: rest)).
  { destruct (Z.leb_spec (Keycount node) 1) as [Hle|Hgt].
    - split; [by left|]. intros [?|[? _]]; [done|lia].
    - destruct (IpList node) as [|first rest].
      + split; [by left|]. by intros [?|(_ & ? & ?)].
      + rewrite lookup_insert_is_Some'. split.
        * intros [->|?]; [right|by left]. split; [done|]. by exists rest.
        * intros [?|(_ & rest' & [= -> _])]; [by right|by left]. }
  rewrite Hhere. split.
  - intros [[?|(Hk & rest & Hips)]|(n & nd & rest & Hin & Hn & Hk & Hips)].
    + by left.
    + right. exists name, node, rest. split; [by left|done].
    + right. exists n, nd, rest. split; [by right|done].
  - intros [?|(n & nd & rest & Hin & Hn & Hk & Hips)]; [by left; left|].
    apply elem_of_cons in Hin as [->|Hin].
    + left. right. assert (nd = node) as -> by congruence.
      split; [done|]. by exists rest.
    + right. by exists n, nd, rest.
Qed.

(** The statistics take one address for each server and the filtering
    takes them all: the keys of [ips_one_per_server] are exactly the first
    addresses of the servers of [Sorted] that hold more than one key, so
    there are no more of them than servers, and the keys of [ips_all] are
    exactly all addresses of those servers. *)
Theorem one_address_per_server
    (persisted : PersistedHostInfo) (form : Query) (pass : Pass) :
  loop1 persisted form = Some pass →
  (size (ips_one_per_server pass) <= length (Sorted persisted))%nat
  ∧ (∀ ip, is_Some (ips_one_per_server pass !! ip)
           ↔ ∃ name node rest,
               name ∈ Sorted persisted ∧ HostMap persisted !! name = Some node
               ∧ 1 < Keycount node ∧ IpList node = ip :: rest)
  ∧ ∀ ip, is_Some (ips_all pass !! ip) ↔ ∃ node, servedBy persisted ip node.
Proof.
  intros H. split; [|split].
  - apply (passAll_size SksVersion NewSksVersion IsAtLeast serverHeadersNative
             CountrySet HasCountry) in H.
    simpl in H. by rewrite map_size_empty in H.
  - intros ip. rewrite (passAll_one _ _ _ _ _ _ _ H ip). simpl.
    rewrite lookup_empty. split; [|by right].
    intros [[? [=]]|?]; done.
  - destruct (firstLoop_spec SksVersion NewSksVersion IsAtLeast
                serverHeadersNative CountrySet NewCountrySet HasCountry
                persisted form pass H) as (A1 & A2 & _).
    intros ip. split.
    + intros [c Hc]. destruct (A1 ip c Hc) as (node & Hs & _). by exists node.
    + intros (node & Hs). by eapply A2.
Qed.

End SelectorExtras.

(** *** The selector on the sample snapshots, again *)

Example mixed_cluster_answers :
  filteringPage asListed (Some mixedCluster) strictForm = Valid ["192.0.2.1"] 4900
  ∧ filteringPage asListed (Some mixedCluster) noFilters
    = Valid ["192.0.2.3"; "192.0.2.1"; "192.0.2.2"; "192.0.2.4"] 4900.
Proof. split; vm_compute; reflexivity. Qed.

Lemma complete_answer_passes_every_filter_witness :
  (∀ i, form_threshold strictForm = Some i → 0 < i → 4900 = i)
  ∧ ∃ pass,
      filteringLoop mixedCluster strictForm = Some pass
      ∧ ∀ ip, ip ∈ ["192.0.2.1"]
              ↔ (∃ c, ips_all pass !! ip = Some c
                      ∧ (boundsOf 1000 asListed (ips_one_per_server pass)).1 <= c
                         <= (boundsOf 1000 asListed (ips_one_per_server pass)).2
                      ∧ 4900 <= c)
                ∧ ∀ node, servedBy mixedCluster ip node →
                    Version node ≠ "1.0.10"
                    ∧ skipAge string Some (λ this mv, String.leb mv this)
                        (minimumVersionOf string Some strictForm) node = false
                    ∧ skipCountry (list string)
                        (λ cs geo, bool_decide (geo ∈ cs))
                        ((λ c, [c]) <$> form_countries strictForm)
                        mixedCluster node = false
                    ∧ skipNonproxy {["sks_www"]} (form_proxies strictForm) node
                      = false.
Proof.
  apply (complete_answer_passes_every_filter 1000 1000 100 string Some
           (λ this mv, String.leb mv this) {["sks_www"]} (list string)
           (λ c, [c]) (λ cs geo, bool_decide (geo ∈ cs)) asListed asListed_perm
           mixedCluster strictForm).
  - intros _. vm_compute. reflexivity.
  - vm_compute. reflexivity.
Defined.

Lemma complete_answer_distinct_witness :
  ["192.0.2.3"; "192.0.2.1"; "2001:db8::1"] ≠ []
  ∧ NoDup ["192.0.2.3"; "192.0.2.1"; "2001:db8::1"].
Proof.
  apply (complete_answer_distinct 1000 1000 100 unit (λ _, Some tt)
           (λ _ _, true) ∅ unit (λ _, tt) (λ _ _, false) asListed asListed_perm
           uniformCluster noFilters _ 4900).
  vm_compute. reflexivity.
Defined.

(** Both panics of the page on the samples: the largest bucket, taken in
    the reversed order, is that of the count that [ips_all] no longer
    holds; and a sorted name that the map does not hold. *)
Example page_panics_on_samples :
  samplePage reversed (Some sharedAddress) noFilters = Panic
  ∧ samplePage asListed (Some sharedAddress) noFilters
    = Valid ["192.0.2.1"; "192.0.2.2"] 8900
  ∧ samplePage asListed (Some danglingName) noFilters = Panic.
Proof. split; [|split]; vm_compute; reflexivity. Qed.

Lemma page_panics_in_two_cases_witness :
  samplePage reversed (Some sharedAddress) noFilters = Panic
  ↔ (∃ name, name ∈ Sorted sharedAddress ∧ HostMap sharedAddress !! name = None)
    ∨ ∃ pass,
        sampleFirstLoop sharedAddress noFilters = Some pass
        ∧ ips_one_per_server pass ≠ ∅
        ∧ ∀ ip, is_Some (ips_one_per_server pass !! ip) →
                withinBounds (boundsOf 1000 reversed (ips_one_per_server pass))
                  (ips_all pass) ip = false.
Proof.
  apply (page_panics_in_two_cases 1000 1000 100 unit (λ _, Some tt)
           (λ _ _, true) ∅ unit (λ _, tt) (λ _ _, false) reversed reversed_perm
           sharedAddress noFilters).
  discriminate.
Defined.

Lemma no_buckets_without_counted_server_witness :
  samplePage asListed (Some nothingToCount) thresholdOne
  = Invalid broken_no_buckets
  ↔ (∀ name, name ∈ Sorted nothingToCount →
             is_Some (HostMap nothingToCount !! name))
    ∧ ∀ ip node, ¬ servedBy nothingToCount ip node.
Proof.
  apply (no_buckets_without_counted_server 1000 1000 100 unit (λ _, Some tt)
           (λ _ _, true) ∅ unit (λ _, tt) (λ _ _, false) asListed asListed_perm
           nothingToCount thresholdOne).
Defined.

Lemma filters_do_not_change_statistics_witness :
  ∃ pass',
    filteringLoop mixedCluster noFilters = Some pass'
    ∧ ips_one_per_server pass'
      = ips_one_per_server (default emptyPass (filteringLoop mixedCluster strictForm))
    ∧ ips_all pass'
      = ips_all (default emptyPass (filteringLoop mixedCluster strictForm))
    ∧ ips_skip_1010 pass'
      = ips_skip_1010 (default emptyPass (filteringLoop mixedCluster strictForm))
    ∧ computeThreshold 1000 1000 100 asListed (ips_one_per_server pass')
        (ips_all pass')
      = computeThreshold 1000 1000 100 asListed
          (ips_one_per_server
             (default emptyPass (filteringLoop mixedCluster strictForm)))
          (ips_all (default emptyPass (filteringLoop mixedCluster strictForm))).
Proof.
  apply (filters_do_not_change_statistics 1000 1000 100 string Some
           (λ this mv, String.leb mv this) {["sks_www"]} (list string)
           (λ c, [c]) (λ cs geo, bool_decide (geo ∈ cs)) asListed
           mixedCluster strictForm noFilters).
  vm_compute. reflexivity.
Defined.

Lemma one_address_per_server_witness :
  (size (ips_one_per_server
           (default emptyPass (sampleFirstLoop uniformCluster noFilters)))
   <= length (Sorted uniformCluster))%nat
  ∧ (∀ ip, is_Some (ips_one_per_server
                      (default emptyPass
                         (sampleFirstLoop uniformCluster noFilters)) !! ip)
           ↔ ∃ name node rest,
               name ∈ Sorted uniformCluster
               ∧ HostMap uniformCluster !! name = Some node
               ∧ 1 < Keycount node ∧ IpList node = ip :: rest)
  ∧ ∀ ip, is_Some (ips_all
                     (default emptyPass
                        (sampleFirstLoop uniformCluster noFilters)) !! ip)
          ↔ ∃ node, servedBy uniformCluster ip node.
Proof.
  apply (one_address_per_server unit (λ _, Some tt) (λ _ _, true) ∅ unit
           (λ _, tt) (λ _ _, false) uniformCluster noFilters).
  vm_compute. reflexivity.
Defined.

(** ** Distances, and the cases of a DNS result *)

Lemma renameHost_distance_keys hostname canonical s k :
  is_Some (distances (renameHost hostname canonical s) !! k) →
  is_Some (distances s !! k) ∨ k = canonical.
Proof.
  unfold renameHost. cbv zeta.
  repeat match goal with
         | |- context [match ?o with Some _ => _ | None => _ end] =>
             lazymatch o with
             | distances _ !! _ => fail
             | _ => destruct o
             end
         end; simpl;
    repeat match goal with
           | |- context [match ?o with Some _ => _ | None => _ end] =>
               destruct o
           | |- context [if ?b then _ else _] => destruct b
           end; simpl; rewrite ?lookup_insert_is_Some'; intuition.
Qed.

Lemma filter_ext_elem {A} (P Q : A → Prop) `{∀ x, Decision (P x)}
    `{∀ x, Decision (Q x)} (l : list A) :
  (∀ x, x ∈ l → P x ↔ Q x) → filter P l = filter Q l.
Proof.
  induction l as [|x l IH]; intros Hpq; [done|].
  rewrite !filter_cons.
  assert (Hx : P x ↔ Q x) by (apply Hpq; by left).
  rewrite IH by (intros y Hy; apply Hpq; by right).
  destruct (decide (P x)), (decide (Q x)); tauto || done.
Qed.

Lemma flattenIPs_single (l : list string) (ip : string) :
  ip ∈ flattenIPs [l] ↔ ip ∈ l.
Proof.
  unfold flattenIPs. simpl.
  destruct (appendNew_fold l [] (NoDup_nil_2)) as [_ Hin].
  rewrite Hin, elem_of_nil. tauto.
Qed.

(** The country lookups started by the second loop of [processDnsResult],
    over addresses that are distinct. *)
Lemma dnsFreshIP_fold_lookups hostname (l : list string) :
  ∀ acc : Spider * list Effect,
    NoDup l →
    let r := fold_left (dnsFreshIP hostname) l acc in
    r.2 = acc.2
          ++ (SpawnCountry
                <$> filter (λ ip, countriesForIPs acc.1 !! ip = None) l)
    ∧ (∀ ip, countriesForIPs r.1 !! ip
             = if bool_decide (ip ∈ l ∧ countriesForIPs acc.1 !! ip = None)
               then Some ""%string else countriesForIPs acc.1 !! ip)
    ∧ aliasesForHost r.1 = aliasesForHost acc.1
    ∧ serverInfos r.1 = serverInfos acc.1.
Proof.
  induction l as [|x l IH]; intros acc Hnd r; subst r; cbn [fold_left].
  { rewrite app_nil_r. split; [done|]. split; [|done]. intros ip.
    rewrite bool_decide_eq_false_2; [done|]. intros [Hin _].
    by apply elem_of_nil in Hin. }
  apply NoDup_cons in Hnd as [Hx Hnd].
  destruct (IH (dnsFreshIP hostname acc x) Hnd) as (IHe & IHc & -> & ->).
  assert (Hstep :
    countriesForIPs (dnsFreshIP hostname acc x).1
    = (if decide (countriesForIPs acc.1 !! x = None)
       then <[x := ""%string]> (countriesForIPs acc.1)
       else countriesForIPs acc.1)
    ∧ (dnsFreshIP hostname acc x).2
      = acc.2 ++ (if decide (countriesForIPs acc.1 !! x = None)
                  then [SpawnCountry x] else [])
    ∧ aliasesForHost (dnsFreshIP hostname acc x).1 = aliasesForHost acc.1
    ∧ serverInfos (dnsFreshIP hostname acc x).1 = serverInfos acc.1).
  { destruct (decide (countriesForIPs acc.1 !! x = None)) as [En|En];
      unfold dnsFreshIP; simpl.
    - by rewrite En.
    - destruct (countriesForIPs acc.1 !! x); [|done]. by rewrite app_nil_r. }
  destruct Hstep as (Hc & He & Ha & Hs).
  assert (Hother : ∀ ip, ip ∈ l →
            countriesForIPs (dnsFreshIP hostname acc x).1 !! ip
            = countriesForIPs acc.1 !! ip).
  { intros ip Hin. rewrite Hc. destruct (decide _); [|done].
    rewrite lookup_insert_ne; [done|]. by intros ->. }
  split; [|split; [|done]].
  - rewrite IHe, He, filter_cons, <- app_assoc. f_equal.
    rewrite (filter_ext_elem
               (λ ip, countriesForIPs (dnsFreshIP hostname acc x).1 !! ip = None)
               (λ ip, countriesForIPs acc.1 !! ip = None) l)
      by (intros ip Hin; by rewrite Hother).
    by destruct (decide (countriesForIPs acc.1 !! x = None)).
  - intros ip. rewrite IHc.
    destruct (decide (ip ∈ l)) as [Hin|Hnin].
    + rewrite (Hother ip Hin).
      destruct (countriesForIPs acc.1 !! ip) eqn:E.
      * rewrite !bool_decide_eq_false_2; [done|by intros [_ ?]|by intros [_ ?]].
      * rewrite !bool_decide_eq_true_2; [done|split; [by right|done]|done].
    + rewrite bool_decide_eq_false_2 by tauto. rewrite Hc.
      destruct (decide (x = ip)) as [->|Hne].
      * destruct (decide (countriesForIPs acc.1 !! ip = None)) as [En|En].
        -- rewrite lookup_insert_eq, bool_decide_eq_true_2;
             [done|split; [by left|done]].
        -- rewrite bool_decide_eq_false_2; [done|tauto].
      * rewrite bool_decide_eq_false_2.
        -- destruct (decide _); [by rewrite lookup_insert_ne|done].
        -- intros [Hin _]. apply elem_of_cons in Hin as [?|?]; congruence.
Qed.

Section SpiderCases.

Variable BlacklistedHosts : gset string.
Variable blacklistedQueryHosts : list string.
Variable IPDisallowed : string → bool.
Variable ParseIP : string → bool.

Local Abbreviation skip := (skipHost BlacklistedHosts blacklistedQueryHosts ParseIP).
Local Abbreviation consider :=
  (considerHost BlacklistedHosts blacklistedQueryHosts ParseIP).
Local Abbreviation considerEach :=
  (considerAll BlacklistedHosts blacklistedQueryHosts ParseIP).
Local Abbreviation dnsResultStep := (processDnsResult IPDisallowed).
Local Abbreviation step :=
  (selectCase BlacklistedHosts blacklistedQueryHosts IPDisallowed ParseIP).
Local Abbreviation run :=
  (spiderMainLoop BlacklistedHosts blacklistedQueryHosts IPDisallowed ParseIP).

(** *** Distances *)

Lemma considerHost_distance_keys hostname request s h :
  is_Some (distances (consider hostname request s).1 !! h) →
  is_Some (distances s !! h) ∨ accountedFor (consider hostname request s).1 h.
Proof.
  unfold considerHost.
  destruct (distances s !! hostname) as [old|] eqn:Ed;
    [destruct (old >? _)|]; destruct (skipHost _ _ _ _ _); simpl;
    rewrite ?lookup_insert_is_Some'; intros Hs;
    repeat match goal with
           | H : _ ∨ _ |- _ => destruct H as [<-|H]
           end;
    try (by left); try (left; by rewrite Ed);
    right; left; simpl; by rewrite lookup_insert_eq.
Qed.

Lemma considerAll_distance_keys hostreq s h :
  (is_Some (distances (considerEach hostreq s).1 !! h) →
   is_Some (distances s !! h) ∨ accountedFor (considerEach hostreq s).1 h).
Proof.
  unfold considerAll.
  assert (H : ∀ l (acc : Spider * list Effect),
    let r := fold_left
      (λ acc hostname,
         let '(s', eff) := consider hostname hostreq acc.1 in (s', acc.2 ++ eff))
      l acc in
    (is_Some (distances r.1 !! h) →
     is_Some (distances acc.1 !! h) ∨ accountedFor r.1 h)
    ∧ (accountedFor acc.1 h → accountedFor r.1 h)).
  { induction l as [|x l IH]; intros acc r; subst r; [by split; [left|]|].
    cbn [fold_left].
    destruct (IH (let '(s', eff) := consider x hostreq acc.1 in
                  (s', acc.2 ++ eff))) as [IHd IHa].
    pose proof (considerHost_distance_keys x hostreq acc.1 h) as Hd.
    pose proof (λ Ha, proj2 (considerHost_accounted BlacklistedHosts
                               blacklistedQueryHosts IPDisallowed ParseIP
                               x hostreq acc.1 h Ha)) as Ha.
    destruct (consider x hostreq acc.1) as [s1 e1]. simpl in *.
    split.
    - intros Hs. destruct (IHd Hs) as [H1|H1]; [|by right].
      destruct (Hd H1) as [?|?]; [by left|right; by apply IHa].
    - intros Hacc. by apply IHa, Ha. }
  apply (H (hostnames hostreq) (s, [])).
Qed.

Lemma processDnsResult_distances dns s :
  distances (dnsResultStep dns s).1 = distances s.
Proof.
  unfold processDnsResult. destruct (dns_err dns); [done|].
  destruct (dnsScan _ _ _ _ _) as [s1|] eqn:E.
  - by apply (dnsScan_cases IPDisallowed) in E as [->|(ip & c & _ & _ & ->)].
  - unfold dnsFresh.
    assert (Hf : ∀ l (acc : Spider * list Effect),
              distances (fold_left (dnsFreshIP (dns_hostname dns)) l acc).1
              = distances acc.1).
    { induction l as [|x l IH]; intros acc; simpl; [done|].
      rewrite IH. unfold dnsFreshIP. by case_match. }
    match goal with
    | |- context [fold_left (dnsFreshIP ?h) ?l ?acc] => specialize (Hf l acc)
    end.
    destruct (fold_left _ _ _) as [s4 spawned]. simpl in *. by rewrite Hf.
Qed.

Lemma processHostResult_distance_keys hr s s' eff h :
  processHostResult hr s = Some (s', eff) →
  is_Some (distances s' !! h) →
  is_Some (distances s !! h) ∨ is_Some (knownHosts s' !! h).
Proof.
  intros H Hs.
  pose proof (processHostResult_accounted _ _ _ _ H) as [_ Hgrow].
  unfold processHostResult in H.
  destruct (hr_err hr); [simplify_eq; by left|].
  destruct (hr_node hr) as [node|]; [|done].
  unfold BatchAddHost in H. simplify_eq. simpl in *.
  rewrite hostNodename_distances in Hs.
  destruct (hostCanonical_cases (hr_hostname hr) node s) as [E|(own & _ & _ & E)];
    rewrite E in *; simpl in *; [by left|].
  apply renameHost_distance_keys in Hs as [? | ->]; [by left|right].
  destruct (hostNodename_maps node own (renameHost (hr_hostname hr) own s))
    as (_ & _ & _ & _ & _ & Hk).
  destruct (renameHost_knownHosts (hr_hostname hr) own s) as [_ Hown].
  destruct Hk as [->|(n & _ & ->)]; [done|].
  apply lookup_insert_is_Some'. by right.
Qed.

Lemma step_distance_keys m s s' eff c h :
  step m s = Some (s', eff, c) →
  is_Some (distances s' !! h) →
  is_Some (distances s !! h) ∨ accountedFor s' h.
Proof.
  destruct m as [hostreq|dns|hr|cr|]; simpl; intros H Hs.
  - pose proof (considerAll_distance_keys hostreq s h) as Hd.
    destruct (considerAll _ _ _ _ _) as [s1 e1]. simplify_eq. by apply Hd.
  - pose proof (processDnsResult_distances dns s) as Hd.
    destruct (processDnsResult _ _ _) as [s1 e1]. simplify_eq. simpl in *.
    left. by rewrite <- Hd.
  - destruct (processHostResult hr s) as [[s1 e1]|] eqn:E; [|done].
    simplify_eq. simpl in Hs.
    destruct (processHostResult_distance_keys _ _ _ _ h E Hs) as [?|?];
      [by left|right]. right. by right.
  - simplify_eq. left. simpl in Hs. revert Hs.
    unfold processCountryResult. by case_match.
  - simplify_eq. by left.
Qed.

(** Whatever is received, every hostname that has a distance stays
    accounted for: it is in [considering], [badDNS] or [knownHosts]. *)
Theorem distances_stay_accounted (msgs : list Msg) (s s' : Spider)
    (eff : list Effect) :
  run msgs s = Some (s', eff) → distancesAccounted s → distancesAccounted s'.
Proof.
  revert s s' eff. induction msgs as [|m msgs IH]; intros s s' eff H Hinv.
  { simpl in H. by simplify_eq. }
  apply (run_cons BlacklistedHosts blacklistedQueryHosts IPDisallowed ParseIP)
    in H as (s1 & e1 & c & e2 & Hstep & Hrun & ->).
  eapply IH; [exact Hrun|]. intros h Hs.
  destruct (step_distance_keys _ _ _ _ _ h Hstep Hs) as [Hold|?]; [|done].
  by apply (step_accounted BlacklistedHosts blacklistedQueryHosts IPDisallowed
              ParseIP m s s1 e1 c h Hstep), Hinv.
Qed.

(** A request for a hostname that is accounted for and has a distance
    starts nothing and leaves the smaller of the two distances, the
    recorded one and the one of the request; no other distance changes. *)
Theorem known_host_distance_is_min (hostname : string) (request : HostsRequest)
    (s : Spider) (old : Z) :
  accountedFor s hostname →
  distances s !! hostname = Some old →
  (consider hostname request s).2 = []
  ∧ distances (consider hostname request s).1 !! hostname
    = Some (Z.min old (requestDistance s request))
  ∧ ∀ h, h ≠ hostname →
         distances (consider hostname request s).1 !! h = distances s !! h.
Proof.
  intros Hacc Hold.
  assert (Hskip : skip s hostname = true).
  { apply (skipHost_policy BlacklistedHosts blacklistedQueryHosts IPDisallowed
             ParseIP). by left. }
  unfold considerHost. rewrite Hold.
  destruct (Z.gtb_spec old (requestDistance s request)) as [Hgt|Hle].
  - change (skip (with_distances <[hostname:=requestDistance s request]> s)
              hostname) with (skip s hostname).
    rewrite Hskip. simpl. split; [done|]. split.
    + rewrite lookup_insert_eq. f_equal. lia.
    + intros h Hne. by rewrite lookup_insert_ne.
  - rewrite Hskip. simpl. split; [done|]. split; [|done].
    rewrite Hold. f_equal. lia.
Qed.

(** *** A DNS result for a new host, and for an address already known *)

Lemma dnsScan_none hostname ipList rest s :
  (∀ ip, ip ∈ rest → IPDisallowed ip = false ∧ knownIPs s !! ip = None) →
  dnsScan IPDisallowed hostname ipList rest s = None.
Proof.
  induction rest as [|x rest IH]; intros H; simpl; [done|].
  destruct (H x) as [-> ->]; [by left|].
  apply IH. intros ip Hin. apply H. by right.
Qed.

Lemma dnsScan_known hostname ipList (pre : list string) ip canonical rest s :
  (∀ x, x ∈ pre → IPDisallowed x = false ∧ knownIPs s !! x = None) →
  IPDisallowed ip = false →
  knownIPs s !! ip = Some canonical →
  dnsScan IPDisallowed hostname ipList (pre ++ ip :: rest) s
  = Some (dnsAlias hostname canonical ipList s).
Proof.
  induction pre as [|x pre IH]; intros Hpre Hip Hk; simpl.
  { by rewrite Hip, Hk. }
  destruct (Hpre x) as [-> ->]; [by left|].
  apply IH; [|done|done]. intros y Hy. apply Hpre. by right.
Qed.

(** When no address of a DNS result is disallowed or already known, the
    hostname is a new host: it becomes its own canonical name and only
    alias, its deduplicated addresses are recorded under it, a [nil]
    entry is made for it in [serverInfos], and exactly one country lookup
    is started for each address that has no country entry yet, in order,
    followed by one probe of the host. *)
Theorem processDnsResult_new_host (dns : DnsResult) (s : Spider) :
  dns_err dns = None →
  (∀ ip, ip ∈ dns_ipList dns →
         IPDisallowed ip = false ∧ knownIPs s !! ip = None) →
  (dnsResultStep dns s).2
  = (SpawnCountry
       <$> filter (λ ip, countriesForIPs s !! ip = None)
             (flattenIPs [dns_ipList dns]))
    ++ [SpawnQueryHost (dns_hostname dns)]
  ∧ knownHosts (dnsResultStep dns s).1
    = <[dns_hostname dns := dns_hostname dns]> (knownHosts s)
  ∧ aliasesForHost (dnsResultStep dns s).1
    = <[dns_hostname dns := [dns_hostname dns]]> (aliasesForHost s)
  ∧ ipsForHost (dnsResultStep dns s).1
    = <[dns_hostname dns := flattenIPs [dns_ipList dns]]> (ipsForHost s)
  ∧ serverInfos (dnsResultStep dns s).1
    = <[dns_hostname dns := None]> (serverInfos s)
  ∧ badDNS (dnsResultStep dns s).1 = badDNS s
  ∧ (∀ ip, knownIPs (dnsResultStep dns s).1 !! ip
           = if bool_decide (ip ∈ dns_ipList dns)
             then Some (dns_hostname dns) else knownIPs s !! ip)
  ∧ ∀ ip, countriesForIPs (dnsResultStep dns s).1 !! ip
          = if bool_decide (ip ∈ dns_ipList dns ∧ countriesForIPs s !! ip = None)
            then Some ""%string else countriesForIPs s !! ip.
Proof.
  intros Herr Hnew. unfold processDnsResult. rewrite Herr.
  rewrite dnsScan_none
    by (intros ip Hin; apply Hnew; by apply flattenIPs_single).
  destruct (dnsFresh_maps (dns_hostname dns) (flattenIPs [dns_ipList dns]) s)
    as (Hk & Hi & Hb & Hips).
  revert Hk Hi Hb Hips. unfold dnsFresh.
  match goal with
  | |- context [fold_left (dnsFreshIP ?h) ?l ?acc] =>
      destruct (dnsFreshIP_fold_lookups h l acc (flattenIPs_NoDup _))
        as (He & Hc & Ha & Hs)
  end.
  destruct (fold_left _ _ _) as [s4 spawned]. simpl in *.
  intros Hk Hi Hb Hips. subst spawned.
  split; [done|]. split; [done|]. split; [by rewrite Ha|]. split; [done|].
  split; [by rewrite Hs|]. split; [done|]. split.
  - intros ip. rewrite Hips.
    destruct (decide (ip ∈ dns_ipList dns)) as [Hin|Hnin].
    + rewrite !bool_decide_eq_true_2; [done|done|by apply flattenIPs_single].
    + rewrite !bool_decide_eq_false_2; [done|done|by rewrite flattenIPs_single].
  - intros ip. rewrite Hc.
    destruct (decide (ip ∈ dns_ipList dns ∧ countriesForIPs s !! ip = None))
      as [Hin|Hnin].
    + rewrite !bool_decide_eq_true_2; [done|done|].
      by rewrite flattenIPs_single.
    + rewrite !bool_decide_eq_false_2; [done|done|].
      by rewrite flattenIPs_single.
Qed.

(** When the first address of the deduplicated list that is disallowed or
    already known is one recorded under [canonical], the hostname becomes
    an alias of [canonical] in [knownHosts], every address of the result
    is recorded under [canonical] and joins its address list, and nothing
    is started; [aliasesForHost], [serverInfos] and [badDNS] stay as they
    were, whatever addresses follow in the list. *)
Theorem processDnsResult_known_address
    (dns : DnsResult) (pre : list string) (ip : string) (rest : list string)
    (canonical : string) (s : Spider) :
  dns_err dns = None →
  flattenIPs [dns_ipList dns] = pre ++ ip :: rest →
  (∀ x, x ∈ pre → IPDisallowed x = false ∧ knownIPs s !! x = None) →
  IPDisallowed ip = false →
  knownIPs s !! ip = Some canonical →
  (dnsResultStep dns s).2 = []
  ∧ knownHosts (dnsResultStep dns s).1
    = <[dns_hostname dns := canonical]> (knownHosts s)
  ∧ (∀ x, knownIPs (dnsResultStep dns s).1 !! x
          = if bool_decide (x ∈ dns_ipList dns)
            then Some canonical else knownIPs s !! x)
  ∧ ipsForHost (dnsResultStep dns s).1
    = <[canonical := flattenIPs [getL (ipsForHost s) canonical;
                                 flattenIPs [dns_ipList dns]]]> (ipsForHost s)
  ∧ aliasesForHost (dnsResultStep dns s).1 = aliasesForHost s
  ∧ serverInfos (dnsResultStep dns s).1 = serverInfos s
  ∧ badDNS (dnsResultStep dns s).1 = badDNS s.
Proof.
  intros Herr Hflat Hpre Hip Hk.
  assert (Hret : dnsResultStep dns s
                 = (dnsAlias (dns_hostname dns) canonical
                      (flattenIPs [dns_ipList dns]) s, [])).
  { unfold processDnsResult. rewrite Herr. cbv zeta. rewrite Hflat at 2.
    by rewrite (dnsScan_known _ _ pre ip canonical rest s). }
  rewrite Hret. simpl. split; [done|]. split; [done|]. split; [|done].
  intros x. rewrite fold_insert_const.
  destruct (decide (x ∈ dns_ipList dns)) as [Hin|Hnin].
  - rewrite !bool_decide_eq_true_2; [done|done|by apply flattenIPs_single].
  - rewrite !bool_decide_eq_false_2; [done|done|by rewrite flattenIPs_single].
Qed.

End SpiderCases.

(** *** Distances and DNS results on the samples *)

Lemma distances_stay_accounted_witness :
  distancesAccounted (sampleRun sharedAddressTrace).1.
Proof.
  apply (distances_stay_accounted sampleBlacklistedHosts sampleQueryBlacklist
           sampleIPDisallowed sampleParseIP sharedAddressTrace StartSpider
           (sampleRun sharedAddressTrace).1 (sampleRun sharedAddressTrace).2).
  - vm_compute. reflexivity.
  - intros hostname H. simpl in H. rewrite lookup_empty in H. by destruct H.
Defined.

Lemma known_host_distance_is_min_witness :
  (considerHost sampleBlacklistedHosts sampleQueryBlacklist sampleParseIP
     "keys.a.example" nearRequest (sampleRun farSeedTrace).1).2 = []
  ∧ distances
      (considerHost sampleBlacklistedHosts sampleQueryBlacklist sampleParseIP
         "keys.a.example" nearRequest (sampleRun farSeedTrace).1).1
      !! "keys.a.example"
    = Some (Z.min 4 (requestDistance (sampleRun farSeedTrace).1 nearRequest))
  ∧ ∀ h, h ≠ "keys.a.example" →
         distances
           (considerHost sampleBlacklistedHosts sampleQueryBlacklist
              sampleParseIP "keys.a.example" nearRequest
              (sampleRun farSeedTrace).1).1 !! h
         = distances (sampleRun farSeedTrace).1 !! h.
Proof.
  apply (known_host_distance_is_min sampleBlacklistedHosts sampleQueryBlacklist
           sampleIPDisallowed sampleParseIP "keys.a.example" nearRequest
           (sampleRun farSeedTrace).1 4).
  - left. vm_compute. by eexists.
  - vm_compute. reflexivity.
Defined.

Lemma processDnsResult_new_host_witness :
  (processDnsResult sampleIPDisallowed repeatedAddress
     (sampleRun [seed ["keys.a.example"]]).1).2
  = (SpawnCountry
       <$> filter (λ ip, countriesForIPs (sampleRun [seed ["keys.a.example"]]).1
                           !! ip = None)
             (flattenIPs [dns_ipList repeatedAddress]))
    ++ [SpawnQueryHost "keys.a.example"].
Proof.
  apply (processDnsResult_new_host sampleIPDisallowed repeatedAddress
           (sampleRun [seed ["keys.a.example"]]).1).
  - reflexivity.
  - intros ip Hin.
    repeat (apply elem_of_cons in Hin as [->|Hin]; [by vm_compute|]).
    by apply elem_of_nil in Hin.
Defined.

Example new_host_lookups :
  (processDnsResult sampleIPDisallowed repeatedAddress
     (sampleRun [seed ["keys.a.example"]]).1).2
  = [SpawnCountry "192.0.2.1"; SpawnCountry "2001:db8::1";
     SpawnQueryHost "keys.a.example"].
Proof. vm_compute. reflexivity. Qed.

Lemma processDnsResult_known_address_witness :
  (processDnsResult sampleIPDisallowed sameAddress
     (sampleRun firstResolvedTrace).1).2 = []
  ∧ knownHosts
      (processDnsResult sampleIPDisallowed sameAddress
         (sampleRun firstResolvedTrace).1).1
    = <["keys.b.example" := "keys.a.example"]>
        (knownHosts (sampleRun firstResolvedTrace).1).
Proof.
  destruct (processDnsResult_known_address sampleIPDisallowed sameAddress
              [] "192.0.2.1" [] "keys.a.example"
              (sampleRun firstResolvedTrace).1) as (H1 & H2 & _).
  - reflexivity.
  - reflexivity.
  - intros x Hx. by apply elem_of_nil in Hx.
  - reflexivity.
  - vm_compute. reflexivity.
  - split; [exact H1|exact H2].
Defined.


Lemma counters_follow_work_witness :
  getZ (pendingHosts (sampleRun sharedAddressTrace).1) "keys.a.example"
  = wrap (0 + hostsInFlight "keys.a.example" (sampleRun sharedAddressTrace).2
          - hostConsumedAll "keys.a.example" sharedAddressTrace)
  ∧ getZ (pendingCountries (sampleRun sharedAddressTrace).1) "192.0.2.1"
    = wrap (0 + countriesInFlight "192.0.2.1" (sampleRun sharedAddressTrace).2
            - countryConsumedAll "192.0.2.1" sharedAddressTrace).
Proof.
  apply (counters_follow_work sampleBlacklistedHosts sampleQueryBlacklist
           sampleIPDisallowed sampleParseIP sharedAddressTrace StartSpider).
  - vm_compute. reflexivity.
  - reflexivity.
  - reflexivity.
Defined.

Lemma accounted_hostname_never_looked_up_witness :
  ("keys.a.example"
     ∉ dnsSpawns (default (StartSpider, [])
                    (sampleLoop [seed ["keys.a.example"]]
                       (sampleRun failedLookupTrace).1)).2)
  ∧ accountedFor (default (StartSpider, [])
                    (sampleLoop [seed ["keys.a.example"]]
                       (sampleRun failedLookupTrace).1)).1
      "keys.a.example".
Proof.
  apply (accounted_hostname_never_looked_up sampleBlacklistedHosts
           sampleQueryBlacklist sampleIPDisallowed sampleParseIP
           [seed ["keys.a.example"]] (sampleRun failedLookupTrace).1).
  - vm_compute. reflexivity.
  - right. left. vm_compute. by eexists.
Defined.

Lemma known_addresses_stay_named_witness :
  addressesNamed (sampleRun sharedAddressTrace).1.
Proof.
  apply (known_addresses_stay_named sampleBlacklistedHosts
           sampleQueryBlacklist sampleIPDisallowed sampleParseIP
           sharedAddressTrace StartSpider (sampleRun sharedAddressTrace).1
           (sampleRun sharedAddressTrace).2).
  - vm_compute. reflexivity.
  - intros ip canonical H. simpl in H. by rewrite lookup_empty in H.
Defined.

Lemma address_lists_stay_distinct_witness :
  addressListsDistinct (sampleRun sharedAddressTrace).1.
Proof.
  apply (address_lists_stay_distinct sampleBlacklistedHosts
           sampleQueryBlacklist sampleIPDisallowed sampleParseIP
           sharedAddressTrace StartSpider (sampleRun sharedAddressTrace).1
           (sampleRun sharedAddressTrace).2).
  - vm_compute. reflexivity.
  - intros hostname ipList H. simpl in H. by rewrite lookup_empty in H.
Defined.

Lemma processHostResult_moves_to_own_name_witness :
  ∃ s',
    processHostResult renamingResult (sampleRun oneResolvedTrace).1
    = Some (s', [SendBatch {| hostnames := []; distance := 0;
                              origin := "keys.b.example" |}])
    ∧ serverInfos s' !! "keys.b.example" = Some (Some renamingNode)
    ∧ serverInfos s' !! "keys.a.example" = None
    ∧ aliasesForHost s' !! "keys.b.example"
      = Some ["keys.a.example"; "keys.b.example"]
    ∧ knownHosts s' !! "keys.a.example" = Some "keys.b.example"
    ∧ knownIPs s' !! "192.0.2.1" = Some "keys.b.example".
Proof.
  destruct (processHostResult_moves_to_own_name renamingResult renamingNode
              "keys.b.example" (sampleRun oneResolvedTrace).1)
    as (s' & Hret & Hnode & Hgone & Haliases & _ & _ & Hknown & Hips);
    [reflexivity|reflexivity|vm_compute; reflexivity|discriminate|].
  exists s'. split; [exact Hret|]. split; [exact Hnode|].
  split; [exact Hgone|]. split; [exact Haliases|]. split.
  - apply Hknown. vm_compute. by left.
  - apply Hips. vm_compute. by left.
Defined.

(** ** The crawl *)

Lemma QueryHost_not_empty Fetch Analyze withAnalyzeError hostname :
  hr_hostname (QueryHost Fetch Analyze withAnalyzeError hostname) = hostname
  ∧ (hr_err (QueryHost Fetch Analyze withAnalyzeError hostname) = None →
     is_Some (hr_node (QueryHost Fetch Analyze withAnalyzeError hostname))).
Proof.
  unfold QueryHost. destruct (Fetch _) as [fetched [err|]]; [done|].
  destruct (Analyze fetched) as [analyzed [x|]]; [done|]. by split.
Qed.

Lemma started_zero (eff : list Effect) :
  started eff = 0 →
  ∀ e, e ∈ eff → ∃ request, e = SendBatch request ∧ hostnames request = [].
Proof.
  induction eff as [|x eff IH]; intros H e Hin; [by apply elem_of_nil in Hin|].
  simpl in H. pose proof (started_nonneg eff) as Hge.
  assert (Hx : 0 <= unitsOf x) by (destruct x; simpl; lia).
  apply elem_of_cons in Hin as [->|Hin]; [|apply IH; [lia|done]].
  destruct x as [h|h|ip|request]; simpl in *; try lia.
  exists request. split; [done|].
  destruct (hostnames request); [done|]. simpl in *. lia.
Qed.

Lemma probes_app (e1 e2 : list Effect) : probes (e1 ++ e2) = probes e1 ++ probes e2.
Proof. apply omap_app. Qed.

Lemma dnsFreshIP_fold_probes hostname (l : list string) :
  ∀ acc : Spider * list Effect,
    probes (fold_left (dnsFreshIP hostname) l acc).2 = probes acc.2
    ∧ dnsSpawns (fold_left (dnsFreshIP hostname) l acc).2 = dnsSpawns acc.2.
Proof.
  induction l as [|ip l IH]; intros acc; simpl; [done|].
  destruct (IH (dnsFreshIP hostname acc ip)) as [-> ->].
  unfold dnsFreshIP. case_match; simpl; [done|].
  rewrite probes_app, dnsSpawns_app. simpl. by rewrite !app_nil_r.
Qed.

Lemma dnsSpawns_without (before after : list Effect) (e : Effect) :
  dnsSpawns (before ++ after) `sublist_of` dnsSpawns (before ++ e :: after).
Proof.
  rewrite !dnsSpawns_app. apply sublist_app; [done|].
  destruct e; simpl; [by apply sublist_cons|done..].
Qed.

Section CrawlProofs.

Variable BlacklistedHosts : gset string.
Variable blacklistedQueryHosts : list string.
Variable IPDisallowed : string → bool.
Variable ParseIP : string → bool.
Variable withAnalyzeError : string → SksNode → SksNode.

Local Abbreviation step :=
  (selectCase BlacklistedHosts blacklistedQueryHosts IPDisallowed ParseIP).
Local Abbreviation answer := (answers withAnalyzeError).
Local Abbreviation crawl :=
  (crawling BlacklistedHosts blacklistedQueryHosts IPDisallowed ParseIP
     withAnalyzeError).

Lemma answers_consumed e m : answer e m → consumed m = unitsOf e.
Proof. by intros []. Qed.

Lemma answers_handled e m s : answer e m → is_Some (step m s).
Proof.
  intros Hans. destruct (step m s) as [r|] eqn:E; [done|].
  apply step_None in E as (hr & -> & Herr & Hnode).
  inversion Hans as [| Fetch Analyze hostname Heq Hhr | |]. subst.
  destruct (QueryHost_not_empty Fetch Analyze withAnalyzeError hostname)
    as [_ H].
  destruct (H Herr) as [node Hsome]. congruence.
Qed.

(** The counter of the WaitGroup is the work in flight.  In every state of
    a crawl it equals the number of workers that have not sent their
    result plus the number of hostnames in the requests not yet received;
    so when it is zero, which is when [Wait] returns, no worker is running
    and no request with a hostname is on its way. *)
Theorem pending_is_work_in_flight (s : Spider) (inflight history : list Effect) :
  crawl s inflight history →
  pending s = started inflight
  ∧ (pending s = 0 →
     ∀ e, e ∈ inflight →
          ∃ request, e = SendBatch request ∧ hostnames request = []).
Proof.
  intros H.
  assert (Hp : pending s = started inflight).
  { induction H as [|hostname dist s inflight history H IH
                    |s inflight history s' eff c H IH Hstep
                    |e m before after history s s' eff c H IH Hans Hstep].
    - done.
    - simpl. rewrite started_app. simpl. lia.
    - simpl in Hstep. simplify_eq. rewrite started_app. simpl. lia.
    - apply step_pending in Hstep. apply answers_consumed in Hans.
      rewrite started_app in IH. simpl in IH.
      rewrite !started_app. lia. }
  split; [done|]. intros Hz. apply started_zero. lia.
Qed.

(** A crawl goes on: whatever a worker in flight answers, the owner
    handles the answer without a panic and the crawl is in a state again,
    with the answered work replaced by the work the answer started. *)
Theorem crawl_goes_on (s : Spider) (before after history : list Effect)
    (e : Effect) (m : Msg) :
  crawl s (before ++ e :: after) history →
  answer e m →
  ∃ s' eff c,
    step m s = Some (s', eff, c)
    ∧ crawl s' (before ++ after ++ eff) (history ++ eff).
Proof.
  intros Hc Hans. destruct (answers_handled e m s Hans) as [[[s' eff] c] E].
  exists s', eff, c. split; [done|]. by eapply crawl_receive.
Qed.

(** *** Each host is looked up and probed once *)

Lemma considerAll_probes hostreq s :
  probes (considerAll BlacklistedHosts blacklistedQueryHosts ParseIP hostreq s).2
  = [].
Proof.
  unfold considerAll.
  assert (H : ∀ l (acc : Spider * list Effect),
    probes acc.2 = [] →
    probes (fold_left
              (λ acc hostname,
                 let '(s', eff) :=
                   considerHost BlacklistedHosts blacklistedQueryHosts ParseIP
                     hostname hostreq acc.1 in
                 (s', acc.2 ++ eff))
              l acc).2 = []).
  { induction l as [|x l IH]; intros acc Hacc; [done|].
    cbn [fold_left]. apply IH.
    destruct (considerHost_started BlacklistedHosts blacklistedQueryHosts
                ParseIP acc.1 x hostreq) as [Hrej Hnew].
    simpl in Hrej, Hnew.
    destruct (considerHost _ _ _ x hostreq acc.1) as [s1 e1]. simpl in *.
    rewrite probes_app, Hacc.
    destruct (skipHost BlacklistedHosts blacklistedQueryHosts ParseIP acc.1 x).
    - by destruct (Hrej eq_refl) as (-> & _).
    - by destruct (Hnew eq_refl) as (-> & _). }
  by apply (H (hostnames hostreq) (s, [])).
Qed.

Lemma processDnsResult_probes dns s :
  dnsSpawns (processDnsResult IPDisallowed dns s).2 = []
  ∧ (probes (processDnsResult IPDisallowed dns s).2 = []
     ∨ (probes (processDnsResult IPDisallowed dns s).2 = [dns_hostname dns]
        ∧ is_Some (knownHosts (processDnsResult IPDisallowed dns s).1
                     !! dns_hostname dns))).
Proof.
  unfold processDnsResult. destruct (dns_err dns); [by split; [|left]|].
  destruct (dnsScan _ _ _ _ _) as [s1|]; [by split; [|left]|].
  destruct (dnsFresh_maps (dns_hostname dns) (flattenIPs [dns_ipList dns]) s)
    as (Hk & _).
  revert Hk. unfold dnsFresh.
  match goal with
  | |- context [fold_left (dnsFreshIP ?h) ?l ?acc] =>
      destruct (dnsFreshIP_fold_probes h l acc) as [Hp Hd]
  end.
  destruct (fold_left _ _ _) as [s4 spawned]. simpl in *. intros Hk.
  rewrite dnsSpawns_app, probes_app, Hp, Hd. simpl. split; [done|]. right.
  split; [done|]. by rewrite Hk, lookup_insert_eq.
Qed.

(** What the answer to a piece of work in flight starts: no probe, or the
    one probe of the hostname whose lookup is answered. *)
Lemma answers_probes e m s s' eff c :
  answer e m →
  step m s = Some (s', eff, c) →
  probes eff = []
  ∨ ∃ hostname,
      e = SpawnDns hostname ∧ probes eff = [hostname] ∧ dnsSpawns eff = []
      ∧ is_Some (knownHosts s' !! hostname).
Proof.
  intros [hostname ipList err|Fetch Analyze hostname|CountryForIPString i
          |request]; simpl; intros H.
  - match type of H with
    | context [processDnsResult _ ?dns s] =>
        destruct (processDnsResult_probes dns s) as [Hd Hp];
        destruct (processDnsResult IPDisallowed dns s) as [s1 e1]
    end.
    simplify_eq. simpl in *. destruct Hp as [?|[? ?]]; [by left|right].
    by exists hostname.
  - destruct (processHostResult _ s) as [[s1 e1]|] eqn:E; [|done].
    simplify_eq. left.
    by apply processHostResult_cases in E
      as [(? & _ & -> & _)|(? & _ & _ & -> & _)].
  - simplify_eq. by left.
  - pose proof (considerAll_probes request s) as Hp.
    destruct (considerAll _ _ _ _ _) as [s1 e1]. simplify_eq. by left.
Qed.

Lemma step_knownHosts m s s' eff c h :
  step m s = Some (s', eff, c) →
  is_Some (knownHosts s !! h) → is_Some (knownHosts s' !! h).
Proof.
  destruct m as [hostreq|dns|hr|cr|]; simpl; intros H Hh.
  - destruct (considerAll_frame BlacklistedHosts blacklistedQueryHosts ParseIP
                hostreq s) as (_ & _ & Hk & _).
    destruct (considerAll _ _ _ _ _) as [s1 e1]. simplify_eq. simpl in *.
    by rewrite Hk.
  - destruct (processDnsResult_accounted IPDisallowed dns s) as [_ Hk].
    destruct (processDnsResult _ _ _) as [s1 e1]. simplify_eq. by apply Hk.
  - destruct (processHostResult hr s) as [[s1 e1]|] eqn:E; [|done].
    apply processHostResult_accounted in E as [_ Hk]. simplify_eq. by apply Hk.
  - simplify_eq. simpl. unfold processCountryResult. by case_match.
  - by simplify_eq.
Qed.

Lemma crawl_queries s inflight history :
  crawl s inflight history →
  (∀ h, h ∈ dnsSpawns history → is_Some (considering s !! h))
  ∧ NoDup (dnsSpawns history)
  ∧ (∀ h, h ∈ probes history →
          is_Some (knownHosts s !! h) ∧ h ∈ dnsSpawns history
          ∧ h ∉ dnsSpawns inflight)
  ∧ NoDup (probes history)
  ∧ (∀ h, h ∈ dnsSpawns inflight → h ∈ dnsSpawns history)
  ∧ NoDup (dnsSpawns inflight).
Proof.
  intros H.
  induction H as [|hostname dist s inflight history H IH
                  |s inflight history s' eff c H IH Hstep
                  |e m before after history s s' eff c H IH Hans Hstep].
  - simpl. split; [|split; [|split; [|split; [|split]]]];
      try apply NoDup_nil_2; intros h Hin; by apply elem_of_nil in Hin.
  - simpl. rewrite !dnsSpawns_app, !probes_app. simpl. by rewrite !app_nil_r.
  - simpl in Hstep. simplify_eq. by rewrite !app_nil_r.
  - destruct IH as (I1 & I2 & I3 & I4 & I5 & I6).
    destruct (step_extends _ _ _ _ _ _ _ _ _ Hstep) as (Hgrow & Hnd & Hnew).
    pose proof (λ h Ha, proj1 (step_accounted BlacklistedHosts
                                 blacklistedQueryHosts IPDisallowed ParseIP
                                 m s s' eff c h Hstep Ha)) as Hacc.
    pose proof (λ h, step_knownHosts m s s' eff c h Hstep) as Hk.
    pose proof (dnsSpawns_without before after e) as Hsub.
    assert (Hfresh : ∀ h, h ∈ dnsSpawns eff → h ∉ dnsSpawns history).
    { intros h Hin Hold. destruct (Hnew h Hin) as [Hnone _].
      destruct (I1 h Hold) as [v Hv]. congruence. }
    assert (Hrest : ∀ h, h ∈ dnsSpawns (before ++ after) →
                         h ∈ dnsSpawns (before ++ e :: after)).
    { intros h Hin. by eapply elem_of_sublist. }
    rewrite (app_assoc before after eff).
    rewrite (dnsSpawns_app history eff), (dnsSpawns_app (before ++ after) eff),
      probes_app.
    assert (Hold : ∀ h, h ∈ probes history →
              is_Some (knownHosts s' !! h)
              ∧ h ∈ dnsSpawns history ++ dnsSpawns eff
              ∧ h ∉ dnsSpawns (before ++ after) ++ dnsSpawns eff).
    { intros h Hin. destruct (I3 h Hin) as (Hkn & Hh & Hnf).
      split; [by apply Hk|]. split; [apply elem_of_app; by left|].
      intros Hin'. apply elem_of_app in Hin' as [Hin'|Hin'].
      - by apply Hnf, Hrest.
      - apply (Hacc h); [|done]. right. by right. }
    split; [|split; [|split; [|split; [|split]]]].
    + intros h Hin. apply elem_of_app in Hin as [Hin|Hin].
      * by apply Hgrow, I1.
      * by destruct (Hnew h Hin).
    + apply NoDup_app. split; [done|]. split; [|done].
      intros h Hin1 Hin2. by apply (Hfresh h).
    + destruct (answers_probes e m s s' eff c Hans Hstep)
        as [->|(h0 & -> & -> & Hd & Hk0)].
      * rewrite app_nil_r. exact Hold.
      * intros h Hin. apply elem_of_app in Hin as [Hin|Hin]; [by apply Hold|].
        apply list_elem_of_singleton in Hin as ->.
        assert (Hin0 : h0 ∈ dnsSpawns (before ++ SpawnDns h0 :: after)).
        { rewrite dnsSpawns_app. apply elem_of_app. right. by left. }
        split; [done|]. split; [apply elem_of_app; left; by apply I5|].
        rewrite Hd, app_nil_r. rewrite dnsSpawns_app in I6 |- *.
        simpl in I6. apply NoDup_app in I6 as (_ & Hdis & Ha).
        apply NoDup_cons in Ha as [Ha _].
        intros Hin. apply elem_of_app in Hin as [Hin|Hin]; [|done].
        apply (Hdis h0 Hin). by left.
    + destruct (answers_probes e m s s' eff c Hans Hstep)
        as [->|(h0 & -> & -> & Hd & Hk0)]; [by rewrite app_nil_r|].
      apply NoDup_app. split; [done|]. split; [|apply NoDup_singleton].
      intros h Hin Hin0. apply list_elem_of_singleton in Hin0 as ->.
      destruct (I3 h0 Hin) as (_ & _ & Hnf). apply Hnf.
      rewrite dnsSpawns_app. apply elem_of_app. right. by left.
    + intros h Hin. apply elem_of_app. apply elem_of_app in Hin as [Hin|Hin].
      * left. by apply I5, Hrest.
      * by right.
    + apply NoDup_app. split; [exact (sublist_NoDup _ _ I6 Hsub)|].
      split; [|done].
      intros h Hin1 Hin2. apply (Hfresh h Hin2). by apply I5, Hrest.
Qed.

(** In a crawl every hostname has its DNS lookup started at most once and
    its probe started at most once, and a probe is started only for a
    hostname whose lookup was started and has been answered. *)
Theorem each_host_queried_once (s : Spider) (inflight history : list Effect) :
  crawl s inflight history →
  NoDup (dnsSpawns history)
  ∧ NoDup (probes history)
  ∧ ∀ h, h ∈ probes history →
         h ∈ dnsSpawns history ∧ h ∉ dnsSpawns inflight.
Proof.
  intros H. destruct (crawl_queries s inflight history H)
    as (_ & I2 & I3 & I4 & _).
  split; [done|]. split; [done|]. intros h Hin.
  by destruct (I3 h Hin) as (_ & ? & ?).
Qed.

(** *** The maps in a crawl *)

(** In every state of a crawl the maps agree with each other: every
    address of [knownIPs] is recorded under a hostname that is a key of
    [knownHosts], no list of [ipsForHost] holds an address twice, and
    every hostname that has a distance is in [considering], [badDNS] or
    [knownHosts]. *)
Theorem crawl_maps_agree (s : Spider) (inflight history : list Effect) :
  crawl s inflight history →
  addressesNamed s ∧ addressListsDistinct s ∧ distancesAccounted s.
Proof.
  intros H.
  induction H as [|hostname dist s inflight history H IH
                  |s inflight history s' eff c H IH Hstep
                  |e m before after history s s' eff c H IH Hans Hstep].
  - split; [|split].
    + intros ip c Hc. simpl in Hc. by rewrite lookup_empty in Hc.
    + intros h l Hl. simpl in Hl. by rewrite lookup_empty in Hl.
    + intros h [d Hd]. simpl in Hd. by rewrite lookup_empty in Hd.
  - exact IH.
  - simpl in Hstep. by simplify_eq.
  - destruct IH as (I1 & I2 & I3). split; [|split].
    + by eapply step_named.
    + by eapply step_distinct.
    + intros h Hs.
      destruct (step_distance_keys BlacklistedHosts blacklistedQueryHosts
                  IPDisallowed ParseIP m s s' eff c h Hstep Hs) as [Hold|?];
        [|done].
      by apply (step_accounted BlacklistedHosts blacklistedQueryHosts
                  IPDisallowed ParseIP m s s' eff c h Hstep), I3.
Qed.

End CrawlProofs.

Lemma oneHostAdded_crawling :
  sampleCrawling oneHostAdded.1 oneHostAdded.2
    ((AddHost "keys.a.example" 0 StartSpider).2 ++ oneHostAdded.2).
Proof.
  apply (crawl_receive sampleBlacklistedHosts sampleQueryBlacklist
           sampleIPDisallowed sampleParseIP sampleWithAnalyzeError
           (SendBatch {| hostnames := ["keys.a.example"]; distance := 0;
                         origin := "" |})
           (seed ["keys.a.example"])
           [] [] (AddHost "keys.a.example" 0 StartSpider).2
           (AddHost "keys.a.example" 0 StartSpider).1
           oneHostAdded.1 oneHostAdded.2 Normal).
  - apply (crawl_add _ _ _ _ _ "keys.a.example" 0 StartSpider [] []).
    apply crawl_start.
  - apply answers_batch.
  - vm_compute. reflexivity.
Qed.

Lemma pending_is_work_in_flight_witness :
  pending oneHostAdded.1 = started oneHostAdded.2
  ∧ (pending oneHostAdded.1 = 0 →
     ∀ e, e ∈ oneHostAdded.2 →
          ∃ request, e = SendBatch request ∧ hostnames request = []).
Proof.
  apply (pending_is_work_in_flight sampleBlacklistedHosts sampleQueryBlacklist
           sampleIPDisallowed sampleParseIP sampleWithAnalyzeError
           oneHostAdded.1 oneHostAdded.2
           ((AddHost "keys.a.example" 0 StartSpider).2 ++ oneHostAdded.2)).
  exact oneHostAdded_crawling.
Defined.

Lemma crawl_goes_on_witness :
  ∃ s' eff c,
    selectCase sampleBlacklistedHosts sampleQueryBlacklist sampleIPDisallowed
      sampleParseIP (resolved "keys.a.example" ["192.0.2.1"]) oneHostAdded.1
    = Some (s', eff, c)
    ∧ sampleCrawling s' eff
        (((AddHost "keys.a.example" 0 StartSpider).2 ++ oneHostAdded.2) ++ eff).
Proof.
  apply (crawl_goes_on sampleBlacklistedHosts sampleQueryBlacklist
           sampleIPDisallowed sampleParseIP sampleWithAnalyzeError
           oneHostAdded.1 [] []
           ((AddHost "keys.a.example" 0 StartSpider).2 ++ oneHostAdded.2)
           (SpawnDns "keys.a.example")).
  - exact oneHostAdded_crawling.
  - apply answers_dns.
Defined.

Lemma each_host_queried_once_witness :
  NoDup (dnsSpawns ((AddHost "keys.a.example" 0 StartSpider).2 ++ oneHostAdded.2))
  ∧ NoDup (probes ((AddHost "keys.a.example" 0 StartSpider).2 ++ oneHostAdded.2))
  ∧ ∀ h, h ∈ probes ((AddHost "keys.a.example" 0 StartSpider).2
                      ++ oneHostAdded.2) →
         h ∈ dnsSpawns ((AddHost "keys.a.example" 0 StartSpider).2
                        ++ oneHostAdded.2)
         ∧ h ∉ dnsSpawns oneHostAdded.2.
Proof.
  apply (each_host_queried_once sampleBlacklistedHosts sampleQueryBlacklist
           sampleIPDisallowed sampleParseIP sampleWithAnalyzeError
           oneHostAdded.1).
  exact oneHostAdded_crawling.
Defined.

Lemma crawl_maps_agree_witness :
  addressesNamed oneHostAdded.1 ∧ addressListsDistinct oneHostAdded.1
  ∧ distancesAccounted oneHostAdded.1.
Proof.
  apply (crawl_maps_agree sampleBlacklistedHosts sampleQueryBlacklist
           sampleIPDisallowed sampleParseIP sampleWithAnalyzeError
           oneHostAdded.1 oneHostAdded.2
           ((AddHost "keys.a.example" 0 StartSpider).2 ++ oneHostAdded.2)).
  exact oneHostAdded_crawling.
Defined.
(** ** The order in which the maps are walked *)

Lemma sumInts_fold_perm (l l' : list Z) :
  l ≡ₚ l' →
  ∀ a, fold_left (λ a v, wrap (a + v)) l a = fold_left (λ a v, wrap (a + v)) l' a.
Proof.
  induction 1 as [|x l l' _ IH|x y l|l l' l'' _ IH1 _ IH2]; intros a; simpl.
  - done.
  - apply IH.
  - f_equal. rewrite !wrap_wrap_add. f_equal. lia.
  - by rewrite IH1.
Qed.

(** The integer sum wraps around, so it is the same in every order. *)
Lemma sumInts_perm (l l' : list Z) : l ≡ₚ l' → sumInts l = sumInts l'.
Proof. intros Hp. unfold sumInts. by apply sumInts_fold_perm. Qed.

Lemma countsOf_perm (all : gmap string Z) (l l' : list string) :
  l ≡ₚ l' → countsOf all l = countsOf all l'.
Proof.
  intros Hp. apply map_eq. intros ip. unfold countsOf. rewrite !countsOf_fold.
  destruct (decide (ip ∈ l)) as [Hin|Hnin].
  - rewrite !bool_decide_eq_true_2; [done|by rewrite <- Hp|done].
  - rewrite !bool_decide_eq_false_2; [done|by rewrite <- Hp|done].
Qed.

Lemma sortInts_perm_eq (l l' : list Z) : l ≡ₚ l' → sortInts l = sortInts l'.
Proof.
  intros Hp. apply (Sorted_unique Z.le).
  - apply Sorted_merge_sort. apply _.
  - apply Sorted_merge_sort. apply _.
  - by rewrite !sortInts_perm.
Qed.

Lemma perm_nil_iff {A : Type} (l l' : list A) : l ≡ₚ l' → l = [] ↔ l' = [].
Proof.
  intros Hp. split; intros ->.
  - by apply Permutation_nil_l in Hp.
  - by apply Permutation_nil_r in Hp.
Qed.

Lemma filterOut_perm (eliminate : gset string) (l l' : list string) :
  l ≡ₚ l' → filterOut eliminate l ≡ₚ filterOut eliminate l'.
Proof. intros Hp. unfold filterOut. by apply filter_Permutation. Qed.

Lemma firstStats_perm (l l' : list Z) :
  l ≡ₚ l' → (firstStats l).1 = (firstStats l').1.
Proof.
  intros Hp. unfold firstStats. cbn [fst].
  by rewrite (sumInts_perm l l' Hp), (Permutation_length Hp).
Qed.

Lemma firstStats_eta (l : list Z) :
  firstStats l
  = ((firstStats l).1,
     fsqrt (fdiv (sumSquares (firstStats l).1 l) (of_int (Z.of_nat (length l))))).
Proof. reflexivity. Qed.

Lemma secondStats_eta (kBUCKET_SIZE : Z)
    (shuffle : nat → ∀ A : Type, list A → list A) (one all : gmap string Z) :
  secondStats kBUCKET_SIZE shuffle one all
  = (fdiv (secondSum kBUCKET_SIZE shuffle one all)
          (of_int (Z.of_nat (length (firstIpsList kBUCKET_SIZE shuffle one all)))),
     fsqrt (fdiv (secondSquares kBUCKET_SIZE shuffle one all)
                 (of_int (Z.of_nat (length (firstIpsList kBUCKET_SIZE shuffle
                                              one all)))))).
Proof. reflexivity. Qed.

Lemma sameAnswer_refl (a : Outcome) : sameAnswer a a.
Proof. by destruct a. Qed.

Section SelectorOrder.

Variable kBUCKET_SIZE : Z.
Variable flKeysSanityMin : Z.
Variable flKeysDailyJitter : Z.
Variable SksVersion : Type.
Variable NewSksVersion : string → option SksVersion.
Variable IsAtLeast : SksVersion → SksVersion → bool.
Variable serverHeadersNative : gset string.
Variable CountrySet : Type.
Variable NewCountrySet : string → CountrySet.
Variable HasCountry : CountrySet → string → bool.

(** Two runs of the page, each with its own order for every loop. *)
Variable shuffle shuffle' : nat → ∀ A : Type, list A → list A.
Hypothesis shuffle_perm : ∀ (i : nat) (A : Type) (l : list A), shuffle i A l ≡ₚ l.
Hypothesis shuffle_perm' : ∀ (i : nat) (A : Type) (l : list A), shuffle' i A l ≡ₚ l.

Lemma rangeMap_two `{Countable K} {V : Type} (site : nat) (m : gmap K V) :
  rangeMap shuffle site m ≡ₚ rangeMap shuffle' site m.
Proof.
  by rewrite (rangeMap_perm shuffle shuffle_perm),
             (rangeMap_perm shuffle' shuffle_perm').
Qed.

Lemma bucket_two (one : gmap string Z) (b : Z) :
  default [] (bucketsOf kBUCKET_SIZE shuffle one !! b)
  ≡ₚ default [] (bucketsOf kBUCKET_SIZE shuffle' one !! b).
Proof.
  unfold bucketsOf. rewrite !fillBuckets_default.
  apply filter_Permutation, fmap_Permutation, rangeMap_two.
Qed.

(** With one bucket larger than every other, both runs take it. *)
Lemma largest_two (one : gmap string Z) (k : Z) :
  one ≠ ∅ →
  (∀ k', k' ≠ k → is_Some (bucketsOf kBUCKET_SIZE shuffle one !! k') →
     (length (default [] (bucketsOf kBUCKET_SIZE shuffle one !! k'))
      < length (default [] (bucketsOf kBUCKET_SIZE shuffle one !! k)))%nat) →
  largestBucket shuffle (bucketsOf kBUCKET_SIZE shuffle one) = k
  ∧ largestBucket shuffle' (bucketsOf kBUCKET_SIZE shuffle' one) = k.
Proof.
  intros Hne Hlt.
  assert (Hb : bucketsOf kBUCKET_SIZE shuffle one ≠ ∅).
  { intros Hb. by apply (bucketsOf_empty kBUCKET_SIZE shuffle shuffle_perm) in Hb. }
  apply map_choose in Hb as (k0 & l0 & Hk0).
  assert (Hpos0 : (0 < length (default [] (bucketsOf kBUCKET_SIZE shuffle one !! k0)))%nat).
  { unfold bucketsOf. apply fillBuckets_is_Some. unfold bucketsOf in Hk0. eauto. }
  assert (Hpos : (0 < length (default [] (bucketsOf kBUCKET_SIZE shuffle one !! k)))%nat).
  { destruct (decide (k0 = k)) as [<-|Hk]; [done|].
    specialize (Hlt k0 Hk (ex_intro _ l0 Hk0)). lia. }
  assert (Hall : ∀ k', k' ≠ k →
            (length (default [] (bucketsOf kBUCKET_SIZE shuffle one !! k'))
             < length (default [] (bucketsOf kBUCKET_SIZE shuffle one !! k)))%nat).
  { intros k' Hk'.
    destruct (bucketsOf kBUCKET_SIZE shuffle one !! k') as [l'|] eqn:Hl'.
    - specialize (Hlt k' Hk'). rewrite Hl' in Hlt. apply Hlt. eauto.
    - simpl. exact Hpos. }
  split.
  - by apply (largestBucket_unique shuffle shuffle_perm).
  - apply (largestBucket_unique shuffle' shuffle_perm').
    + by rewrite <- (Permutation_length (bucket_two one k)).
    + intros k' Hk'.
      rewrite <- (Permutation_length (bucket_two one k)),
              <- (Permutation_length (bucket_two one k')).
      by apply Hall.
Qed.

Lemma boundedKeys_two (site : nat) (bounds : Z * Z) (all m : gmap string Z) :
  boundedKeys shuffle site bounds all m ≡ₚ boundedKeys shuffle' site bounds all m.
Proof.
  unfold boundedKeys. apply filter_Permutation, fmap_Permutation, rangeMap_two.
Qed.

Section OneSnapshot.

Variable one all : gmap string Z.
Variable k : Z.

Hypothesis one_largest :
  ∀ k', k' ≠ k → is_Some (bucketsOf kBUCKET_SIZE shuffle one !! k') →
    (length (default [] (bucketsOf kBUCKET_SIZE shuffle one !! k'))
     < length (default [] (bucketsOf kBUCKET_SIZE shuffle one !! k)))%nat.
Hypothesis first_squares :
  firstSquares kBUCKET_SIZE shuffle one = firstSquares kBUCKET_SIZE shuffle' one.
Hypothesis second_sum :
  secondSum kBUCKET_SIZE shuffle one all = secondSum kBUCKET_SIZE shuffle' one all.
Hypothesis second_squares :
  secondSquares kBUCKET_SIZE shuffle one all
  = secondSquares kBUCKET_SIZE shuffle' one all.
Hypothesis some_server : one ≠ ∅.

Lemma largestCounts_two :
  largestCounts kBUCKET_SIZE shuffle one ≡ₚ largestCounts kBUCKET_SIZE shuffle' one.
Proof.
  unfold largestCounts.
  destruct (largest_two one k some_server one_largest) as [-> ->].
  apply bucket_two.
Qed.

Lemma boundsOf_two :
  boundsOf kBUCKET_SIZE shuffle one = boundsOf kBUCKET_SIZE shuffle' one.
Proof.
  pose proof largestCounts_two as Hp.
  pose proof (firstStats_perm _ _ Hp) as Hmean.
  pose proof first_squares as Hsq. unfold firstSquares in Hsq.
  change (firstBounds (largestCounts kBUCKET_SIZE shuffle one)
          = firstBounds (largestCounts kBUCKET_SIZE shuffle' one)).
  assert (Hst : firstStats (largestCounts kBUCKET_SIZE shuffle one)
                = firstStats (largestCounts kBUCKET_SIZE shuffle' one)).
  { rewrite (firstStats_eta (largestCounts kBUCKET_SIZE shuffle one)),
            (firstStats_eta (largestCounts kBUCKET_SIZE shuffle' one)).
    by rewrite Hsq, Hmean, (Permutation_length Hp). }
  unfold firstBounds. by rewrite Hst.
Qed.

Lemma firstIpsList_two :
  firstIpsList kBUCKET_SIZE shuffle one all
  ≡ₚ firstIpsList kBUCKET_SIZE shuffle' one all.
Proof. unfold firstIpsList. rewrite boundsOf_two. apply boundedKeys_two. Qed.

Lemma firstIps_two :
  firstIps kBUCKET_SIZE shuffle one all = firstIps kBUCKET_SIZE shuffle' one all.
Proof. unfold firstIps. apply countsOf_perm, firstIpsList_two. Qed.

Lemma firstIpsAll_two :
  firstIpsAll kBUCKET_SIZE shuffle one all
  = firstIpsAll kBUCKET_SIZE shuffle' one all.
Proof.
  unfold firstIpsAll. rewrite boundsOf_two. apply countsOf_perm, boundedKeys_two.
Qed.

Lemma secondStats_two :
  secondStats kBUCKET_SIZE shuffle one all
  = secondStats kBUCKET_SIZE shuffle' one all.
Proof.
  pose proof second_sum as Hsum. pose proof second_squares as Hsq.
  pose proof (Permutation_length firstIpsList_two) as Hlen.
  rewrite (secondStats_eta kBUCKET_SIZE shuffle),
          (secondStats_eta kBUCKET_SIZE shuffle').
  by rewrite Hsum, Hsq, Hlen.
Qed.

Lemma computeThreshold_two :
  computeThreshold kBUCKET_SIZE flKeysSanityMin flKeysDailyJitter shuffle one all
  = computeThreshold kBUCKET_SIZE flKeysSanityMin flKeysDailyJitter shuffle' one all.
Proof.
  unfold computeThreshold.
  rewrite (bool_decide_eq_false_2 (bucketsOf kBUCKET_SIZE shuffle one = ∅))
    by (intros Hb; by apply (bucketsOf_empty _ _ shuffle_perm) in Hb).
  rewrite (bool_decide_eq_false_2 (bucketsOf kBUCKET_SIZE shuffle' one = ∅))
    by (intros Hb; by apply (bucketsOf_empty _ _ shuffle_perm') in Hb).
  rewrite secondStats_two.
  destruct (secondStats kBUCKET_SIZE shuffle' one all) as [second_mean second_sd].
  rewrite firstIps_two.
  by rewrite (sortInts_perm_eq _ _
                (fmap_Permutation snd _ _
                   (rangeMap_two 5 (firstIps kBUCKET_SIZE shuffle' one all)))).
Qed.

End OneSnapshot.

Lemma computeThreshold_none (sh : nat → ∀ A : Type, list A → list A)
    (all : gmap string Z) :
  (∀ (i : nat) (A : Type) (l : list A), sh i A l ≡ₚ l) →
  computeThreshold kBUCKET_SIZE flKeysSanityMin flKeysDailyJitter sh ∅ all
  = inl (Invalid broken_no_buckets).
Proof.
  intros Hsh. unfold computeThreshold.
  rewrite bool_decide_eq_true_2; [done|]. by apply bucketsOf_empty.
Qed.

Local Abbreviation pageIn sh :=
  (apiIpValidPage kBUCKET_SIZE flKeysSanityMin flKeysDailyJitter SksVersion
     NewSksVersion IsAtLeast serverHeadersNative CountrySet NewCountrySet
     HasCountry sh).

(** C2, as the code has it.  Two runs of the page on the same snapshot and
    form, each walking every map in an order of its own, give the same
    answer: the same minimum and the same addresses, the same reason for
    INVALID, or a panic both times.  This holds when one bucket has more
    members than every other, and the three sums that are added in
    float64 in the order of a map, the squared distances behind
    [first_sd], [second_sum] and the squared distances behind
    [second_sd], come out the same in both runs.  Nothing else in the page
    depends on the order. *)
Theorem selector_order_independent (persisted : PersistedHostInfo) (form : Query) :
  (∀ pass,
     firstLoop SksVersion NewSksVersion IsAtLeast serverHeadersNative CountrySet
       NewCountrySet HasCountry persisted form = Some pass →
     let one := ips_one_per_server pass in
     let all := ips_all pass in
     (∃ k, ∀ k', k' ≠ k → is_Some (bucketsOf kBUCKET_SIZE shuffle one !! k') →
        (length (default [] (bucketsOf kBUCKET_SIZE shuffle one !! k'))
         < length (default [] (bucketsOf kBUCKET_SIZE shuffle one !! k)))%nat)
     ∧ firstSquares kBUCKET_SIZE shuffle one = firstSquares kBUCKET_SIZE shuffle' one
     ∧ secondSum kBUCKET_SIZE shuffle one all
       = secondSum kBUCKET_SIZE shuffle' one all
     ∧ secondSquares kBUCKET_SIZE shuffle one all
       = secondSquares kBUCKET_SIZE shuffle' one all) →
  sameAnswer (pageIn shuffle (Some persisted) form)
             (pageIn shuffle' (Some persisted) form).
Proof.
  intros Hsame. unfold apiIpValidPage.
  destruct (firstLoop _ _ _ _ _ _ _ persisted form) as [pass|] eqn:Hloop; [|done].
  destruct (Hsame pass eq_refl) as ((k & Hk) & Hsq1 & Hsum & Hsq2). clear Hsame.
  destruct (decide (ips_one_per_server pass = ∅)) as [Hempty|Hsome].
  { rewrite Hempty, !computeThreshold_none by done. done. }
  rewrite (computeThreshold_two _ _ k Hk Hsq1 Hsum Hsq2 Hsome).
  destruct (computeThreshold _ _ _ shuffle' _ _) as [out|computed];
    [apply sameAnswer_refl|].
  cbv zeta.
  rewrite (firstIpsAll_two _ _ k Hk Hsq1 Hsome).
  set (thr := match form_threshold form with
              | Some i => if 0 <? i then i else computed
              | None => computed
              end).
  set (m := firstIpsAll kBUCKET_SIZE shuffle' (ips_one_per_server pass)
              (ips_all pass)).
  assert (Hp0 : (filter (λ e : string * Z, thr <= e.2) (rangeMap shuffle 6 m)).*1
                ≡ₚ (filter (λ e : string * Z, thr <= e.2) (rangeMap shuffle' 6 m)).*1).
  { apply fmap_Permutation, filter_Permutation, rangeMap_two. }
  revert Hp0.
  generalize ((filter (λ e : string * Z, thr <= e.2) (rangeMap shuffle 6 m)).*1).
  generalize ((filter (λ e : string * Z, thr <= e.2) (rangeMap shuffle' 6 m)).*1).
  intros ips' ips Hp0. clearbody thr. clear Hk Hsq1 Hsum Hsq2 Hsome Hloop.
  destruct (minimumVersionOf SksVersion NewSksVersion form);
    destruct (form_countries form); destruct (form_proxies form);
    repeat match goal with
    | |- sameAnswer (if bool_decide (?l = []) then _ else _)
                    (if bool_decide (?l' = []) then _ else _) =>
        let Hp := fresh "Hp" in
        assert (Hp : l ≡ₚ l') by (repeat apply filterOut_perm; exact Hp0);
        rewrite (bool_decide_ext (l = []) (l' = []) (perm_nil_iff l l' Hp));
        destruct (bool_decide (l' = [])); [done|]; clear Hp
    | |- sameAnswer (if false then _ else _) (if false then _ else _) =>
        cbv beta iota
    end;
    (split; [done|]; repeat apply filterOut_perm; exact Hp0).
Qed.

End SelectorOrder.

(** *** The order of the loops on the samples *)

(** C2 as stated fails, in two ways.  With two buckets of one member each
    the bucket met first is taken, so walking the maps in one order or in
    the reverse gives different minima and different addresses.  And with
    nine servers in a single bucket, where nothing ties, the squared
    distances added in float64 in one order or in the reverse round to
    different sums, and the minima differ by one. *)
Lemma answers_depend_on_order :
  (samplePage asListed (Some tiedBuckets) noFilters = Valid ["192.0.2.2"] 8900
   ∧ samplePage reversed (Some tiedBuckets) noFilters = Valid ["192.0.2.1"] 4900)
  ∧ (samplePage asListed (Some nineServers) noFilters
     = Valid ["192.0.2.7"; "192.0.2.3"; "192.0.2.5"; "192.0.2.9"; "192.0.2.1";
              "192.0.2.6"; "192.0.2.2"; "192.0.2.4"; "192.0.2.8"] 5000401
     ∧ samplePage reversed (Some nineServers) noFilters
       = Valid ["192.0.2.8"; "192.0.2.4"; "192.0.2.2"; "192.0.2.6"; "192.0.2.1";
                "192.0.2.9"; "192.0.2.5"; "192.0.2.3"; "192.0.2.7"] 5000400).
Proof. repeat split; vm_compute; reflexivity. Qed.

(** On the nine servers a single bucket holds every count, so nothing
    ties; [second_sum] is the same in both orders, and the squared
    distances behind [first_sd] are not. *)
Example nine_servers_round_differently :
  ∃ pass, sampleFirstLoop nineServers noFilters = Some pass
    ∧ size (bucketsOf 1000 asListed (ips_one_per_server pass)) = 1%nat
    ∧ secondSum 1000 asListed (ips_one_per_server pass) (ips_all pass)
      = secondSum 1000 reversed (ips_one_per_server pass) (ips_all pass)
    ∧ firstSquares 1000 asListed (ips_one_per_server pass)
      ≠ firstSquares 1000 reversed (ips_one_per_server pass).
Proof.
  eexists. split; [vm_compute; reflexivity|].
  split; [vm_compute; reflexivity|].
  split; [vm_compute; reflexivity|].
  vm_compute. intros [=].
Qed.

Lemma selector_order_independent_witness :
  samplePage asListed (Some unevenBuckets) noFilters
  = Valid ["192.0.2.1"; "192.0.2.2"] 4850
  ∧ sameAnswer (samplePage asListed (Some unevenBuckets) noFilters)
               (samplePage reversed (Some unevenBuckets) noFilters).
Proof.
  split; [vm_compute; reflexivity|].
  apply (selector_order_independent 1000 1000 100 unit (λ _, Some tt)
           (λ _ _, true) ∅ unit (λ _, tt) (λ _ _, false) asListed reversed
           asListed_perm reversed_perm unevenBuckets noFilters).
  intros pass Hpass.
  assert (Hone : ips_one_per_server pass = sampleCounts
                 ∧ ips_all pass = ips_one_per_server pass).
  { vm_compute in Hpass. injection Hpass as <-. split; vm_compute; reflexivity. }
  destruct Hone as [Hone Hall]. rewrite Hall, Hone. cbv zeta. split.
  - exists 5. intros k' Hne.
    assert (Hb : bucketsOf 1000 asListed sampleCounts
                 = <[5 := [5000; 5100]]> (<[9 := [9000]]> ∅))
      by (vm_compute; reflexivity).
    rewrite Hb, lookup_insert_eq, lookup_insert_ne by done.
    destruct (decide (9 = k')) as [<-|Hne9].
    + rewrite lookup_insert_eq. simpl. lia.
    + rewrite lookup_insert_ne, lookup_empty by done. by intros [? [=]].
  - repeat split; vm_compute; reflexivity.
Defined.
